(** * Descriptors: a shallow embedding of [src/descriptors.ts]

    The development follows the TypeScript source function by function:
    [evaluate], [expand], the [Output] class with its getters, the PSBT input
    assertion and [finalizePsbtInput].  Exceptions are values of [result];
    optional fields are [option]s; the imported collaborators (regular
    expression tables, checksum codec, key and miniscript parsers, payment
    encoders, PSBT object) are the fields of one interface, [Externals]. *)

From Stdlib Require Import String Ascii List ZArith Lia Bool.
From Stdlib Require Import Strings.Byte.
From Stdlib Require Import Decimal DecimalString DecimalPos DecimalZ.
Import ListNotations.
Local Open Scope string_scope.
Local Open Scope Z_scope.

(** ** JavaScript values the code touches *)

(** A [Buffer] is a byte sequence. *)
Definition Buffer : Type := list byte.

(** A JavaScript [number] as the code uses it: an integer value, or a value
    that [Number.isInteger] rejects (a fraction, NaN, an infinity), kept by
    the text [toString] prints for it.  [Int z] is the integer-valued Number
    nearest to [z]: [z] itself up to 2^53 in magnitude, where every integer
    is a Number, and beyond that the nearest value with a significand of 53
    bits, within the range of the doubles. *)
Inductive Number : Type :=
| Int (z : Z)
| NonInteger (shown : string).

Definition Number_isInteger (n : Number) : bool :=
  match n with Int _ => true | NonInteger _ => false end.

(** [Number.MAX_SAFE_INTEGER] *)
Definition MAX_SAFE_INTEGER : Z := 2 ^ 53 - 1.

(** The digits of an integer, most significant first, after [-] when it is
    negative. *)
Definition Number_digits (x : Z) : string :=
  NilZero.string_of_int (Z.to_int x).

(** The Number nearest to a non-negative integer: rounded to 53 significant
    bits, a tie going to the even significand. *)
Definition to_double (x : Z) : Z :=
  if x <=? 2 ^ 53 then x else
  let e := Z.log2 x - 52 in
  let q := x / 2 ^ e in
  let r := x mod 2 ^ e in
  let half := 2 ^ (e - 1) in
  let q := if r <? half then q
           else if half <? r then q + 1
           else if Z.even q then q else q + 1 in
  q * 2 ^ e.

(** [Number::toString] looks for the fewest significant digits [k] such
    that some [s] of [k] digits and a power of ten give back the Number [v].
    Here, for one [k]: of the two multiples of that power of ten around [v],
    the one that reads back as [v], the closer one when both do, the one
    with the even [s] when they are as close. *)
Definition round_trip (v : Z) (k : nat) : option Z :=
  let n := String.length (Number_digits v) in
  let p := 10 ^ Z.of_nat (n - k) in
  let lo := v / p * p in
  let hi := lo + p in
  match to_double lo =? v, to_double hi =? v with
  | true, true =>
      Some (if v - lo <? hi - v then lo
            else if hi - v <? v - lo then hi
            else if Z.even (lo / p) then lo else hi)
  | true, false => Some lo
  | false, true => Some hi
  | false, false => None
  end.

(** The search for the fewest digits, from [k] upwards; 17 digits always
    tell a double apart. *)
Fixpoint shortest_from (v : Z) (k fuel : nat) : Z :=
  match fuel with
  | O => v
  | S fuel =>
      match round_trip v k with
      | Some x => x
      | None => shortest_from v (S k) fuel
      end
  end.

(** An integer without its trailing decimal zeros. *)
Fixpoint strip_zeros (fuel : nat) (x : Z) : Z :=
  match fuel with
  | O => x
  | S fuel =>
      if (x mod 10 =? 0) && negb (x =? 0) then strip_zeros fuel (x / 10)
      else x
  end.

(** How [Number::toString] writes the integer [x = s * 10^(n-k)] it
    settled on: all of its [n] digits up to 21 of them; beyond that the
    digits of [s], a point after the first when there are more, and the
    exponent [n - 1]. *)
Definition exponential (x : Z) : string :=
  let n := String.length (Number_digits x) in
  if (n <=? 21)%nat then Number_digits x
  else
    let s := Number_digits (strip_zeros n x) in
    let mantissa :=
      match s with
      | String d (String _ _ as rest) => String d ("." ++ rest)
      | _ => s
      end in
    mantissa ++ "e+" ++ Number_digits (Z.of_nat n - 1).

(** [n.toString()]: a safe integer is written digit by digit; a larger one
    by the shortest digits that read back as the same Number, in exponent
    notation from 1e21. *)
Definition Number_toString (n : Number) : string :=
  match n with
  | Int z =>
      if Z.abs z <=? MAX_SAFE_INTEGER then Number_digits z
      else (if z <? 0 then "-" else "")
           ++ exponential (shortest_from (to_double (Z.abs z)) 1 17)
  | NonInteger shown => shown
  end.

(** What [typeof] can see of an argument that TypeScript declares a string
    but a JavaScript caller may pass as anything. *)
Inductive JsValue : Type :=
| JsUndefined
| JsNull
| JsBoolean (b : bool)
| JsNumber (n : Number)
| JsString (s : string)
| JsBuffer (b : Buffer)
| JsObject.

Definition typeof (v : JsValue) : string :=
  match v with
  | JsUndefined => "undefined"
  | JsNull => "object"
  | JsBoolean _ => "boolean"
  | JsNumber _ => "number"
  | JsString _ => "string"
  | JsBuffer _ => "object"
  | JsObject => "object"
  end.

(** Truthiness of an optional string: [undefined] and [''] are falsy. *)
Definition truthy (s : option string) : bool :=
  match s with
  | Some (String _ _) => true
  | _ => false
  end.

(** [a || b] on optional strings. *)
Definition or_else (a b : option string) : option string :=
  if truthy a then a else b.

(** ** String primitives *)

(** [s.indexOf(c)] for a one-character needle; [-1] when absent. *)
Fixpoint indexOf (c : ascii) (s : string) : Z :=
  match s with
  | EmptyString => -1
  | String a t =>
      if Ascii.eqb a c then 0
      else let r := indexOf c t in if r =? -1 then -1 else r + 1
  end.

(** [s.substring(start)] *)
Fixpoint substring_from (start : nat) (s : string) : string :=
  match start, s with
  | O, _ => s
  | S n, EmptyString => EmptyString
  | S n, String _ t => substring_from n t
  end.

(** [s.substring(0, stop)] *)
Fixpoint substring_to (stop : nat) (s : string) : string :=
  match stop, s with
  | O, _ => EmptyString
  | S n, EmptyString => EmptyString
  | S n, String a t => String a (substring_to n t)
  end.

(** [s.startsWith(p)] *)
Fixpoint startsWith (p s : string) : bool :=
  match p, s with
  | EmptyString, _ => true
  | String a p', String b s' => Ascii.eqb a b && startsWith p' s'
  | String _ _, EmptyString => false
  end.

(** The array [s.match(/c/g)] returns for a one-character pattern: every
    occurrence, or [null] when there is none. *)
Fixpoint occurrences (c : ascii) (s : string) : list string :=
  match s with
  | EmptyString => []
  | String a t =>
      if Ascii.eqb a c then String a EmptyString :: occurrences c t
      else occurrences c t
  end.

Definition match_global (c : ascii) (s : string) : option (list string) :=
  match occurrences c s with
  | [] => None
  | l => Some l
  end.

(** [s.replaceAll(c, by)] for a one-character pattern [c] and a replacement
    text free of [$]. *)
Fixpoint replaceAll (c : ascii) (by_ : string) (s : string) : string :=
  match s with
  | EmptyString => EmptyString
  | String a t =>
      if Ascii.eqb a c then by_ ++ replaceAll c by_ t
      else String a (replaceAll c by_ t)
  end.

(** [s.match('(' + re + ')$')?.[0]]: the pattern is anchored at the end of
    the input only, so the engine tries each start from the left and the
    match is the first suffix of [s] that belongs to the language of [re]. *)
Fixpoint match_at_end (re : string -> bool) (s : string) : option string :=
  if re s then Some s
  else match s with
       | EmptyString => None
       | String _ t => match_at_end re t
       end.

(** [Buffer.compare(a, b)]: -1, 0 or 1 by lexicographic byte order. *)
Fixpoint Buffer_compare (a b : Buffer) : Z :=
  match a, b with
  | [], [] => 0
  | [], _ :: _ => -1
  | _ :: _, [] => 1
  | x :: a', y :: b' =>
      match N.compare (Byte.to_N x) (Byte.to_N y) with
      | Lt => -1
      | Gt => 1
      | Eq => Buffer_compare a' b'
      end
  end.

(** [Buffer.alloc(size, fill)] *)
Definition Buffer_alloc (size : nat) (fill : byte) : Buffer := repeat fill size.

(** [arr[i]] for a numeric index: [undefined] outside the array. *)
Definition array_get {A : Type} (arr : list A) (i : Z) : option A :=
  if i <? 0 then None else nth_error arr (Z.to_nat i).

(** ** Errors

    One constructor per [throw] of the source, carrying the value the message
    interpolates where it is a string or a size.  [External] is an exception
    raised inside an imported collaborator. *)
Inductive Error : Type :=
| MustProvideDescriptor               (* 'You must provide a descriptor.' *)
| HasNotChecksum (descriptor : string)
| InvalidChecksum (descriptor : string)
| IndexForNonRanged (descriptor : string)
| ExpressionDeprecated                (* descriptor and expression both given *)
| DescriptorNotProvided
| InvalidIndex (index : Number)
| AddrCannotBeRanged
| CouldNotGetAddress (descriptor : string)
| InvalidAddress (address : string)
| KeyExpressionNotExtracted
| InvalidExpression (descriptor : string)
| CouldNotExtractPubkey (descriptor : string)
| CouldNotCalculateRedeemScript (descriptor : string)
| CouldNotGetMiniscript (descriptor : string)
| MiniscriptOnlyInWsh
| ScriptTooLarge (byteLength : nat)        (* larger than 3600 bytes *)
| P2SHScriptTooLarge (byteLength : nat)    (* larger than 520 bytes *)
| TooManyNonPushOps (n : nat)
| CouldNotDecompile (script : Buffer)
| CouldNotParse (descriptor : string)
| InvalidDescriptorType
| IndexNotProvidedForRanged
| CouldNotExtractPayment (descriptor : string)
| ExpansionMapNotAvailable (descriptor : string)
| NotExpandedTimeConstraints (miniscript : string)
| NoAddressInPayment
| NoOutputInPayment
| NotExpandedSatisfaction
| NoValidSatisfaction
| UnknownSegwit
| InvalidInputOrTxInput
| NoUtxo
| UtxoShouldExist
| CannotFinalize (index : Z)
| InvalidSignatures (index : Z)
| CannotFinalizeWithoutSignatures
| External (message : string).

Inductive result (A : Type) : Type :=
| Ok (a : A)
| Throw (e : Error).
Arguments Ok {A} a.
Arguments Throw {A} e.

Definition bind {A B : Type} (c : result A) (k : A -> result B) : result B :=
  match c with
  | Ok a => k a
  | Throw e => Throw e
  end.

Notation "x <- c ;; k" := (bind c (fun x => k))
  (at level 61, c at next level, right associativity).
Notation "' pat <- c ;; k" := (bind c (fun x => match x with pat => k end))
  (at level 61, pat pattern, c at next level, right associativity).

Definition succeeds {A : Type} (c : result A) : Prop := exists a, c = Ok a.
Definition fails {A : Type} (c : result A) : Prop := exists e, c = Throw e.

(** ** Data model *)

(** bitcoinjs-lib's [Network] interface (the numeric version bytes and the
    bech32 prefix). *)
Record Network : Type := {
  bech32 : string;
  bip32_public : Z;
  bip32_private : Z;
  pubKeyHash : Z;
  scriptHash : Z;
  wif : Z
}.

(** [networks.bitcoin], the default of every [network] parameter. *)
Definition networks_bitcoin : Network := {|
  bech32 := "bc";
  bip32_public := 0x0488b21e;
  bip32_private := 0x0488ade4;
  pubKeyHash := 0x00;
  scriptHash := 0x05;
  wif := 0x80
|}.

(** bitcoinjs-lib's [Payment]: both the argument and the result of the
    payment encoders.  [output] is the scriptPubKey. *)
Module Payment.
#[warnings="-register-all"]
Inductive t : Type := make {
  network : option Network;
  output : option Buffer;
  pubkey : option Buffer;
  address : option string;
  redeem : option t
}.
(** The object literal [{}]. *)
Definition empty : t := make None None None None None.
End Payment.

(** One key participant of a descriptor (the fields [descriptors.ts] reads,
    and the textual ones of the key-info record). *)
Module KeyInfo.
Record t : Type := make {
  keyExpression : string;
  pubkey : option Buffer;
  masterFingerprint : option Buffer;
  originPath : option string;
  keyPath : option string;
  path : option string
}.
End KeyInfo.

(** A JavaScript object from placeholders [@i] to key infos, in insertion
    order; [Object.values] lists the second components. *)
Definition ExpansionMap : Type := list (string * KeyInfo.t).
Definition Object_values (m : ExpansionMap) : list KeyInfo.t := map snd m.

Record Preimage : Type := { digest : string; preimage : string }.

Record PartialSig : Type := { sig_pubkey : Buffer; signature : Buffer }.

Record TimeConstraints : Type := {
  nLockTime : option Z;
  nSequence : option Z
}.

(** What [satisfyMiniscript] returns. *)
Record Satisfaction : Type := {
  scriptSatisfaction : option Buffer;
  sat_nLockTime : option Z;
  sat_nSequence : option Z
}.

(** A token of a decompiled script: an opcode number or pushed data. *)
Inductive StackElement : Type :=
| OpCode (op : Z)
| Data (b : Buffer).

(** The object [expand] returns: a field is [None] when the source leaves it
    out of the object literal. *)
Record Expansion : Type := {
  payment : option Payment.t;
  expandedExpression : option string;
  miniscript : option string;
  expansionMap : option ExpansionMap;
  isSegwit : option bool;
  expandedMiniscript : option string;
  redeemScript : option Buffer;
  witnessScript : option Buffer;
  isRanged : bool;
  canonicalExpression : string
}.

(** The slice of a bitcoinjs-lib [Psbt] the code reads. *)
Record WitnessUtxo : Type := { wu_script : Buffer; wu_value : Z }.

Record PsbtInput : Type := {
  partialSig : option (list PartialSig);
  witnessUtxo : option WitnessUtxo;
  nonWitnessUtxo : option Buffer;
  in_witnessScript : option Buffer;
  in_redeemScript : option Buffer
}.

Record TxInput : Type := {
  tx_hash : Buffer;
  tx_index : Z;                       (* the vout *)
  tx_sequence : option Z
}.

Record Psbt : Type := {
  data_inputs : list PsbtInput;       (* psbt.data.inputs *)
  txInputs : list TxInput;
  locktime_of : Z                     (* psbt.locktime *)
}.

Record TxOutput : Type := { out_script : Buffer; out_value : Z }.
Record Transaction : Type := { outs : list TxOutput }.

(** The parameter object of [expand]; an omitted property is [None]. *)
Module ExpandParams.
Record t : Type := make {
  descriptor : option string;
  expression : option string;
  index : option Number;
  checksumRequired : option bool;
  network : option Network;
  allowMiniscriptInP2SH : option bool
}.
End ExpandParams.

(** The options object of the [Output] constructor.  [descriptor] is kept as
    the caller passed it, whatever its type. *)
Module OutputParams.
Record t : Type := make {
  descriptor : JsValue;
  index : option Number;
  checksumRequired : option bool;
  allowMiniscriptInP2SH : option bool;
  network : option Network;
  preimages : option (list Preimage);
  signersPubKeys : option (list Buffer)
}.
End OutputParams.

(** The private fields of an [Output] instance. *)
Module Output.
Record t : Type := make {
  payment : Payment.t;
  preimages : list Preimage;
  signersPubKeys : list Buffer;
  miniscript : option string;
  witnessScript : option Buffer;
  redeemScript : option Buffer;
  isSegwit : option bool;
  expandedExpression : option string;
  expandedMiniscript : option string;
  expansionMap : option ExpansionMap;
  network : Network
}.
End Output.

(** ** Imported collaborators

    Everything [descriptors.ts] imports and calls.  The regular expressions of
    [./re] appear as the matchers the code applies them as: a language
    membership test for [reChecksum] (spliced into a larger pattern by the
    source), a yes/no match for the shells tested only for a match, the
    capture group 1 for the shells whose body is extracted, and the matched
    text for [reKeyExp]. *)
Class Externals : Type := {
  (* ./checksum: compute(body), a total function to text *)
  DescriptorChecksum : string -> string;
  (* ./re *)
  reChecksum : string -> bool;
  reKeyExp : string -> option string;
  reAddrAnchored : string -> option (option string);
  rePkAnchored : string -> bool;
  rePkhAnchored : string -> bool;
  reShWpkhAnchored : string -> bool;
  reWpkhAnchored : string -> bool;
  reShWshMiniscriptAnchored : string -> option (option string);
  reShMiniscriptAnchored : string -> option (option string);
  reWshMiniscriptAnchored : string -> option (option string);
  (* ./keyExpressions, ./miniscript *)
  globalParseKeyExpression :
    string -> Network -> option bool -> result KeyInfo.t;
  globalExpandMiniscript :
    string -> bool -> Network -> result (string * ExpansionMap);
  miniscript2Script : string -> ExpansionMap -> result Buffer;
  satisfyMiniscript :
    string -> ExpansionMap -> list PartialSig -> list Preimage ->
    option TimeConstraints -> result Satisfaction;
  (* bitcoinjs-lib *)
  address_toOutputScript : string -> Network -> result Buffer;
  p2pk : Payment.t -> result Payment.t;
  p2pkh : Payment.t -> result Payment.t;
  p2sh : Payment.t -> result Payment.t;
  p2wpkh : Payment.t -> result Payment.t;
  p2wsh : Payment.t -> result Payment.t;
  p2tr : Payment.t -> result Payment.t;
  bscript_decompile : Buffer -> option (list StackElement);
  Transaction_fromBuffer : Buffer -> result Transaction;
  validateSignaturesOfInput : Psbt -> Z -> result bool;
  finalizeInput : Psbt -> Z -> option (Buffer * Network) -> result Psbt
}.

(** Modelled from the spec: bitcoinjs-lib's opcode table is not part of the
    sources; the spec gives [OP_16] as [0x60]. *)
Definition OP_16 : Z := 0x60.

(** See "Resource limitations" of the miniscript reference. *)
Definition MAX_SCRIPT_ELEMENT_SIZE : nat := 520.
Definition MAX_STANDARD_P2WSH_SCRIPT_SIZE : nat := 3600.
Definition MAX_OPS_PER_SCRIPT : nat := 201.

Section Descriptors.
Context {ext : Externals}.

Definition is_nonpush (op : StackElement) : bool :=
  match op with
  | OpCode n => n >? OP_16
  | Data _ => false
  end.

Definition countNonPushOnlyOPs (script : Buffer) : result nat :=
  match bscript_decompile script with
  | None => Throw (CouldNotDecompile script)
  | Some decompile => Ok (length (filter is_nonpush decompile))
  end.

(** Returns a bare descriptor without checksum and particularized for a
    certain index (if it was a range descriptor). *)
Definition evaluate (descriptor : string) (checksumRequired : bool)
    (index : option Number) : result string :=
  if negb (truthy (Some descriptor)) then Throw MustProvideDescriptor else
  let mChecksum := match_at_end reChecksum descriptor in
  match mChecksum, checksumRequired with
  | None, true => Throw (HasNotChecksum descriptor)
  | _, _ =>
    evaluatedDescriptor <-
      match mChecksum with
      | Some m0 =>
          let checksum := substring_from 1 m0 in
          let stripped :=
            substring_to (String.length descriptor - String.length m0)
                         descriptor in
          if negb (String.eqb checksum (DescriptorChecksum stripped))
          then Throw (InvalidChecksum descriptor)
          else Ok stripped
      | None => Ok descriptor
      end ;;
    match index with
    | Some i =>
        match match_global "*" evaluatedDescriptor with
        | Some mWildcard =>
            if (0 <? length mWildcard)%nat
            then Ok (replaceAll "*" (Number_toString i) evaluatedDescriptor)
            else Throw (IndexForNonRanged descriptor)
        | None => Throw (IndexForNonRanged descriptor)
        end
    | None => Ok evaluatedDescriptor
    end
  end.

(** A destructuring default: [x = d] in a parameter pattern. *)
Definition default {A : Type} (d : A) (x : option A) : A :=
  match x with Some a => a | None => d end.

(** [index < 0]; the source reaches it only for an integer, the
    [!Number.isInteger(index) ||] before it having short-circuited. *)
Definition Number_negative (n : Number) : bool :=
  match n with Int z => z <? 0 | NonInteger _ => false end.

(** [try { x = attempt } catch (e) {}]: [x] keeps its value when the attempt
    throws. *)
Definition try_assign {A : Type} (x : option A) (attempt : result A)
    : option A :=
  match attempt with Ok a => Some a | Throw _ => x end.

(** [re.match(s)?.[1]] for a matcher that yields capture group 1. *)
Definition group1 (m : option (option string)) : option string :=
  match m with Some g => g | None => None end.

Definition matches {A : Type} (m : option A) : bool :=
  match m with Some _ => true | None => false end.

(** Takes a string key expression (xpub, xprv, pubkey or wif) and parses
    it. *)
Definition parseKeyExpression (keyExpression : string) (network : Network)
    (isSegwit : bool) : result KeyInfo.t :=
  globalParseKeyExpression keyExpression network (Some isSegwit).

(** Expand a miniscript to a generalized form using variables instead of key
    expressions. *)
Definition expandMiniscript (miniscript : string) (isSegwit : bool)
    (network : Network) : result (string * ExpansionMap) :=
  globalExpandMiniscript miniscript isSegwit network.

(** [miniscript.search(/^(pk\(|pkh\(|wpkh\(|combo\(|multi\(|sortedmulti\(|
    multi_a\(|sortedmulti_a\()/)]: 0 on a match, -1 otherwise. *)
Definition search_sh_head (miniscript : string) : Z :=
  if existsb (fun head => startsWith head miniscript)
       ["pk("; "pkh("; "wpkh("; "combo("; "multi("; "sortedmulti(";
        "multi_a("; "sortedmulti_a("]
  then 0 else -1.

(** The [addr(ADDR)] branch of [expand]. *)
Definition expand_addr (descriptor canonicalExpression : string)
    (network : Network) (isRanged : bool) : result Expansion :=
  if isRanged then Throw AddrCannotBeRanged else
  match group1 (reAddrAnchored canonicalExpression) with
  | Some (String _ _ as matchedAddress) =>
      match address_toOutputScript matchedAddress network with
      | Throw _ => Throw (InvalidAddress matchedAddress)
      | Ok output =>
          let arg :=
            Payment.make (Some network) (Some output) None None None in
          let payment := None in
          let payment := try_assign payment (p2pkh arg) in
          let payment := try_assign payment (p2sh arg) in
          let payment := try_assign payment (p2wpkh arg) in
          let payment := try_assign payment (p2wsh arg) in
          let payment := try_assign payment (p2tr arg) in
          match payment with
          | None => Throw (InvalidAddress matchedAddress)
          | Some _ =>
              Ok {| payment := payment;
                    expandedExpression := None;
                    miniscript := None;
                    expansionMap := None;
                    isSegwit := None;
                    expandedMiniscript := None;
                    redeemScript := None;
                    witnessScript := None;
                    isRanged := isRanged;
                    canonicalExpression := canonicalExpression |}
          end
      end
  | _ => Throw (CouldNotGetAddress descriptor)
  end.

(** The part the four single-key branches share word for word, up to the
    [if (!isCanonicalRanged)]: extract the key expression, compare the
    canonical expression with the shell rebuilt around it, parse the key. *)
Definition expand_key (descriptor canonicalExpression : string)
    (shell : string -> string) (network : Network) (isSegwit : bool)
    : result KeyInfo.t :=
  match reKeyExp canonicalExpression with
  | Some (String _ _ as keyExpression) =>
      if negb (String.eqb canonicalExpression (shell keyExpression))
      then Throw (InvalidExpression descriptor)
      else parseKeyExpression keyExpression network isSegwit
  | _ => Throw KeyExpressionNotExtracted
  end.

(** [const pubkey = pKE.pubkey; if (!pubkey) throw ...] *)
Definition pubkey_of (descriptor : string) (pKE : KeyInfo.t) : result Buffer :=
  match KeyInfo.pubkey pKE with
  | Some pubkey => Ok pubkey
  | None => Throw (CouldNotExtractPubkey descriptor)
  end.

Definition with_pubkey (pubkey : Buffer) (network : Network) : Payment.t :=
  Payment.make (Some network) None (Some pubkey) None None.

Definition with_redeem (redeem : Payment.t) (network : Network) : Payment.t :=
  Payment.make (Some network) None None None (Some redeem).

(** [{ output: script, network }] *)
Definition with_output (script : Buffer) (network : Network) : Payment.t :=
  Payment.make (Some network) (Some script) None None None.

(** [payment.redeem?.output] *)
Definition redeem_output (payment : Payment.t) : option Buffer :=
  match Payment.redeem payment with
  | Some r => Payment.output r
  | None => None
  end.

(** The [pk(KEY)] branch. *)
Definition expand_pk (descriptor canonicalExpression : string)
    (network : Network) (isRanged isCanonicalRanged : bool)
    : result Expansion :=
  let isSegwit := false in
  pKE <- expand_key descriptor canonicalExpression
           (fun k => "pk(" ++ k ++ ")") network isSegwit ;;
  payment <-
    (if negb isCanonicalRanged then
       pubkey <- pubkey_of descriptor pKE ;;
       payment <- p2pk (with_pubkey pubkey network) ;;
       Ok (Some payment)
     else Ok None) ;;
  Ok {| payment := payment;
        expandedExpression := Some "pk(@0)";
        miniscript := None;
        expansionMap := Some [("@0", pKE)];
        isSegwit := Some isSegwit;
        expandedMiniscript := None;
        redeemScript := None;
        witnessScript := None;
        isRanged := isRanged;
        canonicalExpression := canonicalExpression |}.

(** The [pkh(KEY)] branch (legacy). *)
Definition expand_pkh (descriptor canonicalExpression : string)
    (network : Network) (isRanged isCanonicalRanged : bool)
    : result Expansion :=
  let isSegwit := false in
  pKE <- expand_key descriptor canonicalExpression
           (fun k => "pkh(" ++ k ++ ")") network isSegwit ;;
  payment <-
    (if negb isCanonicalRanged then
       pubkey <- pubkey_of descriptor pKE ;;
       payment <- p2pkh (with_pubkey pubkey network) ;;
       Ok (Some payment)
     else Ok None) ;;
  Ok {| payment := payment;
        expandedExpression := Some "pkh(@0)";
        miniscript := None;
        expansionMap := Some [("@0", pKE)];
        isSegwit := Some isSegwit;
        expandedMiniscript := None;
        redeemScript := None;
        witnessScript := None;
        isRanged := isRanged;
        canonicalExpression := canonicalExpression |}.

(** The [sh(wpkh(KEY))] branch (nested segwit). *)
Definition expand_sh_wpkh (descriptor canonicalExpression : string)
    (network : Network) (isRanged isCanonicalRanged : bool)
    : result Expansion :=
  let isSegwit := true in
  pKE <- expand_key descriptor canonicalExpression
           (fun k => "sh(wpkh(" ++ k ++ "))") network isSegwit ;;
  ' (payment, redeemScript) <-
    (if negb isCanonicalRanged then
       pubkey <- pubkey_of descriptor pKE ;;
       inner <- p2wpkh (with_pubkey pubkey network) ;;
       payment <- p2sh (with_redeem inner network) ;;
       match redeem_output payment with
       | Some redeemScript => Ok (Some payment, Some redeemScript)
       | None => Throw (CouldNotCalculateRedeemScript descriptor)
       end
     else Ok (None, None)) ;;
  Ok {| payment := payment;
        expandedExpression := Some "sh(wpkh(@0))";
        miniscript := None;
        expansionMap := Some [("@0", pKE)];
        isSegwit := Some isSegwit;
        expandedMiniscript := None;
        redeemScript := redeemScript;
        witnessScript := None;
        isRanged := isRanged;
        canonicalExpression := canonicalExpression |}.

(** The [wpkh(KEY)] branch (native segwit). *)
Definition expand_wpkh (descriptor canonicalExpression : string)
    (network : Network) (isRanged isCanonicalRanged : bool)
    : result Expansion :=
  let isSegwit := true in
  pKE <- expand_key descriptor canonicalExpression
           (fun k => "wpkh(" ++ k ++ ")") network isSegwit ;;
  payment <-
    (if negb isCanonicalRanged then
       pubkey <- pubkey_of descriptor pKE ;;
       payment <- p2wpkh (with_pubkey pubkey network) ;;
       Ok (Some payment)
     else Ok None) ;;
  Ok {| payment := payment;
        expandedExpression := Some "wpkh(@0)";
        miniscript := None;
        expansionMap := Some [("@0", pKE)];
        isSegwit := Some isSegwit;
        expandedMiniscript := None;
        redeemScript := None;
        witnessScript := None;
        isRanged := isRanged;
        canonicalExpression := canonicalExpression |}.

(** Compile the expanded miniscript and enforce the byte cap of the shell
    and the cap on non-push opcodes, in the order the three miniscript
    branches do. *)
Definition compile_within (limit : nat) (tooLarge : nat -> Error)
    (expandedMiniscript : string) (expansionMap : ExpansionMap)
    : result Buffer :=
  script <- miniscript2Script expandedMiniscript expansionMap ;;
  if (limit <? length script)%nat then Throw (tooLarge (length script)) else
  nonPushOnlyOps <- countNonPushOnlyOPs script ;;
  if (MAX_OPS_PER_SCRIPT <? nonPushOnlyOps)%nat
  then Throw (TooManyNonPushOps nonPushOnlyOps)
  else Ok script.

(** The [sh(wsh(miniscript))] branch. *)
Definition expand_sh_wsh (descriptor canonicalExpression : string)
    (network : Network) (isRanged isCanonicalRanged : bool)
    : result Expansion :=
  let isSegwit := true in
  match group1 (reShWshMiniscriptAnchored canonicalExpression) with
  | Some (String _ _ as miniscript) =>
      ' (expandedMiniscript, expansionMap) <-
        expandMiniscript miniscript isSegwit network ;;
      let expandedExpression := "sh(wsh(" ++ expandedMiniscript ++ "))" in
      ' (payment, redeemScript, witnessScript) <-
        (if negb isCanonicalRanged then
           script <- compile_within MAX_STANDARD_P2WSH_SCRIPT_SIZE
                       ScriptTooLarge expandedMiniscript expansionMap ;;
           inner <- p2wsh (with_redeem (with_output script network) network) ;;
           payment <- p2sh (with_redeem inner network) ;;
           match redeem_output payment with
           | Some redeemScript =>
               Ok (Some payment, Some redeemScript, Some script)
           | None => Throw (CouldNotCalculateRedeemScript descriptor)
           end
         else Ok (None, None, None)) ;;
      Ok {| payment := payment;
            expandedExpression := Some expandedExpression;
            miniscript := Some miniscript;
            expansionMap := Some expansionMap;
            isSegwit := Some isSegwit;
            expandedMiniscript := Some expandedMiniscript;
            redeemScript := redeemScript;
            witnessScript := witnessScript;
            isRanged := isRanged;
            canonicalExpression := canonicalExpression |}
  | _ => Throw (CouldNotGetMiniscript descriptor)
  end.

(** The [sh(miniscript)] branch. *)
Definition expand_sh (descriptor canonicalExpression : string)
    (network : Network) (allowMiniscriptInP2SH : bool)
    (isRanged isCanonicalRanged : bool) : result Expansion :=
  let isSegwit := false in
  match group1 (reShMiniscriptAnchored canonicalExpression) with
  | Some (String _ _ as miniscript) =>
      if Bool.eqb allowMiniscriptInP2SH false
         && negb (search_sh_head miniscript =? 0)
      then Throw MiniscriptOnlyInWsh else
      ' (expandedMiniscript, expansionMap) <-
        expandMiniscript miniscript isSegwit network ;;
      let expandedExpression := "sh(" ++ expandedMiniscript ++ ")" in
      ' (payment, redeemScript) <-
        (if negb isCanonicalRanged then
           script <- compile_within MAX_SCRIPT_ELEMENT_SIZE
                       P2SHScriptTooLarge expandedMiniscript expansionMap ;;
           payment <- p2sh (with_redeem (with_output script network) network) ;;
           Ok (Some payment, Some script)
         else Ok (None, None)) ;;
      Ok {| payment := payment;
            expandedExpression := Some expandedExpression;
            miniscript := Some miniscript;
            expansionMap := Some expansionMap;
            isSegwit := Some isSegwit;
            expandedMiniscript := Some expandedMiniscript;
            redeemScript := redeemScript;
            witnessScript := None;
            isRanged := isRanged;
            canonicalExpression := canonicalExpression |}
  | _ => Throw (CouldNotGetMiniscript descriptor)
  end.

(** The [wsh(miniscript)] branch. *)
Definition expand_wsh (descriptor canonicalExpression : string)
    (network : Network) (isRanged isCanonicalRanged : bool)
    : result Expansion :=
  let isSegwit := true in
  match group1 (reWshMiniscriptAnchored canonicalExpression) with
  | Some (String _ _ as miniscript) =>
      ' (expandedMiniscript, expansionMap) <-
        expandMiniscript miniscript isSegwit network ;;
      let expandedExpression := "wsh(" ++ expandedMiniscript ++ ")" in
      ' (payment, witnessScript) <-
        (if negb isCanonicalRanged then
           script <- compile_within MAX_STANDARD_P2WSH_SCRIPT_SIZE
                       ScriptTooLarge expandedMiniscript expansionMap ;;
           payment <- p2wsh (with_redeem (with_output script network) network) ;;
           Ok (Some payment, Some script)
         else Ok (None, None)) ;;
      Ok {| payment := payment;
            expandedExpression := Some expandedExpression;
            miniscript := Some miniscript;
            expansionMap := Some expansionMap;
            isSegwit := Some isSegwit;
            expandedMiniscript := Some expandedMiniscript;
            redeemScript := None;
            witnessScript := witnessScript;
            isRanged := isRanged;
            canonicalExpression := canonicalExpression |}
  | _ => Throw (CouldNotGetMiniscript descriptor)
  end.

(** [if (index !== undefined) if (!Number.isInteger(index) || index < 0)
    throw ...] *)
Definition check_index (index : option Number) : result unit :=
  match index with
  | Some i =>
      if negb (Number_isInteger i) || Number_negative i
      then Throw (InvalidIndex i)
      else Ok tt
  | None => Ok tt
  end.

(** [s.indexOf('*') !== -1] *)
Definition has_wildcard (s : string) : bool := negb (indexOf "*" s =? -1).

(** The shell dispatch of [expand]: the [if / else if] chain over the
    anchored patterns, in source order. *)
Definition dispatch (descriptor canonicalExpression : string)
    (network : Network) (allowMiniscriptInP2SH : bool)
    (isRanged isCanonicalRanged : bool) : result Expansion :=
  if matches (reAddrAnchored canonicalExpression) then
    expand_addr descriptor canonicalExpression network isRanged
  else if rePkAnchored canonicalExpression then
    expand_pk descriptor canonicalExpression network isRanged isCanonicalRanged
  else if rePkhAnchored canonicalExpression then
    expand_pkh descriptor canonicalExpression network isRanged isCanonicalRanged
  else if reShWpkhAnchored canonicalExpression then
    expand_sh_wpkh descriptor canonicalExpression network isRanged
      isCanonicalRanged
  else if reWpkhAnchored canonicalExpression then
    expand_wpkh descriptor canonicalExpression network isRanged
      isCanonicalRanged
  else if matches (reShWshMiniscriptAnchored canonicalExpression) then
    expand_sh_wsh descriptor canonicalExpression network isRanged
      isCanonicalRanged
  else if matches (reShMiniscriptAnchored canonicalExpression) then
    expand_sh descriptor canonicalExpression network allowMiniscriptInP2SH
      isRanged isCanonicalRanged
  else if matches (reWshMiniscriptAnchored canonicalExpression) then
    expand_wsh descriptor canonicalExpression network isRanged
      isCanonicalRanged
  else Throw (CouldNotParse descriptor).

(** Parses and analyzes a descriptor expression and destructures it into its
    elemental parts. *)
Definition expand (params : ExpandParams.t) : result Expansion :=
  let checksumRequired :=
    default false (ExpandParams.checksumRequired params) in
  let network := default networks_bitcoin (ExpandParams.network params) in
  let allowMiniscriptInP2SH :=
    default false (ExpandParams.allowMiniscriptInP2SH params) in
  let index := ExpandParams.index params in
  if truthy (ExpandParams.descriptor params)
     && truthy (ExpandParams.expression params)
  then Throw ExpressionDeprecated else
  match or_else (ExpandParams.descriptor params)
                (ExpandParams.expression params) with
  | Some (String _ _ as descriptor) =>
      let isRanged := has_wildcard descriptor in
      _ <- check_index index ;;
      canonicalExpression <- evaluate descriptor checksumRequired index ;;
      let isCanonicalRanged := has_wildcard canonicalExpression in
      dispatch descriptor canonicalExpression network allowMiniscriptInP2SH
        isRanged isCanonicalRanged
  | _ => Throw DescriptorNotProvided
  end.

(** ** The [Output] class *)

(** [arr.map(f)] for a callback that may throw. *)
Fixpoint map_throwing {A B : Type} (f : A -> result B) (arr : list A)
    : result (list B) :=
  match arr with
  | [] => Ok []
  | a :: rest =>
      b <- f a ;;
      bs <- map_throwing f rest ;;
      Ok (b :: bs)
  end.

(** Returns the scriptPubKey of a payment, as [getScriptPubKey] does. *)
Definition payment_scriptPubKey (payment : Payment.t) : result Buffer :=
  match Payment.output payment with
  | Some output => Ok output
  | None => Throw NoOutputInPayment
  end.

(** The constructor of [Output]. *)
Definition new_Output (options : OutputParams.t) : result Output.t :=
  let checksumRequired :=
    default false (OutputParams.checksumRequired options) in
  let allowMiniscriptInP2SH :=
    default false (OutputParams.allowMiniscriptInP2SH options) in
  let network := default networks_bitcoin (OutputParams.network options) in
  let preimages := default [] (OutputParams.preimages options) in
  let index := OutputParams.index options in
  if negb (String.eqb (typeof (OutputParams.descriptor options)) "string")
  then Throw InvalidDescriptorType else
  match OutputParams.descriptor options with
  | JsString descriptor =>
      expandedResult <-
        expand (ExpandParams.make (Some descriptor) None index
                  (Some checksumRequired) (Some network)
                  (Some allowMiniscriptInP2SH)) ;;
      if isRanged expandedResult && negb (matches index)
      then Throw IndexNotProvidedForRanged else
      match payment expandedResult with
      | None => Throw (CouldNotExtractPayment descriptor)
      | Some payment =>
          signersPubKeys <-
            match OutputParams.signersPubKeys options with
            | Some signersPubKeys => Ok signersPubKeys
            | None =>
                match expansionMap expandedResult with
                | Some expansionMap =>
                    map_throwing (pubkey_of descriptor)
                      (Object_values expansionMap)
                | None =>
                    if negb (matches (reAddrAnchored
                               (canonicalExpression expandedResult)))
                    then Throw (ExpansionMapNotAvailable descriptor)
                    else
                      scriptPubKey <- payment_scriptPubKey payment ;;
                      Ok [scriptPubKey]
                end
            end ;;
          Ok {| Output.payment := payment;
                Output.preimages := preimages;
                Output.signersPubKeys := signersPubKeys;
                Output.miniscript := miniscript expandedResult;
                Output.witnessScript := witnessScript expandedResult;
                Output.redeemScript := redeemScript expandedResult;
                Output.isSegwit := isSegwit expandedResult;
                Output.expandedExpression :=
                  expandedExpression expandedResult;
                Output.expandedMiniscript :=
                  expandedMiniscript expandedResult;
                Output.expansionMap := expansionMap expandedResult;
                Output.network := network |}
      end
  | _ => Throw InvalidDescriptorType
  end.

(** The fake signature [#getTimeConstraints] builds for a signer. *)
Definition fakeSignature (pubkey : Buffer) : PartialSig :=
  {| sig_pubkey := pubkey; signature := Buffer_alloc 64 x00 |}.

(** Gets the TimeConstraints (nSequence and nLockTime) of the miniscript
    descriptor, just using the expression, the signersPubKeys and
    preimages. *)
Definition getTimeConstraints (this : Output.t)
    : result (option TimeConstraints) :=
  if truthy (Output.miniscript this) then
    match Output.expandedMiniscript this, Output.expansionMap this with
    | Some expandedMiniscript, Some expansionMap =>
        let fakeSignatures := map fakeSignature (Output.signersPubKeys this) in
        sat <- satisfyMiniscript expandedMiniscript expansionMap
                 fakeSignatures (Output.preimages this) None ;;
        Ok (Some {| nLockTime := sat_nLockTime sat;
                    nSequence := sat_nSequence sat |})
    | _, _ =>
        Throw (NotExpandedTimeConstraints
                 (default EmptyString (Output.miniscript this)))
    end
  else Ok None.

Definition getPayment (this : Output.t) : Payment.t := Output.payment this.

Definition getAddress (this : Output.t) : result string :=
  if truthy (Payment.address (Output.payment this)) then
    match Payment.address (Output.payment this) with
    | Some a => Ok a
    | None => Throw NoAddressInPayment
    end
  else Throw NoAddressInPayment.

Definition getScriptPubKey (this : Output.t) : result Buffer :=
  payment_scriptPubKey (Output.payment this).

(** [this.#getTimeConstraints()?.nSequence] *)
Definition getSequence (this : Output.t) : result (option Z) :=
  tc <- getTimeConstraints this ;;
  Ok (match tc with Some t => nSequence t | None => None end).

(** [this.#getTimeConstraints()?.nLockTime] *)
Definition getLockTime (this : Output.t) : result (option Z) :=
  tc <- getTimeConstraints this ;;
  Ok (match tc with Some t => nLockTime t | None => None end).

Definition getWitnessScript (this : Output.t) : option Buffer :=
  Output.witnessScript this.

Definition getRedeemScript (this : Output.t) : option Buffer :=
  Output.redeemScript this.

Definition getNetwork (this : Output.t) : Network := Output.network this.

Definition Output_isSegwit (this : Output.t) : option bool :=
  Output.isSegwit this.

(** Returns the compiled Script Satisfaction if this [Output] was created
    using a miniscript-based descriptor. *)
Definition getScriptSatisfaction (this : Output.t)
    (signatures : list PartialSig) : result Buffer :=
  match Output.miniscript this, Output.expandedMiniscript this,
        Output.expansionMap this with
  | Some _, Some expandedMiniscript, Some expansionMap =>
      lockTime <- getLockTime this ;;
      sequence <- getSequence this ;;
      sat <- satisfyMiniscript expandedMiniscript expansionMap signatures
               (Output.preimages this)
               (Some {| nLockTime := lockTime; nSequence := sequence |}) ;;
      match scriptSatisfaction sat with
      | Some s => Ok s
      | None => Throw NoValidSatisfaction
      end
  | _, _, _ => Throw NotExpandedSatisfaction
  end.

(** [eqBuffers] of [#assertPsbtInput]: byte comparison when both are
    Buffers, [===] otherwise. *)
Definition eqBuffers (buf1 buf2 : option Buffer) : bool :=
  match buf1, buf2 with
  | Some b1, Some b2 => Buffer_compare b1 b2 =? 0
  | None, None => true
  | _, _ => false
  end.

(** [a !== b] on [number | undefined], negated. *)
Definition strict_equal (a b : option Z) : bool :=
  match a, b with
  | Some x, Some y => x =? y
  | None, None => true
  | _, _ => false
  end.

(** [x || 0] on [number | undefined]. *)
Definition or_zero (x : option Z) : Z :=
  match x with
  | Some n => if n =? 0 then 0 else n
  | None => 0
  end.

(** The sequence [#assertPsbtInput] expects, from [getSequence()] and the
    locktime already defaulted to 0. *)
Definition expected_sequence (sequence : option Z) (locktime : Z) : option Z :=
  let sequence :=
    if negb (matches sequence) && negb (locktime =? 0)
    then Some 0xfffffffe else sequence in
  let sequence :=
    if negb (matches sequence) && (locktime =? 0)
    then Some 0xffffffff else sequence in
  sequence.

(** The scriptPubKey a PSBT input spends, from its witness or non-witness
    UTXO. *)
Definition observed_scriptPubKey (input : PsbtInput) (vout : Z)
    : result Buffer :=
  match witnessUtxo input with
  | Some wu => Ok (wu_script wu)
  | None =>
      match nonWitnessUtxo input with
      | None => Throw NoUtxo
      | Some raw =>
          tx <- Transaction_fromBuffer raw ;;
          match array_get (outs tx) vout with
          | None => Throw UtxoShouldExist
          | Some out => Ok (out_script out)
          end
      end
  end.

Definition assertPsbtInput (this : Output.t) (psbt : Psbt) (index : Z)
    : result unit :=
  match array_get (data_inputs psbt) index, array_get (txInputs psbt) index with
  | Some input, Some txInput =>
      let inputSequence := tx_sequence txInput in
      let vout := tx_index txInput in
      scriptPubKey <- observed_scriptPubKey input vout ;;
      lockTime <- getLockTime this ;;
      let locktime := or_zero lockTime in
      sequence <- getSequence this ;;
      let sequence := expected_sequence sequence locktime in
      ownScriptPubKey <- getScriptPubKey this ;;
      if negb (Buffer_compare scriptPubKey ownScriptPubKey =? 0)
         || negb (strict_equal sequence inputSequence)
         || negb (locktime =? locktime_of psbt)
         || negb (eqBuffers (getWitnessScript this) (in_witnessScript input))
         || negb (eqBuffers (getRedeemScript this) (in_redeemScript input))
      then Throw (CannotFinalize index)
      else Ok tt
  | _, _ => Throw InvalidInputOrTxInput
  end.

(** Finalizes a PSBT input by adding the unlocking script that satisfies
    this [Output]'s spending conditions; returns the PSBT as mutated. *)
Definition finalizePsbtInput (this : Output.t) (index : Z) (psbt : Psbt)
    (validate : option bool) : result Psbt :=
  let validate := default true validate in
  valid <- (if validate then validateSignaturesOfInput psbt index
            else Ok true) ;;
  if validate && negb valid then Throw (InvalidSignatures index) else
  match match array_get (data_inputs psbt) index with
        | Some input => partialSig input
        | None => None
        end with
  | None => Throw CannotFinalizeWithoutSignatures
  | Some signatures =>
      _ <- assertPsbtInput this psbt index ;;
      if negb (truthy (Output.miniscript this)) then
        finalizeInput psbt index None
      else
        scriptSatisfaction <- getScriptSatisfaction this signatures ;;
        finalizeInput psbt index
          (Some (scriptSatisfaction, Output.network this))
  end.

End Descriptors.

(** ** The remaining methods of [Output]

    [updatePsbtAsInput], the deprecated [updatePsbt], [updatePsbtAsOutput],
    the [expand] method and the deprecated [Descriptor] class. *)

(** The parameter object of [updatePsbtAsInput] and [updatePsbt]. *)
Module UpdateParams.
Record t : Type := make {
  psbt : Psbt;
  txHex : option string;
  txId : option string;
  value : option Z;
  vout : Z
}.
End UpdateParams.

(** The object [updatePsbtAsInput] passes to [updatePsbt] of [./psbt]. *)
Module UpdatePsbtArgs.
Record t : Type := make {
  psbt : Psbt;
  vout : Z;
  txHex : option string;
  txId : option string;
  value : option Z;
  sequence : option Z;
  locktime : option Z;
  keysInfo : list KeyInfo.t;
  scriptPubKey : Buffer;
  isSegwit : bool;
  witnessScript : option Buffer;
  redeemScript : option Buffer
}.
End UpdatePsbtArgs.

(** What a call of [updatePsbtAsInput] leaves behind: whether it warned on
    the console, the PSBT as mutated, and the finalizer it returns. *)
Record InputUpdate : Type := {
  warned : bool;
  updated : Psbt;
  finalizer : Psbt -> option bool -> result Psbt
}.

(** The object the [expand] method of an [Output] returns. *)
Record OutputExpansion : Type := {
  own_expandedExpression : option string;
  own_miniscript : option string;
  own_expandedMiniscript : option string;
  own_expansionMap : option ExpansionMap
}.

(** The options of the deprecated [Descriptor] constructor: those of
    [Output] with [expression] in place of [descriptor]. *)
Module DescriptorParams.
Record t : Type := make {
  expression : JsValue;
  index : option Number;
  checksumRequired : option bool;
  allowMiniscriptInP2SH : option bool;
  network : option Network;
  preimages : option (list Preimage);
  signersPubKeys : option (list Buffer)
}.
End DescriptorParams.

Section OutputPsbt.
Context {ext : Externals}.

(** [updatePsbt] of [./psbt]: it appends an input to the PSBT and returns
    the input's index; here it yields the PSBT as mutated with it. *)
Variable updatePsbt : UpdatePsbtArgs.t -> result (Psbt * Z).

(** [psbt.addOutput] of bitcoinjs-lib. *)
Variable addOutput : Psbt -> Buffer -> Z -> result Psbt.

(** Sets this output as an input of the provided [psbt]; returns the
    finalizer to be used after signing. *)
Definition updatePsbtAsInput (this : Output.t) (params : UpdateParams.t)
    : result InputUpdate :=
  let warned := negb (matches (UpdateParams.txHex params)) in
  match Output_isSegwit this with
  | None => Throw UnknownSegwit
  | Some isSegwit =>
      sequence <- getSequence this ;;
      locktime <- getLockTime this ;;
      let keysInfo :=
        match Output.expansionMap this with
        | Some expansionMap => Object_values expansionMap
        | None => []
        end in
      scriptPubKey <- getScriptPubKey this ;;
      ' (psbt, index) <-
        updatePsbt
          (UpdatePsbtArgs.make (UpdateParams.psbt params)
             (UpdateParams.vout params) (UpdateParams.txHex params)
             (UpdateParams.txId params) (UpdateParams.value params)
             sequence locktime keysInfo scriptPubKey isSegwit
             (getWitnessScript this) (getRedeemScript this)) ;;
      Ok {| warned := warned;
            updated := psbt;
            finalizer :=
              fun psbt validate =>
                finalizePsbtInput this index psbt validate |}
  end.

(** The deprecated [updatePsbt] method: [updatePsbtAsInput], then the
    position of the last input of the PSBT. *)
Definition Output_updatePsbt (this : Output.t) (params : UpdateParams.t)
    : result (Psbt * Z) :=
  update <- updatePsbtAsInput this params ;;
  Ok (updated update,
      Z.of_nat (length (data_inputs (updated update))) - 1).

(** Adds this output as an output of the provided [psbt]. *)
Definition updatePsbtAsOutput (this : Output.t) (psbt : Psbt) (value : Z)
    : result Psbt :=
  script <- getScriptPubKey this ;;
  addOutput psbt script value.

(** Decomposes the descriptor used to form this [Output] into its elemental
    parts. *)
Definition Output_expand (this : Output.t) : OutputExpansion :=
  {| own_expandedExpression := Output.expandedExpression this;
     own_miniscript := Output.miniscript this;
     own_expandedMiniscript := Output.expandedMiniscript this;
     own_expansionMap := Output.expansionMap this |}.

(** The constructor of the deprecated [Descriptor] class:
    [super({ descriptor: expression, ...rest })]. *)
Definition new_Descriptor (options : DescriptorParams.t) : result Output.t :=
  new_Output
    (OutputParams.make (DescriptorParams.expression options)
       (DescriptorParams.index options)
       (DescriptorParams.checksumRequired options)
       (DescriptorParams.allowMiniscriptInP2SH options)
       (DescriptorParams.network options)
       (DescriptorParams.preimages options)
       (DescriptorParams.signersPubKeys options)).

End OutputPsbt.

(** ** A concrete set of collaborators

    [Reference] instantiates [Externals] so that the model runs on concrete
    descriptors.  The checksum codec is the real one; the pattern tables,
    key parser, miniscript compiler, satisfier and payment encoders are
    reduced to the fragment the examples exercise. *)
Module Reference.

(** Modelled from the spec: [./checksum] is not part of the sources; the
    spec asks for Bitcoin Core's descriptor checksum (a polynomial over
    5-bit groups with the five generator constants below), computed here as
    [descriptor.cpp] does. *)
Definition INPUT_CHARSET : string :=
  "0123456789()[],'/*abcdefgh@:$%{}"
  ++ "IJKLMNOPQRSTUVWXYZ&+-.;<=>?!^_|~"
  ++ "ijklmnopqrstuvwxyzABCDEFGH`#" ++ String "034" "\ ".

Definition CHECKSUM_CHARSET : string := "qpzry9x8gf2tvdw0s3jn54khce6mua7l".

Definition PolyMod (c val : Z) : Z :=
  let c0 := Z.shiftr c 35 in
  let c := Z.lxor (Z.shiftl (Z.land c 0x7ffffffff) 5) val in
  let c := if Z.testbit c0 0 then Z.lxor c 0xf5dee51989 else c in
  let c := if Z.testbit c0 1 then Z.lxor c 0xa9fdca3312 else c in
  let c := if Z.testbit c0 2 then Z.lxor c 0x1bab10e32d else c in
  let c := if Z.testbit c0 3 then Z.lxor c 0x3706b1677a else c in
  let c := if Z.testbit c0 4 then Z.lxor c 0x644d626ffd else c in
  c.

(** The loop over the characters of the span: [None] on a character outside
    the input character set. *)
Fixpoint checksum_feed (span : string) (c cls : Z) (clscount : nat)
    : option (Z * Z * nat) :=
  match span with
  | EmptyString => Some (c, cls, clscount)
  | String ch rest =>
      let pos := indexOf ch INPUT_CHARSET in
      if pos =? -1 then None else
      let c := PolyMod c (Z.land pos 31) in
      let cls := cls * 3 + Z.shiftr pos 5 in
      match clscount with
      | 2%nat => checksum_feed rest (PolyMod c cls) 0 0
      | _ => checksum_feed rest c cls (S clscount)
      end
  end.

Definition checksum_char (c : Z) (j : nat) : string :=
  let k := Z.land (Z.shiftr c (5 * (7 - Z.of_nat j))) 31 in
  substring_to 1 (substring_from (Z.to_nat k) CHECKSUM_CHARSET).

Definition DescriptorChecksum (span : string) : string :=
  match checksum_feed span 1 0 0 with
  | None => EmptyString
  | Some (c, cls, clscount) =>
      let c := match clscount with O => c | _ => PolyMod c cls end in
      let c := fold_left (fun c _ => PolyMod c 0) (seq 0 8) c in
      let c := Z.lxor c 1 in
      String.concat EmptyString (map (checksum_char c) (seq 0 8))
  end.

(** The language of the checksum pattern: [#] and eight characters, each a
    lower-case letter or a digit. *)
Definition is_checksum_char (a : ascii) : bool :=
  let n := nat_of_ascii a in
  ((97 <=? n) && (n <=? 122) || (48 <=? n) && (n <=? 57))%nat.

Definition reChecksum (s : string) : bool :=
  match s with
  | String "#" rest =>
      (String.length rest =? 8)%nat
      && forallb is_checksum_char (list_ascii_of_string rest)
  | _ => false
  end.

(** [s] as [prefix ++ middle ++ suffix], if it has that form. *)
Definition between (prefix suffix s : string) : option string :=
  let n := String.length s in
  let p := String.length prefix in
  let q := String.length suffix in
  if (p + q <=? n)%nat && startsWith prefix s
     && String.eqb (substring_from (n - q) s) suffix
  then Some (substring_to (n - p - q) (substring_from p s))
  else None.

(** [s] without the trailing match of the checksum pattern, when it has
    one. *)
Definition unchecksummed (s : string) : string :=
  match match_at_end reChecksum s with
  | Some m => substring_to (String.length s - String.length m) s
  | None => s
  end.

(** An anchored shell pattern.  [./re] composes each of them with an
    optional checksum, [^shell(#checksum)?$]: the text is the shell, or the
    shell and then what the checksum pattern matches. *)
Definition anchored (prefix suffix s : string) : option string :=
  match between prefix suffix s with
  | Some body => Some body
  | None => between prefix suffix (unchecksummed s)
  end.

Definition shell (prefix suffix s : string) : option (option string) :=
  match anchored prefix suffix s with
  | Some body => Some (Some body)
  | None => None
  end.

Fixpoint has_open (s : string) : bool :=
  match s with
  | EmptyString => false
  | String a t => Ascii.eqb a "(" || has_open t
  end.

(** The text after the last [(]. *)
Fixpoint after_last_open (s : string) : string :=
  match s with
  | EmptyString => EmptyString
  | String a t =>
      if has_open t then after_last_open t
      else if Ascii.eqb a "(" then t else after_last_open t
  end.

(** The text before the first [)] or [,]. *)
Fixpoint before_first_close (s : string) : string :=
  match s with
  | EmptyString => EmptyString
  | String a t =>
      if Ascii.eqb a ")" || Ascii.eqb a ","
      then EmptyString else String a (before_first_close t)
  end.

(** The innermost first argument: where the examples keep their key. *)
Definition reKeyExp (s : string) : option string :=
  match before_first_close (after_last_open s) with
  | EmptyString => None
  | k => Some k
  end.

Definition byte_of_Z (z : Z) : byte :=
  match Byte.of_N (Z.to_N (z mod 256)) with
  | Some b => b
  | None => x00
  end.

Definition Z_of_byte (b : byte) : Z := Z.of_N (Byte.to_N b).

Definition Buffer_eqb (a b : Buffer) : bool := Buffer_compare a b =? 0.

(** Stands in for HASH160 ([n] = 20) and SHA256 ([n] = 32): [n] bytes mixed
    from the data. *)
Definition digest_of (n : nat) (data : Buffer) : Buffer :=
  map (fun k =>
         byte_of_Z (fold_left (fun acc b => (acc * 31 + Z_of_byte b + 7) mod 256)
                      data (Z.of_nat k)))
      (seq 0 n).

(** A data push: the length byte, or OP_PUSHDATA1 / OP_PUSHDATA2 and the
    length, then the data. *)
Definition push (data : Buffer) : Buffer :=
  let n := Z.of_nat (length data) in
  if n <=? 75 then byte_of_Z n :: data
  else if n <=? 255 then x4c :: byte_of_Z n :: data
  else x4d :: byte_of_Z n :: byte_of_Z (n / 256) :: data.

(** Script decompilation over the push forms of [push]; every other byte is
    an opcode.  [None] when a push runs past the end. *)
Fixpoint decompile_from (fuel : nat) (script : Buffer)
    : option (list StackElement) :=
  match fuel, script with
  | _, [] => Some []
  | O, _ :: _ => None
  | S fuel, op :: rest =>
      let n := Z_of_byte op in
      let take (len : nat) (rest : Buffer) :=
        if (len <=? length rest)%nat then
          match decompile_from fuel (skipn len rest) with
          | Some toks => Some (Data (firstn len rest) :: toks)
          | None => None
          end
        else None in
      if (1 <=? n) && (n <=? 75) then take (Z.to_nat n) rest
      else if n =? 0x4c then
        match rest with
        | l :: rest => take (Z.to_nat (Z_of_byte l)) rest
        | [] => None
        end
      else if n =? 0x4d then
        match rest with
        | lo :: hi :: rest =>
            take (Z.to_nat (Z_of_byte lo + 256 * Z_of_byte hi)) rest
        | _ => None
        end
      else
        match decompile_from fuel rest with
        | Some toks => Some (OpCode n :: toks)
        | None => None
        end
  end.

Definition decompile (script : Buffer) : option (list StackElement) :=
  decompile_from (length script) script.

(** A key expression with a wildcard has no pubkey yet; the pubkey of any
    other is taken to be the bytes of its text. *)
Definition parseKey (keyExpression : string) (network : Network)
    (isSegwit : option bool) : result KeyInfo.t :=
  Ok (KeyInfo.make keyExpression
        (if has_wildcard keyExpression then None
         else Some (list_byte_of_string keyExpression))
        None None None None).

(** Two miniscripts: [pk(KEY)] and [and_v(v:pk(KEY),older(144))]. *)
Definition expandMs (miniscript : string) (isSegwit : bool)
    (network : Network) : result (string * ExpansionMap) :=
  match between "pk(" ")" miniscript with
  | Some key =>
      pKE <- parseKey key network (Some isSegwit) ;;
      Ok ("pk(@0)", [("@0", pKE)])
  | None =>
      match between "and_v(v:pk(" "),older(144))" miniscript with
      | Some key =>
          pKE <- parseKey key network (Some isSegwit) ;;
          Ok ("and_v(v:pk(@0),older(144))", [("@0", pKE)])
      | None => Throw (External "unsupported miniscript")
      end
  end.

Definition first_pubkey (expansionMap : ExpansionMap) : result Buffer :=
  match expansionMap with
  | (_, keyInfo) :: _ =>
      match KeyInfo.pubkey keyInfo with
      | Some pubkey => Ok pubkey
      | None => Throw (External "key without pubkey")
      end
  | [] => Throw (External "empty expansion map")
  end.

Definition ms2Script (expandedMiniscript : string)
    (expansionMap : ExpansionMap) : result Buffer :=
  pubkey <- first_pubkey expansionMap ;;
  if String.eqb expandedMiniscript "pk(@0)" then
    Ok (push pubkey ++ [xac])%list
  else if String.eqb expandedMiniscript "and_v(v:pk(@0),older(144))" then
    Ok (push pubkey ++ [xad; x02; x90; x00; xb2])%list
  else Throw (External "unsupported miniscript").

Definition same_constraints (t : option TimeConstraints)
    (lockTime sequence : option Z) : bool :=
  match t with
  | None => true
  | Some t =>
      strict_equal (nLockTime t) lockTime
      && strict_equal (nSequence t) sequence
  end.

Definition satisfy (expandedMiniscript : string) (expansionMap : ExpansionMap)
    (signatures : list PartialSig) (preimages : list Preimage)
    (timeConstraints : option TimeConstraints) : result Satisfaction :=
  let witness :=
    match signatures with
    | s :: _ => Some (push (signature s))
    | [] => None
    end in
  sequence <-
    (if String.eqb expandedMiniscript "pk(@0)" then Ok None
     else if String.eqb expandedMiniscript "and_v(v:pk(@0),older(144))"
     then Ok (Some 144)
     else Throw (External "unsupported miniscript")) ;;
  if same_constraints timeConstraints None sequence
  then Ok {| scriptSatisfaction := witness;
             sat_nLockTime := None;
             sat_nSequence := sequence |}
  else Throw (External "time constraints changed").

(** [script] is [before], then [n] bytes, then [after]. *)
Definition has_form (before : Buffer) (n : nat) (after script : Buffer)
    : bool :=
  (length script =? length before + n + length after)%nat
  && Buffer_eqb (firstn (length before) script) before
  && Buffer_eqb (skipn (length before + n) script) after.

(** A payment encoder over one script template: it validates a given
    [output], else builds the output from the pubkey or the redeem script. *)
Definition encoder (before : Buffer) (n : nat) (after : Buffer)
    (build : Payment.t -> option Buffer) (a : Payment.t) : result Payment.t :=
  match Payment.output a with
  | Some script =>
      if has_form before n after script then Ok a
      else Throw (External "Output is invalid")
  | None =>
      match build a with
      | Some data =>
          Ok (Payment.make (Payment.network a) (Some (before ++ data ++ after)%list)
                (Payment.pubkey a) (Payment.address a) (Payment.redeem a))
      | None => Throw (External "Not enough data")
      end
  end.

Definition from_pubkey (n : nat) (a : Payment.t) : option Buffer :=
  option_map (digest_of n) (Payment.pubkey a).

Definition from_redeem (n : nat) (a : Payment.t) : option Buffer :=
  match Payment.redeem a with
  | Some r => option_map (digest_of n) (Payment.output r)
  | None => None
  end.

Definition p2pkh := encoder [x76; xa9; x14] 20 [x88; xac] (from_pubkey 20).
Definition p2sh := encoder [xa9; x14] 20 [x87] (from_redeem 20).
Definition p2wpkh := encoder [x00; x14] 20 [] (from_pubkey 20).
Definition p2wsh := encoder [x00; x20] 32 [] (from_redeem 32).
Definition p2tr := encoder [x51; x20] 32 [] (from_pubkey 32).

Definition p2pk (a : Payment.t) : result Payment.t :=
  match Payment.pubkey a with
  | Some pubkey =>
      Ok (Payment.make (Payment.network a) (Some (push pubkey ++ [xac])%list)
            (Payment.pubkey a) (Payment.address a) (Payment.redeem a))
  | None => Throw (External "Not enough data")
  end.

(** Addresses: the bech32 prefix and [1q] then the program text, or a
    leading [1] (pubkey hash) or [3] (script hash). *)
Definition toOutputScript (addr : string) (network : Network)
    : result Buffer :=
  let payload := digest_of 20 (list_byte_of_string addr) in
  if startsWith (bech32 network ++ "1q") addr then Ok ([x00; x14] ++ payload)%list
  else if startsWith "1" addr then
    Ok ([x76; xa9; x14] ++ payload ++ [x88; xac])%list
  else if startsWith "3" addr then Ok ([xa9; x14] ++ payload ++ [x87])%list
  else Throw (External "has no matching Script").

(** A raw previous transaction is read as its single output script. *)
Definition fromBuffer (raw : Buffer) : result Transaction :=
  Ok {| outs := [{| out_script := raw; out_value := 0 |}] |}.

Definition validateSignatures (psbt : Psbt) (index : Z) : result bool :=
  match array_get (data_inputs psbt) index with
  | Some input =>
      match partialSig input with
      | Some (_ :: _) => Ok true
      | _ => Throw (External "No signatures to validate")
      end
  | None => Throw (External "No input")
  end.

Definition finalize (psbt : Psbt) (index : Z)
    (finalScripts : option (Buffer * Network)) : result Psbt :=
  match array_get (data_inputs psbt) index with
  | Some _ => Ok psbt
  | None => Throw (External "No input")
  end.

Definition externals : Externals :=
  Build_Externals
    DescriptorChecksum
    reChecksum
    reKeyExp
    (shell "addr(" ")")
    (fun s => matches (anchored "pk(" ")" s))
    (fun s => matches (anchored "pkh(" ")" s))
    (fun s => matches (anchored "sh(wpkh(" "))" s))
    (fun s => matches (anchored "wpkh(" ")" s))
    (shell "sh(wsh(" "))")
    (shell "sh(" ")")
    (shell "wsh(" ")")
    parseKey expandMs ms2Script satisfy
    toOutputScript p2pk p2pkh p2sh p2wpkh p2wsh p2tr
    decompile fromBuffer validateSignatures finalize.

End Reference.

(** ** Vocabulary of the specification

    The notions the specification words its properties with, each defined
    over the model above. *)
Section Vocabulary.
Context {ext : Externals}.

(** The trailing checksum of a descriptor: the text [#xxxxxxxx] the checksum
    pattern matches at its end, if any. *)
Definition trailing_checksum (descriptor : string) : option string :=
  match_at_end reChecksum descriptor.

(** The body of a descriptor: what precedes its trailing checksum. *)
Definition body_of (descriptor : string) : string :=
  match trailing_checksum descriptor with
  | Some m =>
      substring_to (String.length descriptor - String.length m) descriptor
  | None => descriptor
  end.

(** The descriptor a call of [expand] is about: [descriptor || expression],
    the empty text when neither is given. *)
Definition given_descriptor (params : ExpandParams.t) : string :=
  default EmptyString
    (or_else (ExpandParams.descriptor params) (ExpandParams.expression params)).

(** The character of a digit, [0] to [9]. *)
Definition digit_char (d : Z) : ascii := ascii_of_nat (48 + Z.to_nat d).

(** The digits of [z] before [tail], found from the last: the remainder by
    ten, then the digits of the quotient before it. *)
Fixpoint decimal_from (fuel : nat) (z : Z) (tail : string) : string :=
  let tail := String (digit_char (z mod 10)) tail in
  match fuel with
  | O => tail
  | S fuel => if z / 10 =? 0 then tail else decimal_from fuel (z / 10) tail
  end.

(** The decimal representation of a non-negative integer; it has no more
    digits than the integer has bits. *)
Definition decimal (z : Z) : string :=
  decimal_from (Z.to_nat (Z.log2 z)) z EmptyString.

(** Wildcard substitution in the words of the specification: every [*]
    replaced by the decimal representation of the index. *)
Definition substitute (i : Z) (text : string) : string :=
  replaceAll "*" (decimal i) text.

(** The checksum rule of [evaluate]: a trailing checksum must be the one
    computed over the body; a descriptor without one passes unless a
    checksum is required. *)
Definition checksum_accepted (descriptor : string) (checksumRequired : bool)
    : bool :=
  match trailing_checksum descriptor with
  | Some m =>
      String.eqb (substring_from 1 m) (DescriptorChecksum (body_of descriptor))
  | None => negb checksumRequired
  end.

(** The index rule of [evaluate] on a body. *)
Definition particularize (descriptor body : string) (index : option Number)
    : result string :=
  match index with
  | Some i =>
      if has_wildcard body
      then Ok (replaceAll "*" (Number_toString i) body)
      else Throw (IndexForNonRanged descriptor)
  | None => Ok body
  end.

(** What [expand] does before it dispatches on the shell: the checks on its
    arguments and [evaluate]; it yields the descriptor and the canonical
    expression. *)
Definition prelude (params : ExpandParams.t) : result (string * string) :=
  if truthy (ExpandParams.descriptor params)
     && truthy (ExpandParams.expression params)
  then Throw ExpressionDeprecated else
  match or_else (ExpandParams.descriptor params)
                (ExpandParams.expression params) with
  | Some (String _ _ as descriptor) =>
      _ <- check_index (ExpandParams.index params) ;;
      canonicalExpression <-
        evaluate descriptor
          (default false (ExpandParams.checksumRequired params))
          (ExpandParams.index params) ;;
      Ok (descriptor, canonicalExpression)
  | _ => Throw DescriptorNotProvided
  end.

(** The shells of the grammar, in dispatch order. *)
Inductive Shell : Type :=
| Addr | Pk | Pkh | ShWpkh | Wpkh | ShWsh | Sh | Wsh.

(** The shell a canonical expression is dispatched to: the first anchored
    pattern that matches. *)
Definition shell_of (canonicalExpression : string) : option Shell :=
  if matches (reAddrAnchored canonicalExpression) then Some Addr
  else if rePkAnchored canonicalExpression then Some Pk
  else if rePkhAnchored canonicalExpression then Some Pkh
  else if reShWpkhAnchored canonicalExpression then Some ShWpkh
  else if reWpkhAnchored canonicalExpression then Some Wpkh
  else if matches (reShWshMiniscriptAnchored canonicalExpression)
  then Some ShWsh
  else if matches (reShMiniscriptAnchored canonicalExpression) then Some Sh
  else if matches (reWshMiniscriptAnchored canonicalExpression) then Some Wsh
  else None.

Definition run_shell (shell : Shell) (descriptor canonicalExpression : string)
    (network : Network) (allowMiniscriptInP2SH : bool)
    (isRanged isCanonicalRanged : bool) : result Expansion :=
  match shell with
  | Addr => expand_addr descriptor canonicalExpression network isRanged
  | Pk =>
      expand_pk descriptor canonicalExpression network isRanged
        isCanonicalRanged
  | Pkh =>
      expand_pkh descriptor canonicalExpression network isRanged
        isCanonicalRanged
  | ShWpkh =>
      expand_sh_wpkh descriptor canonicalExpression network isRanged
        isCanonicalRanged
  | Wpkh =>
      expand_wpkh descriptor canonicalExpression network isRanged
        isCanonicalRanged
  | ShWsh =>
      expand_sh_wsh descriptor canonicalExpression network isRanged
        isCanonicalRanged
  | Sh =>
      expand_sh descriptor canonicalExpression network allowMiniscriptInP2SH
        isRanged isCanonicalRanged
  | Wsh =>
      expand_wsh descriptor canonicalExpression network isRanged
        isCanonicalRanged
  end.

(** The payments of the parsers that accept [arg], in trial order. *)
Definition successes (parsers : list (Payment.t -> result Payment.t))
    (arg : Payment.t) : list Payment.t :=
  flat_map (fun parse =>
              match parse arg with Ok p => [p] | Throw _ => [] end)
           parsers.

(** The payment of the last parser that succeeds. *)
Definition last_success (parsers : list (Payment.t -> result Payment.t))
    (arg : Payment.t) : option Payment.t :=
  last (map Some (successes parsers arg)) None.

(** The five parsers the [addr] branch tries, in its order. *)
Definition addr_parsers : list (Payment.t -> result Payment.t) :=
  [p2pkh; p2sh; p2wpkh; p2wsh; p2tr].

(** The number of non-push opcodes among decompiled tokens: the opcode
    tokens with value greater than [OP_16]. *)
Definition nonpush_count (tokens : list StackElement) : nat :=
  length (filter (fun t => match t with
                           | OpCode op => OP_16 <? op
                           | Data _ => false
                           end) tokens).

(** A compiled script breaks the limits of its shell: too long, not
    decompilable, or with too many non-push opcodes. *)
Definition breaks_limits (limit : nat) (script : Buffer) : Prop :=
  (limit < length script)%nat
  \/ bscript_decompile script = None
  \/ exists tokens, bscript_decompile script = Some tokens
                    /\ (201 < nonpush_count tokens)%nat.

(** A compiled script within the limits of its shell. *)
Definition within_limits (limit : nat) (script : Buffer) : Prop :=
  (length script <= limit)%nat
  /\ exists tokens, bscript_decompile script = Some tokens
                    /\ (nonpush_count tokens <= 201)%nat.

(** The miniscript a miniscript shell captures from a canonical
    expression. *)
Definition miniscript_in (shell : Shell) (canonicalExpression : string)
    : option string :=
  match shell with
  | ShWsh => group1 (reShWshMiniscriptAnchored canonicalExpression)
  | Sh => group1 (reShMiniscriptAnchored canonicalExpression)
  | Wsh => group1 (reWshMiniscriptAnchored canonicalExpression)
  | _ => None
  end.

(** The [isSegwit] flag a miniscript shell expands its miniscript with. *)
Definition shell_isSegwit (shell : Shell) : bool :=
  match shell with Sh => false | _ => true end.

(** The field of the expansion that holds the compiled script of a
    miniscript shell. *)
Definition compiled_script (shell : Shell) (r : Expansion) : option Buffer :=
  match shell with Sh => redeemScript r | _ => witnessScript r end.

(** The value of a computation that did not throw. *)
Definition value_of {A : Type} (c : result A) : option A :=
  match c with Ok a => Some a | Throw _ => None end.

(** An expansion with its [isRanged] flag replaced. *)
Definition set_isRanged (flag : bool) (r : Expansion) : Expansion :=
  {| payment := payment r;
     expandedExpression := expandedExpression r;
     miniscript := miniscript r;
     expansionMap := expansionMap r;
     isSegwit := isSegwit r;
     expandedMiniscript := expandedMiniscript r;
     redeemScript := redeemScript r;
     witnessScript := witnessScript r;
     isRanged := flag;
     canonicalExpression := canonicalExpression r |}.

(** The scriptPubKey of the payment of an expansion. *)
Definition scriptPubKey_of (r : Expansion) : option Buffer :=
  match payment r with
  | Some p => Payment.output p
  | None => None
  end.

(** The expected sequence in the words of the specification. *)
Definition spec_sequence (sequence lockTime : option Z) : Z :=
  match sequence with
  | Some s => s
  | None =>
      match lockTime with
      | Some l => if l =? 0 then 0xffffffff else 0xfffffffe
      | None => 0xffffffff
      end
  end.

End Vocabulary.

(** ** Further vocabulary *)

(** A call of [expand] on another descriptor text, the deprecated
    [expression] left out. *)
Definition on_descriptor (descriptor : string) (params : ExpandParams.t)
    : ExpandParams.t :=
  ExpandParams.make (Some descriptor) None (ExpandParams.index params)
    (ExpandParams.checksumRequired params) (ExpandParams.network params)
    (ExpandParams.allowMiniscriptInP2SH params).

(** The same call with another [checksumRequired]. *)
Definition set_checksumRequired (flag : option bool) (params : ExpandParams.t)
    : ExpandParams.t :=
  ExpandParams.make (ExpandParams.descriptor params)
    (ExpandParams.expression params) (ExpandParams.index params) flag
    (ExpandParams.network params) (ExpandParams.allowMiniscriptInP2SH params).

(** The same call with another [allowMiniscriptInP2SH]. *)
Definition set_allowMiniscriptInP2SH (flag : option bool)
    (params : ExpandParams.t) : ExpandParams.t :=
  ExpandParams.make (ExpandParams.descriptor params)
    (ExpandParams.expression params) (ExpandParams.index params)
    (ExpandParams.checksumRequired params) (ExpandParams.network params) flag.

(** The single-key shells: the text around the key, the [isSegwit] flag and
    the expanded expression. *)
Definition key_shell (shell : Shell)
    : option (string * string * bool * string) :=
  match shell with
  | Pk => Some ("pk(", ")", false, "pk(@0)")
  | Pkh => Some ("pkh(", ")", false, "pkh(@0)")
  | ShWpkh => Some ("sh(wpkh(", "))", true, "sh(wpkh(@0))")
  | Wpkh => Some ("wpkh(", ")", true, "wpkh(@0)")
  | _ => None
  end.

(** The miniscript shells: the text around the expanded miniscript. *)
Definition miniscript_shell (shell : Shell) : option (string * string) :=
  match shell with
  | ShWsh => Some ("sh(wsh(", "))")
  | Sh => Some ("sh(", ")")
  | Wsh => Some ("wsh(", ")")
  | _ => None
  end.

(** [isSegwit] by shell: unknown for an address. *)
Definition isSegwit_of (shell : Shell) : option bool :=
  match shell with
  | Addr => None
  | Pk | Pkh | Sh => Some false
  | ShWpkh | Wpkh | ShWsh | Wsh => Some true
  end.

(** Whether a shell sets [redeemScript], and whether it sets
    [witnessScript], once the expression is not ranged. *)
Definition sets_redeemScript (shell : Shell) : bool :=
  match shell with ShWpkh | ShWsh | Sh => true | _ => false end.

Definition sets_witnessScript (shell : Shell) : bool :=
  match shell with ShWsh | Wsh => true | _ => false end.

(** A decompiled token that is no non-push opcode: pushed data, or an opcode
    up to [OP_16]. *)
Definition is_push (token : StackElement) : bool :=
  match token with
  | OpCode op => op <=? OP_16
  | Data _ => true
  end.

(** The call of [expand] the constructor of [Output] makes for a
    descriptor. *)
Definition expansion_request (descriptor : string) (options : OutputParams.t)
    : ExpandParams.t :=
  ExpandParams.make (Some descriptor) None (OutputParams.index options)
    (Some (default false (OutputParams.checksumRequired options)))
    (Some (default networks_bitcoin (OutputParams.network options)))
    (Some (default false (OutputParams.allowMiniscriptInP2SH options))).

(** ** Example descriptors

    Data for the examples at the end: descriptors of the specification's
    scenarios, and a PSBT that spends an output. *)
Module Examples.

(** The compressed public key of the scenarios. *)
Definition pubkey_hex : string :=
  "02c6047f9441ed7d6d3045406e95c07cd85c778e4b8cef3ca7abac09b95c709ee5".

(** The master public key of the first BIP32 test vector. *)
Definition xpub : string :=
  "xpub661MyMwAqRbcFtXgS5sYJABqqG9YLmC4Q1Rdap9gSE8NqtwybGhePY2gZ29ESFjqJoCu1"
  ++ "Rupje8YtGqsefD265TMg7usUDFdp6W1EGMcet8".

(** A call of [expand] on the default network. *)
Definition request (descriptor : string) (index : option Number)
    (checksumRequired : option bool) : ExpandParams.t :=
  ExpandParams.make (Some descriptor) None index checksumRequired None None.

Definition pkh_body : string := "pkh(" ++ pubkey_hex ++ ")".
Definition pkh_checksummed : string := pkh_body ++ "#8fhd9pwu".

Definition ranged_body : string := "wpkh(" ++ xpub ++ "/0/*)".
Definition ranged_checksummed : string := ranged_body ++ "#wvk84d79".
Definition ranged_at_7 : string := "wpkh(" ++ xpub ++ "/0/7)".

Definition address : string := "bc1qw508d6qejxtdg4y5r3zarvary0c5xw7kv8f3t4".
Definition addr_descriptor : string := "addr(" ++ address ++ ")".

(** A key under a relative timelock of 144 blocks. *)
Definition vault_miniscript : string :=
  "and_v(v:pk(" ++ pubkey_hex ++ "),older(144))".
Definition vault_descriptor : string := "wsh(" ++ vault_miniscript ++ ")".

(** A single-key miniscript whose key text alone is longer than the script
    cap of p2wsh. *)
Definition oversized_key : string :=
  string_of_list_ascii (repeat "a"%char 3601).
Definition oversized_descriptor : string :=
  "wsh(pk(" ++ oversized_key ++ "))".

(** Constructor options with nothing but a descriptor. *)
Definition options (descriptor : JsValue) : OutputParams.t :=
  OutputParams.make descriptor None None None None None None.

(** A PSBT with one input that spends the given scriptPubKey through a
    witness UTXO, signed once. *)
Definition psbt_spending (scriptPubKey : Buffer)
    (witnessScript : option Buffer) (sequence : Z) (locktime : Z) : Psbt :=
  {| data_inputs :=
       [{| partialSig :=
             Some [{| sig_pubkey := list_byte_of_string pubkey_hex;
                      signature := repeat x30 71 |}];
           witnessUtxo :=
             Some {| wu_script := scriptPubKey; wu_value := 100000 |};
           nonWitnessUtxo := None;
           in_witnessScript := witnessScript;
           in_redeemScript := None |}];
     txInputs :=
       [{| tx_hash := repeat x00 32;
           tx_index := 0;
           tx_sequence := Some sequence |}];
     locktime_of := locktime |}.

(** The key of the scenarios in nested segwit, and the timelocked key
    directly under [sh]. *)
Definition nested_descriptor : string := "sh(wpkh(" ++ pubkey_hex ++ "))".
Definition sh_vault_descriptor : string := "sh(" ++ vault_miniscript ++ ")".


(** Constructor options with a descriptor and an index. *)
Definition options_at (descriptor : string) (index : Z) : OutputParams.t :=
  OutputParams.make (JsString descriptor) (Some (Int index))
    None None None None None.

End Examples.

(** ** Proof automation *)

Ltac break_ok H :=
  repeat first
    [ discriminate H
    | match type of H with
      | bind ?c _ = Ok _ =>
          let E := fresh "E" in destruct c eqn:E; cbn [bind] in H
      | (if ?b then _ else _) = Ok _ =>
          let E := fresh "E" in destruct b eqn:E
      | match ?x with _ => _ end = Ok _ =>
          let E := fresh "E" in destruct x eqn:E
      end ].

Ltac break_all :=
  repeat match goal with
         | H : Throw _ = Ok _ |- _ => discriminate H
         | H : Ok _ = Ok _ |- _ => injection H as H; try subst
         | H : (_, _) = (_, _) |- _ => injection H as H; try subst
         | H : bind ?c _ = Ok _ |- _ =>
             let E := fresh "E" in destruct c eqn:E; cbn [bind] in H
         | H : (if ?b then _ else _) = Ok _ |- _ =>
             let E := fresh "E" in destruct b eqn:E
         | H : match ?x with _ => _ end = Ok _ |- _ =>
             let E := fresh "E" in destruct x eqn:E
         | H : negb ?b = _ |- _ =>
             destruct b; cbn [negb] in H; try discriminate H; clear H
         end.

(** Evaluate a run of the model recorded in [E] and use its outcome. *)
Ltac known E :=
  vm_compute in E; first [discriminate E | injection E as E; subst].

(** [t] under [n] successors. *)
Ltac succs n t :=
  lazymatch n with
  | O => t
  | S ?m => succs m constr:(N.succ t)
  end.

(** * Properties *)

(** ** Strings *)

Lemma indexOf_lower (c : ascii) (s : string) : -1 <= indexOf c s.
Proof.
  induction s as [|a t IH]; simpl; [lia|].
  destruct (Ascii.eqb a c); [lia|].
  destruct (indexOf c t =? -1) eqn:E; lia.
Qed.

Lemma has_wildcard_cons (a : ascii) (t : string) :
  has_wildcard (String a t) = Ascii.eqb a "*" || has_wildcard t.
Proof.
  unfold has_wildcard; simpl.
  destruct (Ascii.eqb a "*"); [reflexivity|]; simpl.
  pose proof (indexOf_lower "*" t).
  destruct (indexOf "*" t =? -1) eqn:E; simpl; [reflexivity|].
  apply Z.eqb_neq in E.
  destruct (indexOf "*" t + 1 =? -1) eqn:E'; [apply Z.eqb_eq in E'; lia|].
  reflexivity.
Qed.

Lemma has_wildcard_app (s t : string) :
  has_wildcard (s ++ t) = has_wildcard s || has_wildcard t.
Proof.
  induction s as [|a s IH]; [reflexivity|].
  change (String a s ++ t) with (String a (s ++ t)).
  rewrite !has_wildcard_cons, IH, orb_assoc. reflexivity.
Qed.

Lemma has_wildcard_substring_to (n : nat) (s : string) :
  has_wildcard s = false -> has_wildcard (substring_to n s) = false.
Proof.
  revert s; induction n as [|n IH]; intros [|a t]; try reflexivity.
  simpl substring_to. rewrite !has_wildcard_cons.
  intros H; apply orb_false_iff in H as [Ha Ht].
  rewrite Ha, (IH _ Ht). reflexivity.
Qed.

Lemma has_wildcard_replaceAll (by_ s : string) :
  has_wildcard by_ = false -> has_wildcard (replaceAll "*" by_ s) = false.
Proof.
  intros Hby; induction s as [|a t IH]; [reflexivity|]; simpl.
  destruct (Ascii.eqb a "*") eqn:E.
  - rewrite has_wildcard_app, Hby, IH. reflexivity.
  - rewrite has_wildcard_cons, E, IH. reflexivity.
Qed.

Lemma replaceAll_without (by_ s : string) :
  has_wildcard s = false -> replaceAll "*" by_ s = s.
Proof.
  induction s as [|a t IH]; [reflexivity|].
  rewrite has_wildcard_cons; intros H.
  apply orb_false_iff in H as [Ha Ht]; simpl.
  rewrite Ha, (IH Ht). reflexivity.
Qed.

Lemma replaceAll_nonempty (by_ s : string) :
  has_wildcard s = true -> by_ <> EmptyString ->
  replaceAll "*" by_ s <> EmptyString.
Proof.
  destruct s as [|a t]; [discriminate|]; intros _ Hby; simpl.
  destruct (Ascii.eqb a "*"); [|discriminate].
  destruct by_; [contradiction|discriminate].
Qed.

Lemma occurrences_wildcard (s : string) :
  occurrences "*" s = [] <-> has_wildcard s = false.
Proof.
  induction s as [|a t IH]; [split; reflexivity|].
  rewrite has_wildcard_cons; simpl.
  destruct (Ascii.eqb a "*"); simpl; [split; discriminate|exact IH].
Qed.

Lemma match_global_wildcard (s : string) :
  match match_global "*" s with
  | Some l => has_wildcard s = true /\ (0 <? length l)%nat = true
  | None => has_wildcard s = false
  end.
Proof.
  unfold match_global.
  destruct (occurrences "*" s) as [|x l] eqn:E.
  - apply occurrences_wildcard; exact E.
  - split; [|reflexivity].
    destruct (has_wildcard s) eqn:H; [reflexivity|].
    apply occurrences_wildcard in H; congruence.
Qed.

Lemma has_wildcard_uint (d : uint) :
  has_wildcard (NilEmpty.string_of_uint d) = false.
Proof.
  induction d; simpl NilEmpty.string_of_uint;
    try reflexivity; rewrite has_wildcard_cons; exact IHd.
Qed.

Lemma has_wildcard_digits (x : Z) : has_wildcard (Number_digits x) = false.
Proof.
  unfold Number_digits, NilZero.string_of_int, NilZero.string_of_uint.
  destruct (Z.to_int x) as [d|d]; destruct d;
    try reflexivity; try rewrite has_wildcard_cons;
    try (simpl NilEmpty.string_of_uint; rewrite ?has_wildcard_cons;
         simpl; apply has_wildcard_uint).
Qed.

Lemma digits_nonempty (x : Z) : Number_digits x <> EmptyString.
Proof.
  unfold Number_digits, NilZero.string_of_int, NilZero.string_of_uint.
  destruct (Z.to_int x) as [d|d]; destruct d; discriminate.
Qed.

Lemma has_wildcard_exponential (x : Z) : has_wildcard (exponential x) = false.
Proof.
  unfold exponential.
  destruct (_ <=? 21)%nat; [apply has_wildcard_digits|].
  rewrite !has_wildcard_app, has_wildcard_digits, orb_false_r.
  pose proof (has_wildcard_digits
                (strip_zeros (String.length (Number_digits x)) x)) as H.
  destruct (Number_digits _) as [|d [|c rest]]; try exact H.
  rewrite has_wildcard_cons in H. apply orb_false_iff in H as [Hd Hrest].
  rewrite has_wildcard_cons, Hd, has_wildcard_app, Hrest. reflexivity.
Qed.

Lemma exponential_nonempty (x : Z) : exponential x <> EmptyString.
Proof.
  unfold exponential. destruct (_ <=? 21)%nat; [apply digits_nonempty|].
  pose proof (digits_nonempty
                (strip_zeros (String.length (Number_digits x)) x)) as H.
  destruct (Number_digits _) as [|d [|c rest]];
    [contradiction|discriminate..].
Qed.

(** Whatever the integer, [toString] prints no [*] and prints something. *)
Lemma has_wildcard_toString (z : Z) :
  has_wildcard (Number_toString (Int z)) = false.
Proof.
  unfold Number_toString.
  destruct (Z.abs z <=? MAX_SAFE_INTEGER); [apply has_wildcard_digits|].
  rewrite has_wildcard_app, has_wildcard_exponential.
  destruct (z <? 0); reflexivity.
Qed.

Lemma toString_nonempty (z : Z) : Number_toString (Int z) <> EmptyString.
Proof.
  unfold Number_toString.
  destruct (Z.abs z <=? MAX_SAFE_INTEGER); [apply digits_nonempty|].
  pose proof (exponential_nonempty
                (shortest_from (to_double (Z.abs z)) 1 17)) as H.
  destruct (z <? 0); [discriminate|exact H].
Qed.

(** *** The decimal representation *)

Lemma append_assoc (a b c : string) : (a ++ b) ++ c = a ++ (b ++ c).
Proof. induction a as [|x a IH]; cbn [append]; [|rewrite IH]; reflexivity. Qed.

Lemma append_empty (a : string) : a ++ EmptyString = a.
Proof. induction a as [|x a IH]; cbn [append]; [|rewrite IH]; reflexivity. Qed.

Lemma string_of_revapp (d acc : uint) :
  NilEmpty.string_of_uint (revapp d acc)
  = NilEmpty.string_of_uint (revapp d Nil) ++ NilEmpty.string_of_uint acc.
Proof.
  revert acc. induction d; intros acc; cbn [revapp];
    try reflexivity;
    rewrite IHd; symmetry; rewrite IHd;
    rewrite append_assoc; reflexivity.
Qed.

(** The digits of [10 q + r] are those of [q], then the digit [r]. *)
Lemma to_uint_step (q r : N) :
  (0 < q)%N -> (r < 10)%N ->
  NilEmpty.string_of_uint (N.to_uint (10 * q + r))
  = NilEmpty.string_of_uint (N.to_uint q)
    ++ String (ascii_of_N (48 + r)) EmptyString.
Proof.
  intros Hq Hr. destruct q as [|p]; [lia|].
  assert (Hlu : forall n, n <> 0%N ->
                  N.to_uint n = rev (DecimalPos.Unsigned.to_lu n)).
  { intros [|p'] Hn; [contradiction|reflexivity]. }
  rewrite (Hlu (10 * N.pos p + r)%N) by lia.
  rewrite (Hlu (N.pos p)) by lia.
  pose proof (DecimalPos.Unsigned.to_ldec_tenfold p) as H0.
  assert (Hcases : (r = 0 \/ r = 1 \/ r = 2 \/ r = 3 \/ r = 4 \/ r = 5
                    \/ r = 6 \/ r = 7 \/ r = 8 \/ r = 9)%N) by lia.
  unfold rev.
  repeat (destruct Hcases as [-> | Hcases]); [..|subst r];
    match goal with
    | |- context [(10 * N.pos p + ?k)%N] =>
        let n := eval vm_compute in (N.to_nat k) in
        let t := succs n constr:((10 * N.pos p)%N) in
        replace (10 * N.pos p + k)%N with t by lia
    end;
    rewrite ?DecimalPos.Unsigned.to_lu_succ, H0;
    cbn [Little.succ revapp];
    rewrite string_of_revapp; reflexivity.
Qed.

Lemma digit_small (z : Z) :
  0 <= z < 10 ->
  NilEmpty.string_of_uint (N.to_uint (Z.to_N z))
  = String (digit_char z) EmptyString.
Proof.
  intros H.
  assert (Hc : z = 0 \/ z = 1 \/ z = 2 \/ z = 3 \/ z = 4 \/ z = 5 \/ z = 6
               \/ z = 7 \/ z = 8 \/ z = 9) by lia.
  repeat (destruct Hc as [-> | Hc]); [..|subst z]; reflexivity.
Qed.

Lemma decimal_from_spec (fuel : nat) (z : Z) (tail : string) :
  0 <= z < 2 ^ (Z.of_nat fuel + 1) ->
  decimal_from fuel z tail
  = NilEmpty.string_of_uint (N.to_uint (Z.to_N z)) ++ tail.
Proof.
  revert z tail. induction fuel as [|fuel IH]; intros z tail Hz.
  - cbn [decimal_from]. rewrite Z.mod_small by (cbn in Hz; lia).
    rewrite digit_small by (cbn in Hz; lia). reflexivity.
  - cbn [decimal_from].
    destruct (z / 10 =? 0) eqn:E.
    + apply Z.eqb_eq in E.
      assert (z < 10) by (apply Z.div_small_iff in E; lia).
      rewrite Z.mod_small by lia. rewrite digit_small by lia. reflexivity.
    + apply Z.eqb_neq in E.
      assert (Hq : 0 < z / 10) by (pose proof (Z.div_pos z 10); lia).
      assert (Hr : 0 <= z mod 10 < 10) by (apply Z.mod_pos_bound; lia).
      rewrite IH.
      2: { split; [lia|].
           replace (Z.of_nat (S fuel) + 1) with (Z.succ (Z.of_nat fuel + 1))
             in Hz by lia.
           rewrite Z.pow_succ_r in Hz by lia.
           apply Z.div_lt_upper_bound; lia. }
      replace (Z.to_N z) with (10 * Z.to_N (z / 10) + Z.to_N (z mod 10))%N.
      2: { pose proof (Z.div_mod z 10). lia. }
      rewrite to_uint_step by lia.
      rewrite append_assoc. cbn [append]. f_equal. f_equal.
      unfold digit_char.
      assert (Hc : z mod 10 = 0 \/ z mod 10 = 1 \/ z mod 10 = 2
                   \/ z mod 10 = 3 \/ z mod 10 = 4 \/ z mod 10 = 5
                   \/ z mod 10 = 6 \/ z mod 10 = 7 \/ z mod 10 = 8
                   \/ z mod 10 = 9) by lia.
      repeat (destruct Hc as [-> | Hc]); [..|rewrite Hc]; reflexivity.
Qed.

(** The decimal representation, digit by digit, is what the digits of a
    non-negative integer are printed as. *)
Lemma decimal_digits (z : Z) : 0 <= z -> decimal z = Number_digits z.
Proof.
  intros Hz. unfold decimal.
  rewrite decimal_from_spec.
  2: { split; [exact Hz|].
       destruct (Z.eq_dec z 0) as [->|Hn]; [reflexivity|].
       rewrite Z2Nat.id by apply Z.log2_nonneg.
       apply Z.log2_spec. lia. }
  unfold Number_digits, NilZero.string_of_int.
  destruct z as [|p|p]; [reflexivity| |lia].
  cbn [Z.to_int Z.to_N N.to_uint]. unfold NilZero.string_of_uint.
  rewrite append_empty.
  pose proof (DecimalPos.Unsigned.to_uint_nonnil p) as Hn.
  destruct (Pos.to_uint p); [contradiction|reflexivity..].
Qed.

(** [toString] prints a safe index in its decimal representation. *)
Lemma toString_safe (z : Z) :
  0 <= z <= MAX_SAFE_INTEGER -> Number_toString (Int z) = decimal z.
Proof.
  intros [Hz Hmax]. unfold Number_toString.
  rewrite Z.abs_eq by exact Hz.
  destruct (Z.leb_spec z MAX_SAFE_INTEGER) as [_|H]; [|lia].
  symmetry. apply decimal_digits. exact Hz.
Qed.

(** The decimal representation reads back as the integer. *)
Lemma decimal_reads_back (z : Z) :
  0 <= z ->
  option_map Z.of_int (NilZero.int_of_string (decimal z)) = Some z.
Proof.
  intros Hz. rewrite decimal_digits by exact Hz. unfold Number_digits.
  rewrite NilZero.isi.
  - simpl. f_equal. apply DecimalZ.of_to.
  - destruct z; simpl; try discriminate.
    intros [= H]. exact (DecimalPos.Unsigned.to_uint_nonnil _ H).
  - destruct z; simpl; try discriminate.
    intros [= H]. exact (DecimalPos.Unsigned.to_uint_nonnil _ H).
Qed.

Lemma decimal_from_nonempty (fuel : nat) (z : Z) (tail : string) :
  decimal_from fuel z tail <> EmptyString.
Proof.
  revert z tail. induction fuel as [|fuel IH]; intros z tail;
    cbn [decimal_from]; [discriminate|].
  destruct (z / 10 =? 0); [discriminate|apply IH].
Qed.

Lemma decimal_nonempty (z : Z) : decimal z <> EmptyString.
Proof. apply decimal_from_nonempty. Qed.

Lemma substring_to_app (p m : string) :
  substring_to (String.length p) (p ++ m) = p.
Proof. induction p as [|a p IH]; simpl; [destruct m|rewrite IH]; reflexivity. Qed.

Lemma length_app (p m : string) :
  String.length (p ++ m) = (String.length p + String.length m)%nat.
Proof. induction p as [|a p IH]; simpl; [|rewrite IH]; reflexivity. Qed.


Lemma Buffer_compare_eq (a b : Buffer) : Buffer_compare a b = 0 <-> a = b.
Proof.
  revert b; induction a as [|x a IH]; intros [|y b]; simpl;
    try (split; [discriminate|discriminate]); [split; reflexivity|].
  destruct (N.compare_spec (Byte.to_N x) (Byte.to_N y)) as [E|E|E].
  - assert (x = y) as <-.
    { pose proof (Byte.of_to_N x) as Hx. rewrite E, Byte.of_to_N in Hx.
      congruence. }
    rewrite IH.
    split; [intros ->; reflexivity|intros [= ->]; reflexivity].
  - split; [discriminate|intros [= -> _]; lia].
  - split; [discriminate|intros [= -> _]; lia].
Qed.

Section Properties.
Context {ext : Externals}.

(** ** [evaluate] *)


Lemma particularize_match (d body : string) (index : option Number) :
  match index with
  | Some i =>
      match match_global "*" body with
      | Some mWildcard =>
          if (0 <? length mWildcard)%nat
          then Ok (replaceAll "*" (Number_toString i) body)
          else Throw (IndexForNonRanged d)
      | None => Throw (IndexForNonRanged d)
      end
  | None => Ok body
  end = particularize d body index.
Proof.
  unfold particularize; destruct index as [i|]; [|reflexivity].
  pose proof (match_global_wildcard body) as H.
  destruct (match_global "*" body) as [l|].
  - destruct H as [-> ->]. reflexivity.
  - rewrite H. reflexivity.
Qed.

(** [evaluate] as one equation over the vocabulary. *)
Lemma evaluate_unfold (d : string) (cr : bool) (index : option Number) :
  evaluate d cr index =
  match d with
  | EmptyString => Throw MustProvideDescriptor
  | _ =>
      match trailing_checksum d with
      | None =>
          if cr then Throw (HasNotChecksum d) else particularize d d index
      | Some _ =>
          if checksum_accepted d cr
          then particularize d (body_of d) index
          else Throw (InvalidChecksum d)
      end
  end.
Proof.
  unfold evaluate, checksum_accepted, body_of, trailing_checksum.
  destruct d as [|a t]; [reflexivity|].
  cbn [truthy negb].
  destruct (match_at_end reChecksum (String a t)) as [m|] eqn:E.
  - destruct (String.eqb (substring_from 1 m) _) eqn:Ec;
      destruct cr; cbn [negb bind]; try reflexivity;
      apply particularize_match.
  - destruct cr; [reflexivity|]. cbn [bind]. apply particularize_match.
Qed.

Lemma particularize_Ok (d body c : string) (index : option Number) :
  particularize d body index = Ok c ->
  match index with
  | Some i =>
      has_wildcard body = true /\ c = replaceAll "*" (Number_toString i) body
  | None => c = body
  end.
Proof.
  unfold particularize; destruct index as [i|].
  - destruct (has_wildcard body); [|discriminate].
    intros [= <-]; split; reflexivity.
  - intros [= <-]; reflexivity.
Qed.

(** A successful [evaluate] passed the checksum rule and returns the body,
    particularized. *)
Lemma evaluate_Ok (d c : string) (cr : bool) (index : option Number) :
  evaluate d cr index = Ok c ->
  d <> EmptyString
  /\ checksum_accepted d cr = true
  /\ particularize d (body_of d) index = Ok c.
Proof.
  rewrite evaluate_unfold. unfold checksum_accepted, body_of.
  destruct d as [|a t]; [discriminate|].
  destruct (trailing_checksum (String a t)) as [m|].
  - destruct (String.eqb _ _); [|discriminate].
    intros H; repeat split; [discriminate|exact H].
  - destruct cr; [discriminate|].
    intros H; repeat split; [discriminate|exact H].
Qed.

Lemma evaluate_accepted (d : string) (cr : bool) (index : option Number) :
  d <> EmptyString -> checksum_accepted d cr = true ->
  evaluate d cr index = particularize d (body_of d) index.
Proof.
  intros Hd Hc. rewrite evaluate_unfold.
  unfold checksum_accepted, body_of in *.
  destruct d as [|a t]; [contradiction|].
  destruct (trailing_checksum (String a t)) as [m|].
  - rewrite Hc. reflexivity.
  - destruct cr; [discriminate|reflexivity].
Qed.

Lemma evaluate_rejected (d : string) (cr : bool) (index : option Number) :
  checksum_accepted d cr = false -> fails (evaluate d cr index).
Proof.
  intros Hc. rewrite evaluate_unfold. unfold checksum_accepted in Hc.
  destruct d as [|a t]; [eexists; reflexivity|].
  destruct (trailing_checksum (String a t)) as [m|] eqn:E.
  - unfold checksum_accepted; rewrite E, Hc. eexists; reflexivity.
  - destruct cr; [eexists; reflexivity|discriminate].
Qed.

Lemma has_wildcard_body (d : string) :
  has_wildcard d = false -> has_wildcard (body_of d) = false.
Proof.
  unfold body_of; destruct (trailing_checksum d); [|auto].
  apply has_wildcard_substring_to.
Qed.

(** ** [expand]: prelude and dispatch *)

Lemma dispatch_shell (d c : string) (net : Network) (allow ir icr : bool) :
  dispatch d c net allow ir icr =
  match shell_of c with
  | Some shell => run_shell shell d c net allow ir icr
  | None => Throw (CouldNotParse d)
  end.
Proof.
  unfold dispatch, shell_of.
  repeat match goal with
         | |- context [if ?b then _ else _] => destruct b
         end; reflexivity.
Qed.

Lemma expand_prelude (params : ExpandParams.t) :
  expand params =
  ' (d, c) <- prelude params ;;
  dispatch d c
    (default networks_bitcoin (ExpandParams.network params))
    (default false (ExpandParams.allowMiniscriptInP2SH params))
    (has_wildcard d) (has_wildcard c).
Proof.
  unfold expand, prelude.
  destruct (truthy _ && truthy _); [reflexivity|].
  destruct (or_else _ _) as [[|a t]|]; try reflexivity.
  destruct (check_index _); [|reflexivity]. cbn [bind].
  destruct (evaluate _ _ _); reflexivity.
Qed.

(** The descriptor of the prelude is the given one, and the canonical
    expression is what [evaluate] returns for it. *)
Lemma prelude_Ok (params : ExpandParams.t) (d c : string) :
  prelude params = Ok (d, c) ->
  d = given_descriptor params
  /\ check_index (ExpandParams.index params) = Ok tt
  /\ evaluate d (default false (ExpandParams.checksumRequired params))
       (ExpandParams.index params) = Ok c.
Proof.
  unfold prelude, given_descriptor; intros H.
  destruct (truthy _ && truthy _); [discriminate|].
  destruct (or_else _ _) as [[|a t]|]; try discriminate.
  destruct (check_index _) as [[]|]; [|discriminate]. cbn [bind] in H.
  destruct (evaluate _ _ _) as [c'|] eqn:Ev; [|discriminate].
  cbn [bind] in H. injection H as <- <-. cbn [default].
  repeat split. exact Ev.
Qed.


Lemma expand_Ok (params : ExpandParams.t) (r : Expansion) :
  expand params = Ok r ->
  exists d c shell,
    prelude params = Ok (d, c)
    /\ shell_of c = Some shell
    /\ run_shell shell d c
         (default networks_bitcoin (ExpandParams.network params))
         (default false (ExpandParams.allowMiniscriptInP2SH params))
         (has_wildcard d) (has_wildcard c) = Ok r.
Proof.
  rewrite expand_prelude. destruct (prelude params) as [[d c]|]; [|discriminate].
  cbn [bind]. rewrite dispatch_shell.
  destruct (shell_of c) as [shell|] eqn:Es; [|discriminate].
  intros H; exists d, c, shell.
  split; [reflexivity|split; [exact Es|exact H]].
Qed.

Lemma fails_not_Ok {A : Type} (c : result A) :
  (forall a, c <> Ok a) -> fails c.
Proof.
  destruct c as [a|e]; intros H; [destruct (H a eq_refl)|eexists; reflexivity].
Qed.

(** Every shell hands back the canonical expression and the [isRanged]
    flag it was given. *)
Lemma run_shell_frame (shell : Shell) (d c : string) (net : Network)
    (allow ir icr : bool) (r : Expansion) :
  run_shell shell d c net allow ir icr = Ok r ->
  canonicalExpression r = c /\ isRanged r = ir.
Proof.
  destruct shell; unfold run_shell, expand_addr, expand_pk, expand_pkh,
    expand_sh_wpkh, expand_wpkh, expand_sh_wsh, expand_sh, expand_wsh;
    intros H; break_ok H; injection H as <-; split; reflexivity.
Qed.

Lemma expand_canonical (params : ExpandParams.t) (r : Expansion) :
  expand params = Ok r ->
  prelude params = Ok (given_descriptor params, canonicalExpression r).
Proof.
  intros H. apply expand_Ok in H as (d & c & shell & Hp & _ & Hr).
  apply run_shell_frame in Hr as [-> _].
  destruct (prelude_Ok _ _ _ Hp) as (<- & _). exact Hp.
Qed.


(** ** Checksum handling *)


(** ** Payment and scripts against the wildcard *)

Lemma evaluate_wildcard_free (d c : string) (cr : bool)
    (index : option Number) :
  evaluate d cr index = Ok c ->
  has_wildcard d = false -> has_wildcard c = false.
Proof.
  intros Hev Hd. apply evaluate_Ok in Hev as (_ & _ & Hpart).
  apply has_wildcard_body in Hd. apply particularize_Ok in Hpart.
  destruct index as [i|]; [destruct Hpart; congruence|congruence].
Qed.

(** What each shell sets: the [addr] shell always a payment and never a
    script; every other shell a payment exactly when the canonical
    expression is not ranged, and no script when it is. *)
Lemma run_shell_payment (shell : Shell) (d c : string) (net : Network)
    (allow ir icr : bool) (r : Expansion) :
  run_shell shell d c net allow ir icr = Ok r ->
  match shell with
  | Addr =>
      ir = false /\ matches (payment r) = true
      /\ redeemScript r = None /\ witnessScript r = None
  | _ =>
      matches (payment r) = negb icr
      /\ (icr = true -> redeemScript r = None /\ witnessScript r = None)
  end.
Proof.
  destruct shell; unfold run_shell, expand_addr, expand_pk, expand_pkh,
    expand_sh_wpkh, expand_wpkh, expand_sh_wsh, expand_sh, expand_wsh;
    intros H; break_all;
    cbn [payment redeemScript witnessScript matches negb];
    repeat split; try reflexivity; try discriminate; try congruence.
Qed.

(** C2.  For every successful call of [expand], the result has a payment
    if and only if its canonical expression contains no [*]; and when the
    canonical expression contains [*], the result has no payment, no
    redeemScript and no witnessScript. *)
Theorem expand_payment_iff_not_ranged (params : ExpandParams.t)
    (r : Expansion) :
  expand params = Ok r ->
  (payment r <> None <-> has_wildcard (canonicalExpression r) = false)
  /\ (has_wildcard (canonicalExpression r) = true ->
      payment r = None /\ redeemScript r = None /\ witnessScript r = None).
Proof.
  intros H. apply expand_Ok in H as (d & c & shell & Hp & _ & Hr).
  destruct (run_shell_frame _ _ _ _ _ _ _ _ Hr) as [Hc _].
  apply prelude_Ok in Hp as (_ & _ & Hev).
  pose proof (evaluate_wildcard_free _ _ _ _ Hev) as Hfree.
  apply run_shell_payment in Hr. rewrite Hc.
  assert (Hcases :
    matches (payment r) = negb (has_wildcard c)
    /\ (has_wildcard c = true ->
        redeemScript r = None /\ witnessScript r = None)).
  { destruct shell; try exact Hr.
    destruct Hr as (Hir & Hpay & Hrs & Hws).
    rewrite (Hfree Hir), Hpay. repeat split; assumption. }
  destruct Hcases as [Hpay Hscripts].
  destruct (payment r) as [pay|], (has_wildcard c);
    cbn in Hpay; try discriminate; repeat split;
    try congruence; try (apply Hscripts; reflexivity);
    intros; try discriminate; congruence.
Qed.

(** ** The index argument *)

Lemma check_index_Ok (i : Number) :
  check_index (Some i) = Ok tt <-> exists z, i = Int z /\ 0 <= z.
Proof.
  unfold check_index. destruct i as [z|shown]; cbn.
  - destruct (z <? 0) eqn:E; split.
    + discriminate.
    + intros (z' & [= <-] & Hz). apply Z.ltb_lt in E. lia.
    + intros _. exists z. apply Z.ltb_ge in E. split; [reflexivity|lia].
    + reflexivity.
  - split; [discriminate|]. intros (z & [=] & _).
Qed.

Lemma expand_fails_in_prelude (params : ExpandParams.t) :
  fails (prelude params) -> fails (expand params).
Proof.
  intros [e He]. exists e. rewrite expand_prelude, He. reflexivity.
Qed.

Lemma prelude_accepted (params : ExpandParams.t) :
  let d := given_descriptor params in
  truthy (ExpandParams.descriptor params)
    && truthy (ExpandParams.expression params) = false ->
  d <> EmptyString ->
  check_index (ExpandParams.index params) = Ok tt ->
  checksum_accepted d (default false (ExpandParams.checksumRequired params))
    = true ->
  prelude params =
  c <- particularize d (body_of d) (ExpandParams.index params) ;; Ok (d, c).
Proof.
  cbv zeta. unfold prelude, given_descriptor. intros -> Hd Hidx Hacc.
  destruct (or_else _ _) as [[|a t]|]; cbn [default] in *;
    try contradiction.
  rewrite Hidx. cbn [bind].
  rewrite evaluate_accepted by (discriminate || exact Hacc). reflexivity.
Qed.

Lemma prelude_index (params : ExpandParams.t) (i : Number) (d c : string) :
  ExpandParams.index params = Some i ->
  prelude params = Ok (d, c) ->
  exists z, i = Int z /\ 0 <= z
            /\ has_wildcard (body_of (given_descriptor params)) = true
            /\ c = replaceAll "*" (Number_toString (Int z))
                     (body_of (given_descriptor params)).
Proof.
  intros Hi Hp. apply prelude_Ok in Hp as (-> & Hidx & Hev).
  rewrite Hi in Hidx, Hev.
  apply check_index_Ok in Hidx as (z & -> & Hz).
  apply evaluate_Ok in Hev as (_ & _ & Hpart).
  apply particularize_Ok in Hpart as [Hw ->].
  exists z. repeat split; assumption.
Qed.

Lemma expand_Ok_index (params : ExpandParams.t) (i : Number)
    (r : Expansion) :
  ExpandParams.index params = Some i ->
  expand params = Ok r ->
  exists z, i = Int z /\ 0 <= z
            /\ has_wildcard (body_of (given_descriptor params)) = true
            /\ canonicalExpression r
               = replaceAll "*" (Number_toString (Int z))
                   (body_of (given_descriptor params))
            /\ has_wildcard (canonicalExpression r) = false.
Proof.
  intros Hi Hr. apply expand_canonical in Hr.
  apply (prelude_index _ _ _ _ Hi) in Hr as (z & -> & Hz & Hw & Hc).
  exists z. repeat split; try assumption.
  rewrite Hc. apply has_wildcard_replaceAll, has_wildcard_toString.
Qed.

(** C3, amended.  For every call of [expand] with an index [i], [d] being
    the descriptor it is given: a non-integer or negative [i] makes [expand]
    fail; so does a body (the descriptor without its checksum) that contains
    no [*]; otherwise, for a safe integer [i] (at most 2^53 - 1), once the
    arguments and the checksum are accepted, the canonical expression handed
    to the dispatch is the body with every [*] replaced by the decimal
    representation of [i]; and whenever [expand] succeeds, [i] is an integer
    [z >= 0], the canonical expression of the result is the body with every
    [*] replaced by what [toString] prints for [i], which is the decimal
    representation of [z] when [z] is a safe integer, and it contains no
    [*]. *)
Theorem expand_index (params : ExpandParams.t) (i : Number) :
  ExpandParams.index params = Some i ->
  let d := given_descriptor params in
  ((Number_isInteger i = false \/ exists z, i = Int z /\ z < 0) ->
   fails (expand params))
  /\ (has_wildcard (body_of d) = false -> fails (expand params))
  /\ (forall z, i = Int z -> 0 <= z <= MAX_SAFE_INTEGER ->
       has_wildcard (body_of d) = true ->
       truthy (ExpandParams.descriptor params)
         && truthy (ExpandParams.expression params) = false ->
       d <> EmptyString ->
       checksum_accepted d
         (default false (ExpandParams.checksumRequired params)) = true ->
       prelude params = Ok (d, substitute z (body_of d)))
  /\ (forall r, expand params = Ok r ->
       exists z, i = Int z /\ 0 <= z
                 /\ has_wildcard (body_of d) = true
                 /\ canonicalExpression r
                    = replaceAll "*" (Number_toString i) (body_of d)
                 /\ (z <= MAX_SAFE_INTEGER ->
                     canonicalExpression r = substitute z (body_of d))
                 /\ has_wildcard (canonicalExpression r) = false).
Proof.
  intros Hi. cbv zeta. split; [|split; [|split]].
  - intros Hbad. apply expand_fails_in_prelude, fails_not_Ok.
    intros [d c] Hp.
    apply (prelude_index _ _ _ _ Hi) in Hp as (z & -> & Hz & _).
    destruct Hbad as [Hb|(z' & [= <-] & Hneg)]; [discriminate|lia].
  - intros Hbody. apply expand_fails_in_prelude, fails_not_Ok.
    intros [d c] Hp.
    apply (prelude_index _ _ _ _ Hi) in Hp as (z & _ & _ & Hw & _).
    congruence.
  - intros z -> Hz Hw Hboth Hd Hacc.
    rewrite prelude_accepted; try assumption.
    + rewrite Hi. unfold particularize, substitute.
      rewrite Hw, (toString_safe z Hz). reflexivity.
    + rewrite Hi. apply check_index_Ok. exists z. split; [reflexivity|lia].
  - intros r Hr.
    destruct (expand_Ok_index _ _ _ Hi Hr) as (z & -> & Hz & Hw & Hc & Hfree).
    exists z. split; [reflexivity|]. split; [exact Hz|]. split; [exact Hw|].
    split; [exact Hc|]. split; [|exact Hfree].
    intros Hmax. rewrite Hc. unfold substitute.
    rewrite toString_safe by (split; assumption). reflexivity.
Qed.

(** ** The [addr] shell *)

Lemma last_cons_default {A : Type} (a d : A) (l : list A) :
  last (a :: l) d = last l a.
Proof.
  revert a d; induction l as [|b l IH]; intros a d; [reflexivity|].
  change (last (a :: b :: l) d) with (last (b :: l) d).
  rewrite (IH b d). symmetry. apply IH.
Qed.

(** Assigning under [try] parser after parser keeps the payment of the last
    parser that succeeds. *)
Lemma try_assign_last (parsers : list (Payment.t -> result Payment.t))
    (arg : Payment.t) (start : option Payment.t) :
  fold_left (fun payment parse => try_assign payment (parse arg)) parsers start
  = last (map Some (successes parsers arg)) start.
Proof.
  revert start; induction parsers as [|parse rest IH]; intros start;
    [reflexivity|].
  cbn [fold_left]. rewrite IH.
  change (successes (parse :: rest) arg) with
    ((match parse arg with Ok p => [p] | Throw _ => [] end
      ++ successes rest arg)%list).
  destruct (parse arg) as [pay|e]; cbn [try_assign app map].
  - change (map Some ([pay] ++ successes rest arg)%list) with
      (Some pay :: map Some (successes rest arg)).
    rewrite last_cons_default. reflexivity.
  - reflexivity.
Qed.

(** The [addr] branch as one equation over [last_success]. *)
Lemma expand_addr_unfold (d c A : string) (net : Network) (ir : bool) :
  reAddrAnchored c = Some (Some A) -> A <> EmptyString ->
  expand_addr d c net ir =
  if ir then Throw AddrCannotBeRanged else
  match address_toOutputScript A net with
  | Throw _ => Throw (InvalidAddress A)
  | Ok output =>
      match last_success addr_parsers (with_output output net) with
      | None => Throw (InvalidAddress A)
      | Some pay =>
          Ok {| payment := Some pay;
                expandedExpression := None;
                miniscript := None;
                expansionMap := None;
                isSegwit := None;
                expandedMiniscript := None;
                redeemScript := None;
                witnessScript := None;
                isRanged := ir;
                canonicalExpression := c |}
      end
  end.
Proof.
  intros Hre HA. unfold expand_addr. rewrite Hre. cbn [group1].
  destruct ir; [reflexivity|].
  destruct A as [|a A]; [contradiction|].
  destruct (address_toOutputScript _ net) as [output|]; [|reflexivity].
  cbv zeta.
  change (try_assign _ (p2tr ?arg)) with
    (fold_left (fun payment parse => try_assign payment (parse arg))
       addr_parsers None).
  rewrite try_assign_last.
  change (last (map Some (successes addr_parsers ?arg)) None) with
    (last_success addr_parsers arg).
  unfold with_output.
  destruct (last_success _ _); reflexivity.
Qed.

Lemma shell_of_addr (c : string) :
  shell_of c = Some Addr <-> matches (reAddrAnchored c) = true.
Proof.
  unfold shell_of. destruct (matches (reAddrAnchored c)).
  - split; reflexivity.
  - split; [|discriminate].
    repeat match goal with
           | |- context [if ?b then _ else _] => destruct b
           end; discriminate.
Qed.

Lemma expand_in_shell (params : ExpandParams.t) (d c : string)
    (shell : Shell) :
  prelude params = Ok (d, c) -> shell_of c = Some shell ->
  expand params =
  run_shell shell d c
    (default networks_bitcoin (ExpandParams.network params))
    (default false (ExpandParams.allowMiniscriptInP2SH params))
    (has_wildcard d) (has_wildcard c).
Proof.
  intros Hp Hs. rewrite expand_prelude, Hp. cbn [bind].
  rewrite dispatch_shell, Hs. reflexivity.
Qed.

(** C4.  Take a call of [expand] whose canonical expression [c] is an
    [addr(A)] with a non-empty [A], as the anchored pattern captures it, on
    the network [net].  If [A] does not decode to an output script, [expand]
    fails.  If it decodes to [output], the payment considered is that of the
    last of p2pkh, p2sh, p2wpkh, p2wsh, p2tr (tried in that order on
    [output]) that succeeds: [expand] fails when none succeeds; and when
    [expand] succeeds, its payment is that last success and [isSegwit] is
    absent.  A descriptor without [*] whose address decodes and has a
    successful parser is accepted. *)
Theorem expand_addr_last_success (params : ExpandParams.t)
    (d c A : string) :
  prelude params = Ok (d, c) ->
  reAddrAnchored c = Some (Some A) -> A <> EmptyString ->
  let net := default networks_bitcoin (ExpandParams.network params) in
  (forall e, address_toOutputScript A net = Throw e -> fails (expand params))
  /\ (forall output, address_toOutputScript A net = Ok output ->
       let trial := last_success addr_parsers (with_output output net) in
       (trial = None -> fails (expand params))
       /\ (forall r, expand params = Ok r ->
           payment r = trial /\ payment r <> None /\ isSegwit r = None)
       /\ (forall pay, trial = Some pay -> has_wildcard d = false ->
           exists r, expand params = Ok r /\ payment r = Some pay)).
Proof.
  intros Hp Hre HA. cbv zeta.
  assert (Hs : shell_of c = Some Addr).
  { apply shell_of_addr. rewrite Hre. reflexivity. }
  rewrite (expand_in_shell _ _ _ _ Hp Hs). cbn [run_shell].
  rewrite (expand_addr_unfold _ _ _ _ _ Hre HA).
  split.
  - intros e He. rewrite He.
    destruct (has_wildcard d); eexists; reflexivity.
  - intros output Hout. rewrite Hout. split; [|split].
    + intros Hnone. rewrite Hnone.
      destruct (has_wildcard d); eexists; reflexivity.
    + intros r Hr.
      destruct (has_wildcard d); [discriminate Hr|].
      destruct (last_success _ _) as [pay|]; [|discriminate Hr].
      injection Hr as <-. cbn [payment isSegwit].
      split; [reflexivity|]. split; [discriminate|reflexivity].
    + intros pay Hpay Hd. rewrite Hpay, Hd. eexists. split; reflexivity.
Qed.

(** ** Script limits *)

Lemma countNonPushOnlyOPs_unfold (script : Buffer) :
  countNonPushOnlyOPs script =
  match bscript_decompile script with
  | Some tokens => Ok (nonpush_count tokens)
  | None => Throw (CouldNotDecompile script)
  end.
Proof.
  unfold countNonPushOnlyOPs, nonpush_count.
  destruct (bscript_decompile script) as [tokens|]; [|reflexivity].
  do 2 f_equal. apply filter_ext. intros [op|b]; [|reflexivity].
  cbn. apply Z.gtb_ltb.
Qed.

Lemma compile_within_breaks (limit : nat) (tooLarge : nat -> Error)
    (em : string) (map : ExpansionMap) (script : Buffer) :
  miniscript2Script em map = Ok script ->
  breaks_limits limit script ->
  fails (compile_within limit tooLarge em map).
Proof.
  intros Hc Hb. unfold compile_within. rewrite Hc. cbn [bind].
  rewrite countNonPushOnlyOPs_unfold.
  destruct (limit <? length script)%nat eqn:El; [eexists; reflexivity|].
  apply Nat.ltb_ge in El.
  destruct Hb as [Hlen|[Hdec|(tokens & Hdec & Hops)]].
  - lia.
  - rewrite Hdec. eexists; reflexivity.
  - rewrite Hdec. cbn [bind]. unfold MAX_OPS_PER_SCRIPT.
    apply Nat.ltb_lt in Hops. rewrite Hops. eexists; reflexivity.
Qed.

Lemma compile_within_Ok (limit : nat) (tooLarge : nat -> Error)
    (em : string) (map : ExpansionMap) (script : Buffer) :
  compile_within limit tooLarge em map = Ok script ->
  miniscript2Script em map = Ok script /\ within_limits limit script.
Proof.
  unfold compile_within, within_limits. intros H.
  destruct (miniscript2Script em map) as [s|]; [|discriminate].
  cbn [bind] in H. rewrite countNonPushOnlyOPs_unfold in H.
  destruct (limit <? length s)%nat eqn:El; [discriminate|].
  apply Nat.ltb_ge in El.
  destruct (bscript_decompile s) as [tokens|] eqn:Ed; [|discriminate].
  cbn [bind] in H. unfold MAX_OPS_PER_SCRIPT in H.
  destruct (201 <? nonpush_count tokens)%nat eqn:Eo; [discriminate|].
  apply Nat.ltb_ge in Eo. injection H as <-.
  split; [reflexivity|]. split; [exact El|].
  exists tokens. split; [exact Ed|exact Eo].
Qed.

(** C5.  Take a call of [expand] dispatched to a miniscript shell on a
    canonical expression without [*] (materialized at a concrete index or
    not ranged), whose miniscript expands and compiles to [script]; the byte
    cap [limit] is 3600 for [sh(wsh(MS))] and [wsh(MS)] and 520 for
    [sh(MS)].  Then [expand] fails when [script] is longer than [limit],
    when it does not decompile, or when more than 201 of its decompiled
    tokens are opcodes greater than [OP_16 = 0x60]; and when [expand]
    succeeds, [script] is the script of the result and is within those
    limits.  The count is the number of opcode tokens above [OP_16] of the
    decompiled script, and a script that does not decompile throws. *)
Theorem expand_script_limits (params : ExpandParams.t)
    (d c ms em : string) (map : ExpansionMap) (script : Buffer)
    (shell : Shell) (limit : nat) :
  prelude params = Ok (d, c) ->
  has_wildcard c = false ->
  shell_of c = Some shell ->
  (shell = ShWsh /\ limit = 3600%nat
   \/ shell = Wsh /\ limit = 3600%nat
   \/ shell = Sh /\ limit = 520%nat) ->
  miniscript_in shell c = Some ms -> ms <> EmptyString ->
  expandMiniscript ms (shell_isSegwit shell)
    (default networks_bitcoin (ExpandParams.network params)) = Ok (em, map) ->
  miniscript2Script em map = Ok script ->
  (breaks_limits limit script -> fails (expand params))
  /\ (forall r, expand params = Ok r ->
       compiled_script shell r = Some script /\ within_limits limit script)
  /\ OP_16 = 0x60
  /\ countNonPushOnlyOPs script =
       match bscript_decompile script with
       | Some tokens => Ok (nonpush_count tokens)
       | None => Throw (CouldNotDecompile script)
       end.
Proof.
  intros Hp Hw Hs Hshell Hms Hne Hex Hc.
  rewrite (expand_in_shell _ _ _ _ Hp Hs), Hw.
  destruct ms as [|a ms]; [contradiction|].
  split; [|split; [|split; [reflexivity|apply countNonPushOnlyOPs_unfold]]].
  - intros Hb. apply fails_not_Ok. intros r Hr.
    destruct Hshell as [[-> ->]|[[-> ->]|[-> ->]]];
      cbn [run_shell miniscript_in shell_isSegwit] in *;
      unfold expand_sh_wsh, expand_wsh, expand_sh in Hr;
      rewrite Hms, Hex in Hr; cbn [bind negb] in Hr;
      match type of Hr with
      | context [compile_within ?l ?e em map] =>
          pose proof (compile_within_breaks l e em map script Hc Hb)
            as [x Hx];
          rewrite Hx in Hr
      end;
      break_all.
  - intros r Hr.
    destruct Hshell as [[-> ->]|[[-> ->]|[-> ->]]];
      cbn [run_shell miniscript_in shell_isSegwit compiled_script] in *;
      unfold expand_sh_wsh, expand_wsh, expand_sh in Hr;
      rewrite Hms, Hex in Hr; cbn [bind negb] in Hr;
      break_all;
      match goal with
      | E : compile_within _ _ _ _ = Ok _ |- _ =>
          apply compile_within_Ok in E as [Hm Hl];
          rewrite Hc in Hm; injection Hm as <-
      end; (split; [reflexivity|exact Hl]).
Qed.

(** ** Index against textual substitution *)

(** Outside the [addr] shell, the descriptor text and the [isRanged] flag
    reach only the error values and the [isRanged] field. *)
Lemma run_shell_flag (shell : Shell) (d d' c : string) (net : Network)
    (allow ir ir' icr : bool) :
  shell <> Addr ->
  value_of (run_shell shell d c net allow ir icr) =
  option_map (set_isRanged ir)
    (value_of (run_shell shell d' c net allow ir' icr)).
Proof.
  intros Hs.
  destruct shell; try contradiction;
    unfold run_shell, expand_pk, expand_pkh, expand_sh_wpkh, expand_wpkh,
      expand_sh_wsh, expand_sh, expand_wsh, expand_key, pubkey_of, bind;
    repeat match goal with
           | |- context [match ?x with _ => _ end] =>
               lazymatch x with
               | context [match _ with _ => _ end] => fail
               | _ => destruct x
               end
           end; reflexivity.
Qed.

Lemma substitute_nonempty (z : Z) (text : string) :
  has_wildcard text = true -> substitute z text <> EmptyString.
Proof.
  intros H. apply replaceAll_nonempty; [exact H|apply decimal_nonempty].
Qed.

Lemma prelude_plain (text : string) (net : option Network)
    (allow : option bool) :
  text <> EmptyString -> trailing_checksum text = None ->
  prelude (ExpandParams.make (Some text) None None None net allow)
  = Ok (text, text).
Proof.
  intros Hne Hnone.
  assert (Hd : given_descriptor
                 (ExpandParams.make (Some text) None None None net allow)
               = text).
  { unfold given_descriptor, or_else; cbn.
    destruct text; [contradiction|reflexivity]. }
  rewrite prelude_accepted; rewrite ?Hd; cbn [ExpandParams.index
    ExpandParams.descriptor ExpandParams.expression
    ExpandParams.checksumRequired default check_index particularize bind].
  - unfold body_of. rewrite Hnone. reflexivity.
  - apply andb_false_r.
  - exact Hne.
  - reflexivity.
  - unfold checksum_accepted. rewrite Hnone. reflexivity.
Qed.

(** C6, amended.  Let a call of [expand] on the descriptor [d] with the
    index [z], a safe integer (at most 2^53 - 1), succeed, and let [b'] be
    the body of [d] (what precedes its trailing checksum, if any) with every
    [*] replaced by the decimal representation of [z].  If [b'] does not
    itself end in a checksum pattern, then expanding [b'] with no index, on
    the same network and with the same [allowMiniscriptInP2SH], succeeds
    with the same payment, hence the same scriptPubKey, and that payment is
    present. *)
Theorem expand_index_is_substitution (params : ExpandParams.t) (z : Z)
    (r1 : Expansion) :
  ExpandParams.index params = Some (Int z) ->
  z <= MAX_SAFE_INTEGER ->
  expand params = Ok r1 ->
  let b' := substitute z (body_of (given_descriptor params)) in
  trailing_checksum b' = None ->
  exists r2,
    expand (ExpandParams.make (Some b') None None None
              (ExpandParams.network params)
              (ExpandParams.allowMiniscriptInP2SH params)) = Ok r2
    /\ r2 = set_isRanged false r1
    /\ payment r2 = payment r1
    /\ scriptPubKey_of r2 = scriptPubKey_of r1
    /\ payment r1 <> None.
Proof.
  intros Hi Hmax Hr b' Hnone. subst b'.
  destruct (expand_Ok_index _ _ _ Hi Hr)
    as (z' & [= <-] & Hz & Hw & Hc & Hfree).
  rewrite (toString_safe z (conj Hz Hmax)) in Hc.
  fold (substitute z (body_of (given_descriptor params))) in Hc.
  apply expand_Ok in Hr as (d & c & shell & Hp & Hs & Hrun).
  destruct (run_shell_frame _ _ _ _ _ _ _ _ Hrun) as [Hcan _].
  destruct (prelude_Ok _ _ _ Hp) as (Hd & _ & _).
  rewrite Hcan in Hc, Hfree. subst c.
  rewrite Hfree in Hrun.
  assert (Hranged : has_wildcard d = true).
  { destruct (has_wildcard d) eqn:E; [reflexivity|].
    apply has_wildcard_body in E. congruence. }
  rewrite Hranged in Hrun.
  assert (Hshell : shell <> Addr).
  { intros ->. apply run_shell_payment in Hrun as [? _]; discriminate. }
  pose proof (run_shell_payment _ _ _ _ _ _ _ _ Hrun) as Hpay.
  set (b' := substitute z (body_of (given_descriptor params))) in *.
  assert (Hne : b' <> EmptyString) by (apply substitute_nonempty; exact Hw).
  pose proof (run_shell_flag shell b' d b'
                (default networks_bitcoin (ExpandParams.network params))
                (default false (ExpandParams.allowMiniscriptInP2SH params))
                false true false Hshell) as Hflag.
  rewrite Hrun in Hflag. cbn [value_of option_map] in Hflag.
  exists (set_isRanged false r1).
  split; [|split; [reflexivity|split; [reflexivity|split; [reflexivity|]]]].
  - rewrite (expand_in_shell _ b' b' shell (prelude_plain _ _ _ Hne Hnone) Hs).
    cbn [ExpandParams.network ExpandParams.allowMiniscriptInP2SH].
    rewrite Hfree.
    destruct (run_shell shell b' b' _ _ false false); [|discriminate].
    injection Hflag as ->. reflexivity.
  - destruct shell; try contradiction;
      destruct Hpay as [Hpay _]; destruct (payment r1);
      discriminate.
Qed.

(** ** The [Output] object *)

(** A shell that sets [miniscript] sets a non-empty one, together with the
    expanded miniscript and the expansion map. *)
Lemma run_shell_miniscript (shell : Shell) (d c : string) (net : Network)
    (allow ir icr : bool) (r : Expansion) :
  run_shell shell d c net allow ir icr = Ok r ->
  match miniscript r with
  | Some ms =>
      ms <> EmptyString
      /\ exists em map,
           expandedMiniscript r = Some em /\ expansionMap r = Some map
  | None => True
  end.
Proof.
  destruct shell; unfold run_shell, expand_addr, expand_pk, expand_pkh,
    expand_sh_wpkh, expand_wpkh, expand_sh_wsh, expand_sh, expand_wsh;
    intros H; break_all; cbn [miniscript expandedMiniscript expansionMap];
    try exact I; (split; [discriminate|eauto]).
Qed.

Lemma map_throwing_pubkeys (d : string) (infos : list KeyInfo.t)
    (keys : list Buffer) :
  map_throwing (pubkey_of d) infos = Ok keys ->
  map KeyInfo.pubkey infos = map Some keys.
Proof.
  revert keys; induction infos as [|info rest IH]; intros keys H.
  - injection H as <-. reflexivity.
  - cbn [map_throwing] in H. unfold pubkey_of at 1 in H.
    destruct (KeyInfo.pubkey info) as [key|] eqn:Ek; [|discriminate].
    cbn [bind] in H.
    destruct (map_throwing (pubkey_of d) rest) as [ks|]; [|discriminate].
    cbn [bind] in H. injection H as <-.
    cbn [map]. rewrite Ek, (IH ks eq_refl). reflexivity.
Qed.

(** What a constructed [Output] holds. *)
Lemma new_Output_Ok (options : OutputParams.t) (o : Output.t) :
  new_Output options = Ok o ->
  exists descriptor r,
    OutputParams.descriptor options = JsString descriptor
    /\ expand (ExpandParams.make (Some descriptor) None
                 (OutputParams.index options)
                 (Some (default false (OutputParams.checksumRequired options)))
                 (Some (default networks_bitcoin
                          (OutputParams.network options)))
                 (Some (default false
                          (OutputParams.allowMiniscriptInP2SH options))))
       = Ok r
    /\ payment r = Some (Output.payment o)
    /\ Output.miniscript o = miniscript r
    /\ Output.expandedMiniscript o = expandedMiniscript r
    /\ Output.expansionMap o = expansionMap r
    /\ Output.witnessScript o = witnessScript r
    /\ Output.redeemScript o = redeemScript r
    /\ Output.preimages o = default [] (OutputParams.preimages options)
    /\ match OutputParams.signersPubKeys options with
       | Some keys => Output.signersPubKeys o = keys
       | None =>
           forall map, expansionMap r = Some map ->
             map_throwing (pubkey_of descriptor) (Object_values map)
             = Ok (Output.signersPubKeys o)
       end.
Proof.
  unfold new_Output. intros H.
  destruct (OutputParams.descriptor options) as [| | | |descriptor| |];
    try discriminate.
  cbn [typeof String.eqb Ascii.eqb Bool.eqb negb] in H.
  break_all; cbn [Output.payment Output.miniscript Output.expandedMiniscript
    Output.expansionMap Output.witnessScript Output.redeemScript
    Output.preimages Output.signersPubKeys];
    eexists _, _; (split; [reflexivity|]);
    (split; [eassumption|]);
    repeat split; try reflexivity; try eassumption;
    try (symmetry; eassumption); intros; congruence.
Qed.

Lemma expand_miniscript (params : ExpandParams.t) (r : Expansion) :
  expand params = Ok r ->
  match miniscript r with
  | Some ms =>
      ms <> EmptyString
      /\ exists em map,
           expandedMiniscript r = Some em /\ expansionMap r = Some map
  | None => True
  end.
Proof.
  intros H. apply expand_Ok in H as (d & c & shell & _ & _ & Hr).
  exact (run_shell_miniscript _ _ _ _ _ _ _ _ Hr).
Qed.

(** The miniscript fields of a constructed [Output] come together. *)
Lemma new_Output_miniscript (options : OutputParams.t) (o : Output.t) :
  new_Output options = Ok o ->
  match Output.miniscript o with
  | Some ms =>
      ms <> EmptyString
      /\ exists em map,
           Output.expandedMiniscript o = Some em
           /\ Output.expansionMap o = Some map
  | None => True
  end.
Proof.
  intros H.
  apply new_Output_Ok in H
    as (d & r & _ & Hr & _ & -> & -> & -> & _).
  exact (expand_miniscript _ _ Hr).
Qed.

(** [#getTimeConstraints] on an [Output] that holds a non-empty miniscript
    with its expansion. *)
Lemma getTimeConstraints_miniscript (o : Output.t) (ms em : string)
    (map : ExpansionMap) :
  Output.miniscript o = Some ms -> ms <> EmptyString ->
  Output.expandedMiniscript o = Some em ->
  Output.expansionMap o = Some map ->
  getTimeConstraints o =
  sat <- satisfyMiniscript em map
           (List.map fakeSignature (Output.signersPubKeys o))
           (Output.preimages o) None ;;
  Ok (Some {| nLockTime := sat_nLockTime sat;
              nSequence := sat_nSequence sat |}).
Proof.
  intros Hms Hne Hem Hmap. unfold getTimeConstraints.
  rewrite Hms, Hem, Hmap. destruct ms; [contradiction|reflexivity].
Qed.

(** C7.  For every [Output] the constructor builds: it stores the
    preimages it was given (none by default) and the signersPubKeys it was
    given (by default the pubkeys of the expansion map).  If its descriptor
    has a miniscript, [getSequence()] and [getLockTime()] call the satisfier
    on the expanded miniscript and expansion map with one fake signature per
    entry of signersPubKeys, each 64 zero bytes under that pubkey, and with
    the stored preimages and no time constraints, and return the nSequence,
    respectively the nLockTime, of that satisfaction.  If its descriptor has
    no miniscript, both return undefined. *)
Theorem output_time_constraints (options : OutputParams.t) (o : Output.t) :
  new_Output options = Ok o ->
  Output.preimages o = default [] (OutputParams.preimages options)
  /\ match OutputParams.signersPubKeys options with
     | Some keys => Output.signersPubKeys o = keys
     | None =>
         forall map, Output.expansionMap o = Some map ->
           List.map KeyInfo.pubkey (Object_values map)
           = List.map Some (Output.signersPubKeys o)
     end
  /\ match Output.miniscript o with
     | Some _ =>
         exists em map,
           Output.expandedMiniscript o = Some em
           /\ Output.expansionMap o = Some map
           /\ let satisfaction :=
                satisfyMiniscript em map
                  (List.map fakeSignature (Output.signersPubKeys o))
                  (Output.preimages o) None in
              getSequence o = (sat <- satisfaction ;; Ok (sat_nSequence sat))
              /\ getLockTime o
                 = (sat <- satisfaction ;; Ok (sat_nLockTime sat))
     | None => getSequence o = Ok None /\ getLockTime o = Ok None
     end
  /\ (forall pubkey,
        sig_pubkey (fakeSignature pubkey) = pubkey
        /\ signature (fakeSignature pubkey) = repeat x00 64).
Proof.
  intros H. pose proof (new_Output_miniscript _ _ H) as Hms.
  apply new_Output_Ok in H
    as (d & r & _ & Hr & _ & _ & _ & Hmap & _ & _ & Hpre & Hkeys).
  split; [exact Hpre|]. split; [|split].
  - destruct (OutputParams.signersPubKeys options) as [keys|];
      [exact Hkeys|].
    intros map Hm. rewrite Hmap in Hm.
    exact (map_throwing_pubkeys _ _ _ (Hkeys map Hm)).
  - destruct (Output.miniscript o) as [ms|] eqn:Em.
    + destruct Hms as (Hne & em & map & Hem & Hm).
      exists em, map. split; [exact Hem|]. split; [exact Hm|]. cbv zeta.
      unfold getSequence, getLockTime.
      rewrite (getTimeConstraints_miniscript _ _ _ _ Em Hne Hem Hm).
      destruct (satisfyMiniscript _ _ _ _ _); split; reflexivity.
    + unfold getSequence, getLockTime, getTimeConstraints.
      rewrite Em. split; reflexivity.
  - intros pubkey. split; reflexivity.
Qed.

(** ** The PSBT input assertion *)

Lemma eqBuffers_eq (buf1 buf2 : option Buffer) :
  eqBuffers buf1 buf2 = true <-> buf1 = buf2.
Proof.
  destruct buf1 as [b1|], buf2 as [b2|]; cbn;
    try (split; [discriminate|discriminate]); [|split; reflexivity].
  rewrite Z.eqb_eq, Buffer_compare_eq.
  split; [intros ->; reflexivity|intros [= ->]; reflexivity].
Qed.

Lemma strict_equal_eq (a b : option Z) : strict_equal a b = true <-> a = b.
Proof.
  destruct a as [x|], b as [y|]; cbn;
    try (split; [discriminate|discriminate]); [|split; reflexivity].
  rewrite Z.eqb_eq. split; [intros ->; reflexivity|intros [= ->]; reflexivity].
Qed.

Lemma or_zero_default (x : option Z) : or_zero x = default 0 x.
Proof.
  destruct x as [n|]; [|reflexivity]. cbn.
  destruct (n =? 0) eqn:E; [apply Z.eqb_eq in E; congruence|reflexivity].
Qed.

(** The sequence the assertion computes is the one the specification
    words. *)
Lemma expected_sequence_spec (sequence lockTime : option Z) :
  expected_sequence sequence (or_zero lockTime)
  = Some (spec_sequence sequence lockTime).
Proof.
  unfold expected_sequence, spec_sequence.
  destruct sequence as [s|]; [reflexivity|]. cbn [matches negb andb].
  rewrite or_zero_default. destruct lockTime as [l|]; cbn [default].
  - destruct (l =? 0); reflexivity.
  - reflexivity.
Qed.

(** What a passed assertion established. *)
Lemma assertPsbtInput_Ok (o : Output.t) (psbt : Psbt) (index : Z) :
  assertPsbtInput o psbt index = Ok tt ->
  exists input txInput observed sequence lockTime,
    array_get (data_inputs psbt) index = Some input
    /\ array_get (txInputs psbt) index = Some txInput
    /\ observed_scriptPubKey input (tx_index txInput) = Ok observed
    /\ getSequence o = Ok sequence
    /\ getLockTime o = Ok lockTime
    /\ getScriptPubKey o = Ok observed
    /\ tx_sequence txInput = Some (spec_sequence sequence lockTime)
    /\ locktime_of psbt = default 0 lockTime
    /\ in_witnessScript input = getWitnessScript o
    /\ in_redeemScript input = getRedeemScript o.
Proof.
  unfold assertPsbtInput. intros H.
  destruct (array_get (data_inputs psbt) index) as [input|] eqn:Ei;
    [|discriminate].
  destruct (array_get (txInputs psbt) index) as [txInput|] eqn:Et;
    [|discriminate].
  destruct (observed_scriptPubKey _ _) as [observed|] eqn:Eo; [|discriminate].
  cbn [bind] in H.
  destruct (getLockTime o) as [lockTime|] eqn:El; [|discriminate].
  cbn [bind] in H.
  destruct (getSequence o) as [sequence|] eqn:Es; [|discriminate].
  cbn [bind] in H.
  destruct (getScriptPubKey o) as [own|] eqn:Ek; [|discriminate].
  cbn [bind] in H. rewrite expected_sequence_spec in H.
  match type of H with (if ?b then _ else _) = _ =>
    destruct b eqn:E; [discriminate|] end.
  apply orb_false_iff in E as [E Hrs].
  apply orb_false_iff in E as [E Hws].
  apply orb_false_iff in E as [E Hlt].
  apply orb_false_iff in E as [E Hsq].
  apply negb_false_iff in E, Hsq, Hlt, Hws, Hrs.
  apply Z.eqb_eq, Buffer_compare_eq in E. subst own.
  apply strict_equal_eq in Hsq. apply Z.eqb_eq in Hlt.
  apply eqBuffers_eq in Hws, Hrs.
  exists input, txInput, observed, sequence, lockTime.
  rewrite <- or_zero_default.
  repeat split; try reflexivity; try assumption; symmetry; assumption.
Qed.

Lemma finalizePsbtInput_asserts (o : Output.t) (index : Z) (psbt psbt' : Psbt)
    (validate : option bool) :
  finalizePsbtInput o index psbt validate = Ok psbt' ->
  assertPsbtInput o psbt index = Ok tt.
Proof.
  unfold finalizePsbtInput. intros H.
  destruct (if default true validate then _ else _) as [valid|];
    [|discriminate].
  cbn [bind] in H.
  destruct (default true validate && negb valid); [discriminate|].
  destruct (match array_get (data_inputs psbt) index with
            | Some input => partialSig input
            | None => None
            end); [|discriminate].
  destruct (assertPsbtInput o psbt index) as [[]|]; [reflexivity|discriminate].
Qed.

(** C8.  The sequence the input assertion expects is [getSequence()] when
    it is defined, else [0xfffffffe] when [getLockTime()] is a nonzero
    number, else [0xffffffff].  And whenever [finalizePsbtInput] succeeds at
    [index], the assertion has passed before the input is finalized: the
    PSBT has an input and a transaction input at [index], the scriptPubKey
    observed in the input's UTXO is this Output's scriptPubKey, the
    transaction input's sequence is the expected sequence, the PSBT's
    locktime is this Output's locktime (0 when undefined), and the input's
    witnessScript and redeemScript are this Output's. *)
Theorem finalize_asserts_input (o : Output.t) (index : Z)
    (psbt psbt' : Psbt) (validate : option bool) :
  finalizePsbtInput o index psbt validate = Ok psbt' ->
  (forall sequence lockTime,
     expected_sequence sequence (or_zero lockTime)
     = Some (match sequence with
             | Some s => s
             | None =>
                 match lockTime with
                 | Some l => if l =? 0 then 0xffffffff else 0xfffffffe
                 | None => 0xffffffff
                 end
             end))
  /\ assertPsbtInput o psbt index = Ok tt
  /\ exists input txInput observed sequence lockTime,
       array_get (data_inputs psbt) index = Some input
       /\ array_get (txInputs psbt) index = Some txInput
       /\ observed_scriptPubKey input (tx_index txInput) = Ok observed
       /\ getSequence o = Ok sequence
       /\ getLockTime o = Ok lockTime
       /\ getScriptPubKey o = Ok observed
       /\ tx_sequence txInput = Some (spec_sequence sequence lockTime)
       /\ locktime_of psbt = default 0 lockTime
       /\ in_witnessScript input = getWitnessScript o
       /\ in_redeemScript input = getRedeemScript o.
Proof.
  intros H. apply finalizePsbtInput_asserts in H.
  split; [exact expected_sequence_spec|]. split; [exact H|].
  exact (assertPsbtInput_Ok _ _ _ H).
Qed.

(** C9.  In the comparison of the input assertion two absent scripts are
    equal and an absent script never equals a present one.  So for the
    input at [index]: if this Output and the input differ in having a
    witnessScript, or in having a redeemScript, finalization fails; and
    when finalization succeeds, the Output has no witnessScript
    (respectively redeemScript) exactly when the input has none. *)
Theorem finalize_script_presence (o : Output.t) (index : Z) (psbt : Psbt)
    (validate : option bool) (input : PsbtInput) :
  array_get (data_inputs psbt) index = Some input ->
  eqBuffers None None = true
  /\ (forall b, eqBuffers None (Some b) = false
                /\ eqBuffers (Some b) None = false)
  /\ (matches (getWitnessScript o) <> matches (in_witnessScript input)
      \/ matches (getRedeemScript o) <> matches (in_redeemScript input) ->
      fails (finalizePsbtInput o index psbt validate))
  /\ (forall psbt', finalizePsbtInput o index psbt validate = Ok psbt' ->
       (getWitnessScript o = None <-> in_witnessScript input = None)
       /\ (getRedeemScript o = None <-> in_redeemScript input = None)).
Proof.
  intros Hin.
  assert (Hok : forall psbt',
            finalizePsbtInput o index psbt validate = Ok psbt' ->
            in_witnessScript input = getWitnessScript o
            /\ in_redeemScript input = getRedeemScript o).
  { intros psbt' H.
    apply finalizePsbtInput_asserts, assertPsbtInput_Ok in H
      as (input' & txInput & observed & sequence & lockTime
          & Hin' & _ & _ & _ & _ & _ & _ & _ & Hw & Hr).
    rewrite Hin in Hin'. injection Hin' as <-. split; assumption. }
  split; [reflexivity|]. split; [intros b; split; reflexivity|]. split.
  - intros Hdiff. apply fails_not_Ok. intros psbt' H.
    destruct (Hok psbt' H) as [Hw Hr]. rewrite Hw, Hr in Hdiff.
    destruct Hdiff as [Hd|Hd]; apply Hd; reflexivity.
  - intros psbt' H. destruct (Hok psbt' H) as [-> ->].
    split; split; intros Hx; exact Hx.
Qed.

(** ** The constructor's type check *)

(** C10.  Whatever the collaborators and the other options, the [Output]
    constructor throws its type error for every [descriptor] argument whose
    [typeof] is not ['string'], as for [undefined], a number or a Buffer:
    the error is this one and no error of the checksum, the index or the
    expansion, none of which is reached. *)
Theorem new_Output_rejects_non_string (options : OutputParams.t) :
  typeof (OutputParams.descriptor options) <> "string" ->
  new_Output options = Throw InvalidDescriptorType.
Proof.
  intros Htype. unfold new_Output.
  destruct (OutputParams.descriptor options); try reflexivity.
  exfalso. apply Htype. reflexivity.
Qed.

End Properties.

(** * Further properties

    Properties of the code beyond the specification's claims: the
    remaining arguments of [expand], what each shell leaves in an
    expansion, the constructor and the methods of [Output], and the
    finalization of a PSBT input. *)

Section FurtherProperties.
Context {ext : Externals}.

(** ** The arguments of [expand] *)

(** Two calls with the same prelude, network and flag are the same call. *)
Lemma expand_same_prelude (p q : ExpandParams.t) :
  prelude p = prelude q ->
  ExpandParams.network p = ExpandParams.network q ->
  ExpandParams.allowMiniscriptInP2SH p = ExpandParams.allowMiniscriptInP2SH q ->
  expand p = expand q.
Proof.
  intros Hp Hn Ha. rewrite !expand_prelude, Hp, Hn, Ha. reflexivity.
Qed.

Lemma checksum_accepted_relax (d : string) :
  checksum_accepted d true = true -> checksum_accepted d false = true.
Proof.
  unfold checksum_accepted. destruct (trailing_checksum d); [auto|discriminate].
Qed.

(** X1.  The deprecated [expression] is an alias of [descriptor]: a call
    with [expression] alone, or beside an empty [descriptor], is the call
    with that text as [descriptor]; both given and non-empty is an error of
    its own; neither given, or only empty texts, is "descriptor not
    provided". *)
Theorem expand_expression_alias (e : string) (index : option Number)
    (cr : option bool) (net : option Network) (allow : option bool) :
  let call d x := expand (ExpandParams.make d x index cr net allow) in
  call None (Some e) = call (Some e) None
  /\ call (Some EmptyString) (Some e) = call (Some e) None
  /\ (forall d, d <> EmptyString -> e <> EmptyString ->
      call (Some d) (Some e) = Throw ExpressionDeprecated)
  /\ call None None = Throw DescriptorNotProvided
  /\ call (Some EmptyString) None = Throw DescriptorNotProvided
  /\ call None (Some EmptyString) = Throw DescriptorNotProvided.
Proof.
  cbv zeta. unfold expand; cbn [ExpandParams.descriptor
    ExpandParams.expression truthy or_else andb].
  repeat split.
  - destruct e; reflexivity.
  - destruct e; reflexivity.
  - intros d Hd He. destruct d; [contradiction|]. destruct e; [contradiction|].
    reflexivity.
Qed.

(** X2.  Requiring a checksum only removes successes: a call of [expand]
    that succeeds returns the same expansion when [checksumRequired] is
    set to false or left out. *)
Theorem expand_checksum_not_required (params : ExpandParams.t)
    (r : Expansion) (flag : option bool) :
  expand params = Ok r ->
  default false flag = false ->
  expand (set_checksumRequired flag params) = Ok r.
Proof.
  intros Hr Hflag. rewrite <- Hr. apply expand_same_prelude; try reflexivity.
  apply expand_Ok in Hr as (d & c & shell & Hp & _ & _).
  rewrite Hp. pose proof (prelude_Ok _ _ _ Hp) as (Hd & Hidx & Hev).
  apply evaluate_Ok in Hev as (Hne & Hacc & Hpart).
  assert (Hacc' : checksum_accepted d false = true).
  { destruct (default false (ExpandParams.checksumRequired params));
      [apply checksum_accepted_relax|]; exact Hacc. }
  assert (Hboth : truthy (ExpandParams.descriptor params)
                  && truthy (ExpandParams.expression params) = false).
  { unfold prelude in Hp. destruct (truthy _ && truthy _);
      [discriminate|reflexivity]. }
  rewrite prelude_accepted; unfold given_descriptor in *;
    cbn [set_checksumRequired ExpandParams.descriptor ExpandParams.expression
         ExpandParams.index ExpandParams.checksumRequired];
    rewrite <- ?Hd, ?Hflag; try assumption.
  rewrite Hpart. reflexivity.
Qed.

(** The descriptor text reaches only the error values of a shell. *)
Lemma run_shell_descriptor (shell : Shell) (d d' c : string) (net : Network)
    (allow ir icr : bool) :
  value_of (run_shell shell d c net allow ir icr) =
  value_of (run_shell shell d' c net allow ir icr).
Proof.
  destruct shell;
    unfold run_shell, expand_addr, expand_pk, expand_pkh, expand_sh_wpkh,
      expand_wpkh, expand_sh_wsh, expand_sh, expand_wsh, expand_key,
      pubkey_of, bind;
    repeat match goal with
           | |- context [match ?x with _ => _ end] =>
               lazymatch x with
               | context [match _ with _ => _ end] => fail
               | _ => destruct x
               end
           end; reflexivity.
Qed.

Lemma body_of_checksummed (body m : string) :
  trailing_checksum (body ++ m) = Some m -> body_of (body ++ m) = body.
Proof.
  intros H. unfold body_of. rewrite H, length_app.
  replace (String.length body + String.length m - String.length m)%nat
    with (String.length body) by lia.
  apply substring_to_app.
Qed.

Lemma prelude_on_descriptor (t : string) (p : ExpandParams.t) :
  t <> EmptyString ->
  prelude (on_descriptor t p) =
  _ <- check_index (ExpandParams.index p) ;;
  c <- evaluate t (default false (ExpandParams.checksumRequired p))
         (ExpandParams.index p) ;;
  Ok (t, c).
Proof.
  intros Ht. unfold prelude, on_descriptor, or_else; cbn.
  destruct t; [contradiction|reflexivity].
Qed.

Lemma value_of_dispatch_descriptor (d d' c : string) (net : Network)
    (allow ir icr : bool) :
  value_of (dispatch d c net allow ir icr) =
  value_of (dispatch d' c net allow ir icr).
Proof.
  rewrite !dispatch_shell. destruct (shell_of c); [|reflexivity].
  apply run_shell_descriptor.
Qed.

(** X3.  Appending the right checksum changes nothing: for a non-empty
    body without a checksum of its own, and a text [m] without [*] that the
    checksum pattern matches at the end of [body ++ m] and that carries the
    checksum computed over [body], expanding [body ++ m] (checksum required
    or not) succeeds exactly when expanding [body] without requiring a
    checksum does, and with the same expansion. *)
Theorem expand_checksum_round_trip (params : ExpandParams.t)
    (body m : string) :
  body <> EmptyString ->
  trailing_checksum body = None ->
  trailing_checksum (body ++ m) = Some m ->
  substring_from 1 m = DescriptorChecksum body ->
  has_wildcard m = false ->
  value_of (expand (on_descriptor (body ++ m) params)) =
  value_of (expand (set_checksumRequired (Some false)
                      (on_descriptor body params))).
Proof.
  intros Hne Hnone Hm Hsum Hwm.
  assert (Hbody : body_of (body ++ m) = body)
    by exact (body_of_checksummed _ _ Hm).
  assert (Hacc : forall cr, checksum_accepted (body ++ m) cr = true).
  { intros cr. unfold checksum_accepted. rewrite Hm, Hbody.
    apply String.eqb_eq. exact Hsum. }
  assert (Hacc' : checksum_accepted body false = true).
  { unfold checksum_accepted. rewrite Hnone. reflexivity. }
  assert (Hbody' : body_of body = body).
  { unfold body_of. rewrite Hnone. reflexivity. }
  assert (Hne' : body ++ m <> EmptyString).
  { destruct body; [contradiction|discriminate]. }
  change (set_checksumRequired (Some false) (on_descriptor body params))
    with (on_descriptor body (set_checksumRequired (Some false) params)).
  rewrite !expand_prelude, !prelude_on_descriptor by assumption.
  cbn [set_checksumRequired on_descriptor ExpandParams.index
       ExpandParams.checksumRequired ExpandParams.network
       ExpandParams.allowMiniscriptInP2SH default].
  destruct (check_index (ExpandParams.index params)) as [[]|];
    [|reflexivity].
  cbn [bind].
  rewrite (evaluate_accepted (body ++ m)) by (exact Hne' || apply Hacc).
  rewrite (evaluate_accepted body) by assumption.
  rewrite Hbody, Hbody'.
  unfold particularize.
  destruct (ExpandParams.index params) as [i|];
    [destruct (has_wildcard body); [|reflexivity]|]; cbn [bind];
    rewrite has_wildcard_app, Hwm, orb_false_r;
    apply value_of_dispatch_descriptor.
Qed.

(** [isRanged] is read off the descriptor as given. *)
Lemma expand_Ok_isRanged (params : ExpandParams.t) (r : Expansion) :
  expand params = Ok r -> isRanged r = has_wildcard (given_descriptor params).
Proof.
  intros Hr. apply expand_Ok in Hr as (d & c & shell & Hp & _ & Hrun).
  apply run_shell_frame in Hrun as [_ Hir].
  pose proof (prelude_Ok _ _ _ Hp) as (Hd & _ & _).
  rewrite Hir, <- Hd. reflexivity.
Qed.

(** X4.  [isRanged] reports the descriptor as given, not the canonical
    expression: on success it tells whether the given descriptor contains
    [*]; a canonical expression that still contains [*] implies it; and
    after an index was substituted the result is ranged although its
    canonical expression has no [*] left. *)
Theorem expand_isRanged (params : ExpandParams.t) (r : Expansion) :
  expand params = Ok r ->
  isRanged r = has_wildcard (given_descriptor params)
  /\ (has_wildcard (canonicalExpression r) = true -> isRanged r = true)
  /\ (ExpandParams.index params <> None ->
      isRanged r = true /\ has_wildcard (canonicalExpression r) = false).
Proof.
  intros Hr. pose proof Hr as Hr'.
  apply expand_Ok in Hr as (d & c & shell & Hp & _ & Hrun).
  apply run_shell_frame in Hrun as [Hc Hir].
  pose proof (prelude_Ok _ _ _ Hp) as (Hd & _ & Hev).
  rewrite Hir, <- Hd. split; [reflexivity|].
  assert (Hmono : has_wildcard d = false -> has_wildcard c = false)
    by apply (evaluate_wildcard_free _ _ _ _ Hev).
  split.
  - rewrite Hc. destruct (has_wildcard d); [reflexivity|].
    rewrite Hmono; [discriminate|reflexivity].
  - intros Hidx. destruct (ExpandParams.index params) as [i|] eqn:Ei;
      [|contradiction].
    destruct (expand_Ok_index _ _ _ Ei Hr') as (z & _ & _ & Hw & _ & Hfree).
    split; [|exact Hfree].
    destruct (has_wildcard d) eqn:E; [reflexivity|].
    rewrite Hd in E. apply has_wildcard_body in E. congruence.
Qed.

(** ** The shells *)

(** What the shared part of the single-key branches established. *)
Lemma expand_key_Ok (d c : string) (wrap : string -> string) (net : Network)
    (seg : bool) (pKE : KeyInfo.t) :
  expand_key d c wrap net seg = Ok pKE ->
  exists K, reKeyExp c = Some K /\ K <> EmptyString /\ c = wrap K
            /\ parseKeyExpression K net seg = Ok pKE.
Proof.
  unfold expand_key. intros H.
  destruct (reKeyExp c) as [[|a K]|]; try discriminate.
  destruct (String.eqb c (wrap (String a K))) eqn:E; [|discriminate].
  apply String.eqb_eq in E. exists (String a K).
  repeat split; [discriminate|exact E|exact H].
Qed.

(** The shell an expansion came from is the one its canonical expression
    dispatches to. *)
Lemma expand_Ok_shell (params : ExpandParams.t) (r : Expansion)
    (shell : Shell) :
  expand params = Ok r ->
  shell_of (canonicalExpression r) = Some shell ->
  exists d,
    run_shell shell d (canonicalExpression r)
      (default networks_bitcoin (ExpandParams.network params))
      (default false (ExpandParams.allowMiniscriptInP2SH params))
      (has_wildcard d) (has_wildcard (canonicalExpression r)) = Ok r.
Proof.
  intros Hr Hs. apply expand_Ok in Hr as (d & c & shell' & _ & Hs' & Hrun).
  destruct (run_shell_frame _ _ _ _ _ _ _ _ Hrun) as [Hc _].
  rewrite Hc in Hs. rewrite Hs in Hs'. injection Hs' as <-.
  exists d. rewrite Hc. exact Hrun.
Qed.

(** X5.  A successful expansion through a single-key shell ([pk], [pkh],
    [sh(wpkh)], [wpkh]): the canonical expression is exactly the shell
    around the key expression the key pattern finds in it, with nothing
    before or after; the expansion map has the one entry [@0], the parsed
    key; the expanded expression is the shell around [@0]; [isSegwit] is
    that of the shell; no miniscript field and no witnessScript is set; and
    a payment is present only if the parsed key has a pubkey. *)
Theorem expand_key_shell (params : ExpandParams.t) (r : Expansion)
    (shell : Shell) (before after expanded : string) (segwit : bool) :
  expand params = Ok r ->
  shell_of (canonicalExpression r) = Some shell ->
  key_shell shell = Some (before, after, segwit, expanded) ->
  exists key pKE,
    reKeyExp (canonicalExpression r) = Some key
    /\ key <> EmptyString
    /\ canonicalExpression r = before ++ key ++ after
    /\ parseKeyExpression key
         (default networks_bitcoin (ExpandParams.network params)) segwit
       = Ok pKE
    /\ expansionMap r = Some [("@0", pKE)]
    /\ expandedExpression r = Some expanded
    /\ isSegwit r = Some segwit
    /\ miniscript r = None
    /\ expandedMiniscript r = None
    /\ witnessScript r = None
    /\ (payment r <> None -> KeyInfo.pubkey pKE <> None).
Proof.
  intros Hr Hs Hk. destruct (expand_Ok_shell _ _ _ Hr Hs) as (d & Hrun).
  set (c := canonicalExpression r) in *. clearbody c.
  destruct shell; try discriminate Hk; injection Hk as <- <- <- <-;
    unfold run_shell, expand_pk, expand_pkh, expand_sh_wpkh, expand_wpkh
      in Hrun;
    break_all;
    match goal with
    | E : expand_key _ _ _ _ _ = Ok ?k |- _ =>
        apply expand_key_Ok in E as (key & Hre & Hne & Hc & Hparse);
        exists key, k
    end;
    cbn [expansionMap expandedExpression isSegwit miniscript
         expandedMiniscript witnessScript payment];
    repeat (split; [first [reflexivity|assumption]|]);
    try (intros Hpay; exfalso; apply Hpay; reflexivity);
    intros _;
    match goal with
    | E : pubkey_of _ _ = Ok _ |- _ =>
        unfold pubkey_of in E;
        destruct (KeyInfo.pubkey _); [discriminate|discriminate E]
    end.
Qed.

(** X6.  A successful expansion through a miniscript shell ([sh(wsh)],
    [sh], [wsh]): [miniscript] is the non-empty text the shell pattern
    captures; [expandedMiniscript] and [expansionMap] are what
    [expandMiniscript] returns for it under the [isSegwit] of the shell;
    and [expandedExpression] is the shell around the expanded
    miniscript. *)
Theorem expand_miniscript_shell (params : ExpandParams.t) (r : Expansion)
    (shell : Shell) (before after : string) :
  expand params = Ok r ->
  shell_of (canonicalExpression r) = Some shell ->
  miniscript_shell shell = Some (before, after) ->
  exists ms em map,
    miniscript_in shell (canonicalExpression r) = Some ms
    /\ ms <> EmptyString
    /\ expandMiniscript ms (shell_isSegwit shell)
         (default networks_bitcoin (ExpandParams.network params))
       = Ok (em, map)
    /\ miniscript r = Some ms
    /\ expandedMiniscript r = Some em
    /\ expansionMap r = Some map
    /\ expandedExpression r = Some (before ++ em ++ after)
    /\ isSegwit r = Some (shell_isSegwit shell).
Proof.
  intros Hr Hs Hk. destruct (expand_Ok_shell _ _ _ Hr Hs) as (d & Hrun).
  set (c := canonicalExpression r) in *. clearbody c.
  destruct shell; try discriminate Hk; injection Hk as <- <-;
    unfold run_shell, expand_sh_wsh, expand_sh, expand_wsh in Hrun;
    cbn [miniscript_in shell_isSegwit];
    break_all;
    cbn [miniscript expandedMiniscript expansionMap expandedExpression
         isSegwit];
    eexists _, _, _;
    (split; [first [reflexivity|eassumption]|]); (split; [discriminate|]);
    (split; [first [reflexivity|eassumption]|]); repeat split.
Qed.

(** X7.  Which fields a shell sets.  On success [isSegwit] is undefined
    for [addr], false for [pk], [pkh] and [sh(MS)], true for the other
    shells; and when the canonical expression has no [*], a redeemScript is
    present exactly for [sh(wpkh)], [sh(wsh)] and [sh(MS)], where for the
    first two it is the output of the payment's redeem, and a witnessScript
    exactly for [sh(wsh)] and [wsh]. *)
Theorem expand_shell_fields (params : ExpandParams.t) (r : Expansion)
    (shell : Shell) :
  expand params = Ok r ->
  shell_of (canonicalExpression r) = Some shell ->
  isSegwit r = isSegwit_of shell
  /\ (has_wildcard (canonicalExpression r) = false ->
      matches (redeemScript r) = sets_redeemScript shell
      /\ matches (witnessScript r) = sets_witnessScript shell
      /\ (shell = ShWpkh \/ shell = ShWsh ->
          exists pay, payment r = Some pay
                      /\ redeemScript r = redeem_output pay)).
Proof.
  intros Hr Hs. destruct (expand_Ok_shell _ _ _ Hr Hs) as (d & Hrun).
  set (c := canonicalExpression r) in *. clearbody c.
  destruct (has_wildcard c) eqn:Ew.
  - split; [|discriminate].
    destruct shell; unfold run_shell, expand_addr, expand_pk, expand_pkh,
      expand_sh_wpkh, expand_wpkh, expand_sh_wsh, expand_sh, expand_wsh
      in Hrun; break_all; reflexivity.
  - destruct shell; unfold run_shell, expand_addr, expand_pk, expand_pkh,
      expand_sh_wpkh, expand_wpkh, expand_sh_wsh, expand_sh, expand_wsh
      in Hrun; break_all;
      cbn [isSegwit redeemScript witnessScript payment isSegwit_of
           sets_redeemScript sets_witnessScript matches];
      (split; [reflexivity|]); intros _;
      (split; [reflexivity|]); (split; [reflexivity|]);
      intros [Hx|Hx]; try discriminate Hx;
      (eexists; split; [reflexivity|first [reflexivity|symmetry; eassumption]]).
Qed.

Lemma prelude_set_allow (flag : option bool) (params : ExpandParams.t) :
  prelude (set_allowMiniscriptInP2SH flag params) = prelude params.
Proof. reflexivity. Qed.

Lemma expand_sh_allowed (d c : string) (net : Network) (ir icr : bool)
    (r : Expansion) :
  expand_sh d c net false ir icr = Ok r -> expand_sh d c net true ir icr = Ok r.
Proof.
  unfold expand_sh. destruct (group1 _) as [[|a ms]|]; try discriminate.
  cbn [Bool.eqb andb].
  destruct (negb (search_sh_head (String a ms) =? 0)); [discriminate|auto].
Qed.

Lemma expand_sh_strict (d c : string) (net : Network) (ir icr : bool)
    (r : Expansion) :
  expand_sh d c net true ir icr = Ok r ->
  exists ms, miniscript r = Some ms
    /\ expand_sh d c net false ir icr =
       if negb (search_sh_head ms =? 0) then Throw MiniscriptOnlyInWsh
       else Ok r.
Proof.
  unfold expand_sh. destruct (group1 _) as [[|a ms]|]; try discriminate.
  cbn [Bool.eqb andb]. intros H. exists (String a ms). split.
  - break_ok H; injection H as <-; reflexivity.
  - destruct (negb (search_sh_head (String a ms) =? 0)); [reflexivity|exact H].
Qed.

(** X8.  [allowMiniscriptInP2SH] only matters for an [sh(MS)] whose
    miniscript does not begin with one of [pk(], [pkh(], [wpkh(], [combo(],
    [multi(], [sortedmulti(], [multi_a(], [sortedmulti_a(].  Setting the
    flag keeps every success of the call without it.  A success with the
    flag set is also a success without it, with the same expansion, unless
    it went through [sh(MS)] with a miniscript outside that list; in that
    case the call without the flag throws "Miniscript expressions can only
    be used in wsh". *)
Theorem expand_allowMiniscriptInP2SH (params : ExpandParams.t)
    (r : Expansion) :
  let strict := set_allowMiniscriptInP2SH (Some false) params in
  let lax := set_allowMiniscriptInP2SH (Some true) params in
  (expand strict = Ok r -> expand lax = Ok r)
  /\ (expand lax = Ok r ->
      if match shell_of (canonicalExpression r), miniscript r with
         | Some Sh, Some ms => negb (search_sh_head ms =? 0)
         | _, _ => false
         end
      then expand strict = Throw MiniscriptOnlyInWsh
      else expand strict = Ok r).
Proof.
  cbv zeta. rewrite !expand_prelude, !prelude_set_allow.
  cbn [set_allowMiniscriptInP2SH ExpandParams.network
       ExpandParams.allowMiniscriptInP2SH default].
  destruct (prelude params) as [[d c]|]; [|split; discriminate].
  cbn [bind]. rewrite !dispatch_shell.
  destruct (shell_of c) as [shell|] eqn:Es; [|split; discriminate].
  split.
  - destruct shell; try (intros H; exact H). apply expand_sh_allowed.
  - intros Hr. destruct (run_shell_frame _ _ _ _ _ _ _ _ Hr) as [Hc _].
    rewrite Hc, Es.
    destruct shell; try exact Hr.
    cbn [run_shell] in *.
    destruct (expand_sh_strict _ _ _ _ _ _ Hr) as [ms [Hm Hs]].
    rewrite Hm. destruct (negb (search_sh_head ms =? 0)); exact Hs.
Qed.

Lemma value_of_Some {A : Type} (c : result A) (a : A) :
  value_of c = Some a -> c = Ok a.
Proof. destruct c; [intros [= ->]; reflexivity|discriminate]. Qed.

Lemma set_isRanged_same (r : Expansion) : set_isRanged (isRanged r) r = r.
Proof. destruct r; reflexivity. Qed.

(** An [addr] expansion comes from a descriptor without [*]. *)
Lemma expand_Ok_addr (params : ExpandParams.t) (r : Expansion) :
  expand params = Ok r ->
  matches (reAddrAnchored (canonicalExpression r)) = true ->
  has_wildcard (given_descriptor params) = false.
Proof.
  intros Hr Ha. apply expand_Ok in Hr as (d & c & shell & Hp & Hs & Hrun).
  destruct (run_shell_frame _ _ _ _ _ _ _ _ Hrun) as [Hc _].
  rewrite Hc in Ha. apply shell_of_addr in Ha. rewrite Ha in Hs.
  injection Hs as <-.
  apply run_shell_payment in Hrun as [Hir _].
  apply prelude_Ok in Hp as (<- & _). exact Hir.
Qed.

(** X9.  An address is never ranged: whenever [expand] succeeds with a
    canonical expression that the [addr] pattern matches, [isRanged] is
    false, neither the given descriptor nor the canonical expression
    contains [*], and no index was passed. *)
Theorem expand_addr_not_ranged (params : ExpandParams.t) (r : Expansion) :
  expand params = Ok r ->
  matches (reAddrAnchored (canonicalExpression r)) = true ->
  isRanged r = false
  /\ has_wildcard (given_descriptor params) = false
  /\ has_wildcard (canonicalExpression r) = false
  /\ ExpandParams.index params = None.
Proof.
  intros Hr Ha. pose proof (expand_Ok_addr _ _ Hr Ha) as Hd.
  split; [rewrite (expand_Ok_isRanged _ _ Hr); exact Hd|].
  split; [exact Hd|].
  assert (Hfree : has_wildcard (canonicalExpression r) = false).
  { pose proof Hr as Hr'.
    apply expand_Ok in Hr' as (d & c & shell & Hp & _ & Hrun).
    destruct (run_shell_frame _ _ _ _ _ _ _ _ Hrun) as [-> _].
    apply prelude_Ok in Hp as (-> & _ & Hev).
    exact (evaluate_wildcard_free _ _ _ _ Hev Hd). }
  split; [exact Hfree|].
  destruct (ExpandParams.index params) as [i|] eqn:Ei; [|reflexivity].
  destruct (expand_Ok_index _ _ _ Ei Hr) as (z & _ & _ & Hw & _).
  apply has_wildcard_body in Hd. congruence.
Qed.

(** X10.  The canonical expression stands for the descriptor.  When
    [expand] succeeds with a non-empty canonical expression that does not
    itself end in what the checksum pattern matches, expanding that
    canonical expression, with no index and no checksum required, on the
    same network and with the same [allowMiniscriptInP2SH], succeeds with
    the same expansion up to [isRanged], which then tells whether the
    canonical expression contains [*]. *)
Theorem expand_canonical_again (params : ExpandParams.t) (r : Expansion) :
  expand params = Ok r ->
  canonicalExpression r <> EmptyString ->
  trailing_checksum (canonicalExpression r) = None ->
  expand (ExpandParams.make (Some (canonicalExpression r)) None None None
            (ExpandParams.network params)
            (ExpandParams.allowMiniscriptInP2SH params))
  = Ok (set_isRanged (has_wildcard (canonicalExpression r)) r).
Proof.
  intros Hr Hne Hnone. pose proof Hr as Hr'.
  apply expand_Ok in Hr as (d & c & shell & Hp & Hs & Hrun).
  destruct (run_shell_frame _ _ _ _ _ _ _ _ Hrun) as [Hc Hir].
  rewrite Hc in *.
  rewrite (expand_in_shell _ c c shell (prelude_plain _ _ _ Hne Hnone) Hs).
  cbn [ExpandParams.network ExpandParams.allowMiniscriptInP2SH].
  apply value_of_Some.
  destruct shell.
  1: { assert (Hd : has_wildcard d = false).
       { apply prelude_Ok in Hp as (-> & _).
         apply (expand_Ok_addr _ _ Hr'). rewrite Hc.
         apply shell_of_addr. exact Hs. }
       assert (Hfree : has_wildcard c = false).
       { apply prelude_Ok in Hp as (_ & _ & Hev).
         exact (evaluate_wildcard_free _ _ _ _ Hev Hd). }
       rewrite Hd, Hfree in Hrun. rewrite Hd in Hir. rewrite Hfree.
       rewrite (run_shell_descriptor Addr c d), Hrun.
       rewrite <- Hir, set_isRanged_same. reflexivity. }
  all: match goal with
       | |- value_of (run_shell ?s _ _ ?net ?allow _ _) = _ =>
           rewrite (run_shell_flag s c d c net allow (has_wildcard c)
                      (has_wildcard d) (has_wildcard c)) by discriminate
       end; rewrite Hrun; reflexivity.
Qed.

(** ** Counting opcodes *)

Lemma filter_partition {A : Type} (f g : A -> bool) (l : list A) :
  (forall a, g a = negb (f a)) ->
  (length (filter f l) + length (filter g l) = length l)%nat.
Proof.
  intros Hfg. induction l as [|a l IH]; [reflexivity|].
  cbn [filter]. rewrite Hfg. destruct (f a); cbn [negb length]; lia.
Qed.

Lemma is_push_nonpush (t : StackElement) : is_push t = negb (is_nonpush t).
Proof.
  destruct t as [n|b]; [|reflexivity]. unfold is_push, is_nonpush.
  destruct (Z.leb_spec n OP_16), (Z.gtb_spec n OP_16); try reflexivity; lia.
Qed.

(** X11.  For a script that decompiles, [countNonPushOnlyOPs] returns a
    count that, together with the pushes (data and opcodes up to [OP_16]),
    makes up all the tokens: it is at most the number of tokens, and it is
    zero exactly when the script is push-only. *)
Theorem countNonPushOnlyOPs_bounds (script : Buffer)
    (tokens : list StackElement) :
  bscript_decompile script = Some tokens ->
  exists n,
    countNonPushOnlyOPs script = Ok n
    /\ (n + length (filter is_push tokens) = length tokens)%nat
    /\ (n <= length tokens)%nat
    /\ (n = 0%nat <-> forallb is_push tokens = true).
Proof.
  intros H. unfold countNonPushOnlyOPs. rewrite H.
  eexists. split; [reflexivity|].
  pose proof (filter_partition is_nonpush is_push tokens is_push_nonpush) as Hp.
  split; [exact Hp|]. split; [lia|].
  clear H Hp. induction tokens as [|t l IH]; [split; reflexivity|].
  cbn [filter forallb]. rewrite is_push_nonpush.
  destruct (is_nonpush t); cbn [negb andb length].
  - split; discriminate.
  - exact IH.
Qed.

(** ** The constructor of [Output] *)

Lemma given_expansion_request (d : string) (options : OutputParams.t) :
  has_wildcard d = true -> given_descriptor (expansion_request d options) = d.
Proof.
  intros H. unfold given_descriptor, expansion_request, or_else; cbn.
  destruct d; [discriminate H|reflexivity].
Qed.

(** What the constructor leaves in an [Output]. *)
Lemma new_Output_expansion (options : OutputParams.t) (o : Output.t) :
  new_Output options = Ok o ->
  exists d r,
    OutputParams.descriptor options = JsString d
    /\ expand (expansion_request d options) = Ok r
    /\ (isRanged r = true -> OutputParams.index options <> None)
    /\ payment r = Some (Output.payment o)
    /\ Output.expandedExpression o = expandedExpression r
    /\ Output.miniscript o = miniscript r
    /\ Output.expandedMiniscript o = expandedMiniscript r
    /\ Output.expansionMap o = expansionMap r
    /\ Output.isSegwit o = isSegwit r
    /\ Output.witnessScript o = witnessScript r
    /\ Output.redeemScript o = redeemScript r
    /\ Output.network o
       = default networks_bitcoin (OutputParams.network options)
    /\ match OutputParams.signersPubKeys options, expansionMap r with
       | Some keys, _ => Output.signersPubKeys o = keys
       | None, Some map =>
           map_throwing (pubkey_of d) (Object_values map)
           = Ok (Output.signersPubKeys o)
       | None, None =>
           matches (reAddrAnchored (canonicalExpression r)) = true
           /\ exists scriptPubKey,
                Payment.output (Output.payment o) = Some scriptPubKey
                /\ Output.signersPubKeys o = [scriptPubKey]
       end.
Proof.
  unfold new_Output. intros H.
  destruct (OutputParams.descriptor options) as [| | | |descriptor| |];
    try discriminate.
  cbn [typeof String.eqb Ascii.eqb Bool.eqb negb] in H.
  exists descriptor.
  change (expand _) with (expand (expansion_request descriptor options)) in H.
  destruct (expand (expansion_request descriptor options)) as [r|];
    [|discriminate].
  cbn [bind] in H. exists r. split; [reflexivity|]. split; [reflexivity|].
  destruct (isRanged r && negb (matches (OutputParams.index options))) eqn:Ei;
    [discriminate|].
  split.
  { intros Hir Hnone. rewrite Hir, Hnone in Ei. discriminate. }
  destruct (payment r) as [pay|]; [|discriminate].
  destruct (OutputParams.signersPubKeys options) as [keys|].
  - cbn [bind] in H. injection H as <-. repeat split.
  - destruct (expansionMap r) as [map|].
    + destruct (map_throwing _ _) as [keys|]; [|discriminate].
      cbn [bind] in H. injection H as <-. repeat split.
    + destruct (matches (reAddrAnchored (canonicalExpression r)));
        [|discriminate].
      cbn [negb] in H. unfold payment_scriptPubKey in H.
      destruct (Payment.output pay) as [spk|] eqn:Eo; [|discriminate].
      cbn [bind] in H. injection H as <-. cbn.
      repeat split. exists spk. split; [exact Eo|reflexivity].
Qed.

(** X12.  The constructor builds no [Output] from a descriptor that
    contains [*] when no index is given: it throws what [expand] throws,
    and when [expand] succeeds it throws "index was not provided for ranged
    descriptor". *)
Theorem new_Output_ranged_without_index (options : OutputParams.t)
    (d : string) :
  OutputParams.descriptor options = JsString d ->
  OutputParams.index options = None ->
  has_wildcard d = true ->
  new_Output options =
  match expand (expansion_request d options) with
  | Ok _ => Throw IndexNotProvidedForRanged
  | Throw e => Throw e
  end.
Proof.
  intros Hd Hi Hw. unfold new_Output. rewrite Hd.
  cbn [typeof String.eqb Ascii.eqb Bool.eqb negb].
  change (expand _) with (expand (expansion_request d options)) at 1.
  destruct (expand (expansion_request d options)) as [r|] eqn:E;
    [|reflexivity].
  cbn [bind]. rewrite (expand_Ok_isRanged _ _ E), given_expansion_request, Hi
    by exact Hw.
  rewrite Hw. reflexivity.
Qed.

(** What each shell sets besides the payment: [isSegwit] by shell, an
    expansion map in every shell but [addr], and nothing else in [addr]. *)
Lemma run_shell_segwit (shell : Shell) (d c : string) (net : Network)
    (allow ir icr : bool) (r : Expansion) :
  run_shell shell d c net allow ir icr = Ok r ->
  isSegwit r = isSegwit_of shell
  /\ matches (expansionMap r) = matches (isSegwit_of shell)
  /\ (isSegwit_of shell = None ->
      expandedExpression r = None /\ miniscript r = None
      /\ expandedMiniscript r = None).
Proof.
  destruct shell; unfold run_shell, expand_addr, expand_pk, expand_pkh,
    expand_sh_wpkh, expand_wpkh, expand_sh_wsh, expand_sh, expand_wsh;
    intros H; break_all;
    cbn [isSegwit expansionMap expandedExpression miniscript
         expandedMiniscript isSegwit_of matches];
    repeat split; try reflexivity; discriminate.
Qed.

Lemma expand_segwit (params : ExpandParams.t) (r : Expansion) :
  expand params = Ok r ->
  matches (expansionMap r) = matches (isSegwit r)
  /\ (isSegwit r = None ->
      expandedExpression r = None /\ miniscript r = None
      /\ expandedMiniscript r = None).
Proof.
  intros H. apply expand_Ok in H as (d & c & shell & _ & _ & Hr).
  apply run_shell_segwit in Hr as (-> & Hm & Hn). split; assumption.
Qed.

Lemma expand_Ok_payment (params : ExpandParams.t) (r : Expansion) :
  expand params = Ok r ->
  matches (payment r) = negb (has_wildcard (canonicalExpression r)).
Proof.
  intros H. apply expand_Ok in H as (d & c & shell & Hp & _ & Hr).
  destruct (run_shell_frame _ _ _ _ _ _ _ _ Hr) as [-> _].
  pose proof (run_shell_payment _ _ _ _ _ _ _ _ Hr) as Hpay.
  destruct shell; try (destruct Hpay as [Hpay _]; exact Hpay).
  destruct Hpay as (Hir & Hpay & _). rewrite Hpay.
  apply prelude_Ok in Hp as (_ & _ & Hev).
  rewrite (evaluate_wildcard_free _ _ _ _ Hev Hir). reflexivity.
Qed.

(** X13.  Every [Output] the constructor builds reflects a successful
    expansion of its descriptor, made with the constructor's index, flags
    (false by default) and network (bitcoin by default).  The canonical
    expression of that expansion contains no [*]; an index was given
    exactly when the descriptor contains [*]; [getPayment()] is its
    payment; the [expand()] method returns its expanded expression,
    miniscript, expanded miniscript and expansion map; and [isSegwit()],
    [getWitnessScript()], [getRedeemScript()] and [getNetwork()] return its
    [isSegwit], witnessScript and redeemScript and that network. *)
Theorem output_reflects_expansion (options : OutputParams.t) (o : Output.t) :
  new_Output options = Ok o ->
  exists d r,
    OutputParams.descriptor options = JsString d
    /\ expand (expansion_request d options) = Ok r
    /\ has_wildcard (canonicalExpression r) = false
    /\ (has_wildcard d = true <-> OutputParams.index options <> None)
    /\ payment r = Some (getPayment o)
    /\ Output_expand o
       = {| own_expandedExpression := expandedExpression r;
            own_miniscript := miniscript r;
            own_expandedMiniscript := expandedMiniscript r;
            own_expansionMap := expansionMap r |}
    /\ Output_isSegwit o = isSegwit r
    /\ getWitnessScript o = witnessScript r
    /\ getRedeemScript o = redeemScript r
    /\ getNetwork o = default networks_bitcoin (OutputParams.network options).
Proof.
  intros H.
  apply new_Output_expansion in H
    as (d & r & Hd & Hr & Hi & Hpay & Hee & Hms & Hem & Hmap & Hseg & Hws
        & Hrs & Hnet & _).
  exists d, r. split; [exact Hd|]. split; [exact Hr|].
  assert (Hfree : has_wildcard (canonicalExpression r) = false).
  { pose proof (expand_Ok_payment _ _ Hr) as Hp. rewrite Hpay in Hp.
    cbn [matches] in Hp. destruct (has_wildcard _); [discriminate|reflexivity]. }
  split; [exact Hfree|]. split.
  { split.
    - intros Hw. apply Hi.
      rewrite (expand_Ok_isRanged _ _ Hr), given_expansion_request; exact Hw.
    - intros Hidx. destruct (OutputParams.index options) as [i|] eqn:Ei;
        [|contradiction].
      assert (Hi' : ExpandParams.index (expansion_request d options) = Some i)
        by exact Ei.
      destruct (expand_Ok_index _ _ _ Hi' Hr) as (z & _ & _ & Hw & _).
      destruct (has_wildcard d) eqn:E; [reflexivity|].
      assert (Hg : given_descriptor (expansion_request d options) = d).
      { apply expand_Ok in Hr as (d' & c & shell & Hp & _ & _).
        apply prelude_Ok in Hp as (Hd' & _ & Hev).
        apply evaluate_Ok in Hev as (Hne & _).
        unfold given_descriptor, expansion_request, or_else in *; cbn in *.
        destruct d; [contradiction|reflexivity]. }
      rewrite Hg in Hw. apply has_wildcard_body in E. congruence. }
  unfold getPayment, Output_expand, Output_isSegwit, getWitnessScript,
    getRedeemScript, getNetwork.
  rewrite Hee, Hms, Hem, Hmap, Hseg, Hws, Hrs, Hnet. repeat split.
  exact Hpay.
Qed.

Lemma getTimeConstraints_plain (o : Output.t) :
  Output.miniscript o = None -> getTimeConstraints o = Ok None.
Proof. unfold getTimeConstraints. intros ->. reflexivity. Qed.

Section Psbt.

(** [updatePsbt] of [./psbt] and [psbt.addOutput] of bitcoinjs-lib, whatever
    they do. *)
Variable updatePsbt : UpdatePsbtArgs.t -> result (Psbt * Z).
Variable addOutput : Psbt -> Buffer -> Z -> result Psbt.

(** X14.  For every [Output] the constructor builds, [isSegwit()] is
    undefined exactly when there is no expansion map.  For such an
    [Output] the [expand()] method returns an empty object, [getSequence()]
    and [getLockTime()] return undefined, [updatePsbtAsInput] and the
    deprecated [updatePsbt] throw "could not determine whether this is a
    segwit descriptor" whatever [updatePsbt] of [./psbt] would do, and,
    unless signersPubKeys were given, the scriptPubKey exists, is the only
    signer, and is what [updatePsbtAsOutput] hands to [psbt.addOutput]. *)
Theorem output_segwit_unknown (options : OutputParams.t) (o : Output.t) :
  new_Output options = Ok o ->
  (Output_isSegwit o = None <-> own_expansionMap (Output_expand o) = None)
  /\ (Output_isSegwit o = None ->
      Output_expand o = Build_OutputExpansion None None None None
      /\ getSequence o = Ok None
      /\ getLockTime o = Ok None
      /\ (OutputParams.signersPubKeys options = None ->
          exists scriptPubKey,
            getScriptPubKey o = Ok scriptPubKey
            /\ Output.signersPubKeys o = [scriptPubKey]
            /\ forall psbt value,
                 updatePsbtAsOutput addOutput o psbt value
                 = addOutput psbt scriptPubKey value)
      /\ forall params,
           updatePsbtAsInput updatePsbt o params = Throw UnknownSegwit
           /\ Output_updatePsbt updatePsbt o params = Throw UnknownSegwit).
Proof.
  intros H.
  apply new_Output_expansion in H
    as (d & r & Hd & Hr & Hi & Hpay & Hee & Hms & Hem & Hmap & Hseg & Hws
        & Hrs & Hnet & Hkeys).
  destruct (expand_segwit _ _ Hr) as [Hm Hnone].
  unfold Output_isSegwit, Output_expand. cbn [own_expansionMap].
  rewrite Hseg, Hmap, Hee, Hms, Hem. split.
  { destruct (isSegwit r), (expansionMap r); cbn [matches] in Hm;
      split; intros; congruence. }
  intros Hs. destruct (Hnone Hs) as (-> & Hms' & ->).
  assert (Hmap' : expansionMap r = None).
  { rewrite Hs in Hm. destruct (expansionMap r); [discriminate|reflexivity]. }
  rewrite Hmap', Hms'. split; [reflexivity|].
  rewrite Hms' in Hms.
  unfold getSequence, getLockTime. rewrite (getTimeConstraints_plain _ Hms).
  split; [reflexivity|]. split; [reflexivity|]. split.
  - intros Hopt. rewrite Hopt, Hmap' in Hkeys.
    destruct Hkeys as (_ & spk & Ho & Hk). exists spk.
    unfold updatePsbtAsOutput, getScriptPubKey, payment_scriptPubKey.
    rewrite Ho. repeat split. exact Hk.
  - intros params. unfold Output_updatePsbt, updatePsbtAsInput, Output_isSegwit.
    rewrite Hseg, Hs. split; reflexivity.
Qed.

End Psbt.

(** ** Satisfaction and finalization *)

(** X15.  [getScriptSatisfaction] on an [Output] the constructor builds.
    Without a miniscript it throws "cannot get satisfaction from not
    expanded miniscript".  With one, the satisfier runs first on the fake
    signatures of signersPubKeys without time constraints, and then on the
    given signatures under the nLockTime and nSequence of that first
    satisfaction; an error of either run is rethrown, and a second
    satisfaction without a script is "could not produce a valid
    satisfaction". *)
Theorem output_satisfaction (options : OutputParams.t) (o : Output.t)
    (signatures : list PartialSig) :
  new_Output options = Ok o ->
  match Output.miniscript o with
  | None => getScriptSatisfaction o signatures = Throw NotExpandedSatisfaction
  | Some _ =>
      exists em map,
        Output.expandedMiniscript o = Some em
        /\ Output.expansionMap o = Some map
        /\ getScriptSatisfaction o signatures =
           (fake <- satisfyMiniscript em map
                      (List.map fakeSignature (Output.signersPubKeys o))
                      (Output.preimages o) None ;;
            sat <- satisfyMiniscript em map signatures (Output.preimages o)
                     (Some {| nLockTime := sat_nLockTime fake;
                              nSequence := sat_nSequence fake |}) ;;
            match scriptSatisfaction sat with
            | Some s => Ok s
            | None => Throw NoValidSatisfaction
            end)
  end.
Proof.
  intros H. pose proof (new_Output_miniscript _ _ H) as Hm.
  destruct (Output.miniscript o) as [ms|] eqn:Ems.
  - destruct Hm as (Hne & em & map & Hem & Hmap). exists em, map.
    split; [exact Hem|]. split; [exact Hmap|].
    unfold getScriptSatisfaction, getLockTime, getSequence.
    rewrite Ems, Hem, Hmap.
    rewrite (getTimeConstraints_miniscript o ms em map Ems Hne Hem Hmap).
    destruct (satisfyMiniscript em map _ _ None) as [fake|]; reflexivity.
  - unfold getScriptSatisfaction. rewrite Ems. reflexivity.
Qed.

(** X16.  The input assertion passes exactly when the PSBT has an input
    and a transaction input at [index], the scriptPubKey of the input's
    UTXO can be read and is this Output's, the transaction input's sequence
    is the expected one, the PSBT's locktime is this Output's (0 when
    undefined), and the input's witnessScript and redeemScript are this
    Output's. *)
Theorem assertPsbtInput_accepts (o : Output.t) (psbt : Psbt) (index : Z) :
  assertPsbtInput o psbt index = Ok tt <->
  exists input txInput observed sequence lockTime,
    array_get (data_inputs psbt) index = Some input
    /\ array_get (txInputs psbt) index = Some txInput
    /\ observed_scriptPubKey input (tx_index txInput) = Ok observed
    /\ getSequence o = Ok sequence
    /\ getLockTime o = Ok lockTime
    /\ getScriptPubKey o = Ok observed
    /\ tx_sequence txInput = Some (spec_sequence sequence lockTime)
    /\ locktime_of psbt = default 0 lockTime
    /\ in_witnessScript input = getWitnessScript o
    /\ in_redeemScript input = getRedeemScript o.
Proof.
  split; [apply assertPsbtInput_Ok|].
  intros (input & txInput & observed & sequence & lockTime & Hi & Ht & Ho
          & Hs & Hl & Hk & Hsq & Hlt & Hws & Hrs).
  unfold assertPsbtInput. rewrite Hi, Ht, Ho. cbn [bind].
  rewrite Hl. cbn [bind]. rewrite Hs. cbn [bind]. rewrite Hk. cbn [bind].
  rewrite expected_sequence_spec, Hsq, Hlt, Hws, Hrs, or_zero_default.
  replace (Buffer_compare observed observed =? 0) with true
    by (symmetry; apply Z.eqb_eq, Buffer_compare_eq; reflexivity).
  replace (strict_equal _ _) with true
    by (symmetry; apply strict_equal_eq; reflexivity).
  rewrite Z.eqb_refl.
  replace (eqBuffers (getWitnessScript o) (getWitnessScript o)) with true
    by (symmetry; apply eqBuffers_eq; reflexivity).
  replace (eqBuffers (getRedeemScript o) (getRedeemScript o)) with true
    by (symmetry; apply eqBuffers_eq; reflexivity).
  reflexivity.
Qed.

(** X17.  Whenever [finalizePsbtInput] succeeds: unless [validate] was
    false, the signatures of the input were validated; the input at [index]
    carries partial signatures; and the PSBT returned is that of
    [psbt.finalizeInput], called with the standard finalizer when this
    Output has no miniscript, and otherwise with the finalizer made from
    the script satisfaction of those signatures and this Output's
    network. *)
Theorem finalize_outcome (o : Output.t) (index : Z) (psbt psbt' : Psbt)
    (validate : option bool) :
  finalizePsbtInput o index psbt validate = Ok psbt' ->
  (validate <> Some false -> validateSignaturesOfInput psbt index = Ok true)
  /\ exists input signatures,
       array_get (data_inputs psbt) index = Some input
       /\ partialSig input = Some signatures
       /\ if truthy (Output.miniscript o)
          then exists scriptSatisfaction,
                 getScriptSatisfaction o signatures = Ok scriptSatisfaction
                 /\ finalizeInput psbt index
                      (Some (scriptSatisfaction, getNetwork o)) = Ok psbt'
          else finalizeInput psbt index None = Ok psbt'.
Proof.
  unfold finalizePsbtInput. intros H. split.
  - intros Hv.
    assert (Hd : default true validate = true).
    { destruct validate as [[|]|]; [reflexivity|contradiction|reflexivity]. }
    rewrite Hd in H.
    destruct (validateSignaturesOfInput psbt index) as [[|]|];
      [reflexivity|discriminate|discriminate].
  - destruct (if default true validate then _ else _) as [valid|];
      [|discriminate].
    cbn [bind] in H.
    destruct (default true validate && negb valid); [discriminate|].
    destruct (array_get (data_inputs psbt) index) as [input|];
      [|discriminate].
    destruct (partialSig input) as [signatures|] eqn:Es; [|discriminate].
    exists input, signatures. split; [reflexivity|]. split; [exact Es|].
    destruct (assertPsbtInput o psbt index) as [[]|]; [|discriminate].
    cbn [bind] in H.
    destruct (truthy (Output.miniscript o)); cbn [negb] in H.
    + destruct (getScriptSatisfaction o signatures) as [s|]; [|discriminate].
      exists s. split; [reflexivity|exact H].
    + exact H.
Qed.

(** X18.  [validate] defaults to true.  With validation on, invalid
    signatures are reported as "invalid signatures on input" before
    anything else is looked at, an exception of the validation is
    rethrown, and after a successful validation [finalizePsbtInput] does
    what it does with validation off. *)
Theorem finalize_validate_flag (o : Output.t) (index : Z) (psbt : Psbt) :
  finalizePsbtInput o index psbt None = finalizePsbtInput o index psbt (Some true)
  /\ match validateSignaturesOfInput psbt index with
     | Ok true =>
         finalizePsbtInput o index psbt (Some true)
         = finalizePsbtInput o index psbt (Some false)
     | Ok false =>
         finalizePsbtInput o index psbt (Some true)
         = Throw (InvalidSignatures index)
     | Throw e => finalizePsbtInput o index psbt (Some true) = Throw e
     end.
Proof.
  split; [reflexivity|]. unfold finalizePsbtInput. cbn [default].
  destruct (validateSignaturesOfInput psbt index) as [[|]|]; reflexivity.
Qed.

Lemma array_get_outside {A : Type} (arr : list A) (i : Z) :
  i < 0 \/ Z.of_nat (length arr) <= i -> array_get arr i = None.
Proof.
  intros H. unfold array_get. destruct (i <? 0) eqn:E; [reflexivity|].
  apply Z.ltb_ge in E. apply nth_error_None. lia.
Qed.

(** X19.  An index outside the inputs of the PSBT, negative or past the
    end: the input assertion throws "invalid input or txInput";
    [finalizePsbtInput] without validation throws "cannot finalize without
    signatures"; and with or without validation it never succeeds. *)
Theorem finalize_outside_inputs (o : Output.t) (index : Z) (psbt : Psbt) :
  index < 0 \/ Z.of_nat (length (data_inputs psbt)) <= index ->
  assertPsbtInput o psbt index = Throw InvalidInputOrTxInput
  /\ finalizePsbtInput o index psbt (Some false)
     = Throw CannotFinalizeWithoutSignatures
  /\ forall validate psbt',
       finalizePsbtInput o index psbt validate <> Ok psbt'.
Proof.
  intros H. pose proof (array_get_outside _ _ H) as Hn.
  unfold assertPsbtInput, finalizePsbtInput. rewrite Hn.
  split; [reflexivity|]. split; [reflexivity|].
  intros validate psbt'.
  destruct (if default true validate then _ else _) as [valid|];
    [|discriminate].
  cbn [bind]. destruct (default true validate && negb valid); discriminate.
Qed.

End FurtherProperties.

(** * The properties on concrete descriptors

    Each statement below instantiates one of the theorems above with the
    reference collaborators and an example descriptor. *)

#[local] Existing Instance Reference.externals.



(** A ranged descriptor expanded without an index has no payment. *)
Lemma expand_payment_iff_not_ranged_witness :
  exists r,
    expand (Examples.request Examples.ranged_body None None) = Ok r
    /\ has_wildcard (canonicalExpression r) = true
    /\ payment r = None /\ redeemScript r = None /\ witnessScript r = None.
Proof.
  destruct (expand (Examples.request Examples.ranged_body None None))
    as [r|e] eqn:E.
  2: { exfalso. vm_compute in E. discriminate E. }
  exists r. split; [reflexivity|].
  pose proof (expand_payment_iff_not_ranged _ _ E) as [_ Hranged].
  assert (Hw : has_wildcard (canonicalExpression r) = true).
  { vm_compute in E. injection E as <-. vm_compute. reflexivity. }
  split; [exact Hw|exact (Hranged Hw)].
Defined.

(** Index 7 on a checksummed ranged descriptor. *)
Lemma expand_index_witness :
  exists r,
    expand (Examples.request Examples.ranged_checksummed (Some (Int 7)) None)
    = Ok r
    /\ canonicalExpression r = Examples.ranged_at_7
    /\ has_wildcard (canonicalExpression r) = false.
Proof.
  destruct (expand (Examples.request Examples.ranged_checksummed
                      (Some (Int 7)) None)) as [r|e] eqn:E.
  2: { exfalso. vm_compute in E. discriminate E. }
  exists r. split; [reflexivity|].
  pose proof (expand_index
                (Examples.request Examples.ranged_checksummed
                   (Some (Int 7)) None) (Int 7) eq_refl)
    as (_ & _ & _ & Hsuccess).
  destruct (Hsuccess r E) as (z & Hz & _ & _ & _ & Hc & Hfree).
  split; [|exact Hfree].
  injection Hz as <-. rewrite Hc by (vm_compute; discriminate).
  vm_compute. reflexivity.
Defined.

(** C3 as stated fails beyond the safe integers.  The index 1e21 is an
    integer and not negative, so it is accepted; [toString] prints it as
    [1e+21], and that text, not the decimal representation, replaces the
    [*]: the canonical expression [expand] computes for [a*] is [a1e+21]
    (which no shell matches), where the decimal representation would give
    [a1000000000000000000000]. *)
Lemma index_1e21_is_not_substituted_in_decimal :
  Number_isInteger (Int (10 ^ 21)) = true
  /\ Number_negative (Int (10 ^ 21)) = false
  /\ evaluate "a*" false (Some (Int (10 ^ 21))) = Ok "a1e+21"
  /\ prelude (Examples.request "a*" (Some (Int (10 ^ 21))) None)
     = Ok ("a*", "a1e+21")
  /\ expand (Examples.request "a*" (Some (Int (10 ^ 21))) None)
     = Throw (CouldNotParse "a*")
  /\ substitute (10 ^ 21) "a*" = "a1000000000000000000000".
Proof.
  split; [reflexivity|]. split; [reflexivity|].
  split; [vm_compute; reflexivity|]. split; [vm_compute; reflexivity|].
  split; vm_compute; reflexivity.
Defined.

(** A bech32 address parses as p2wpkh alone, which is then the last
    success. *)
Lemma expand_addr_last_success_witness :
  exists r pay,
    expand (Examples.request Examples.addr_descriptor None None) = Ok r
    /\ payment r = Some pay
    /\ Payment.output pay
       = Some (x00 :: x14 :: Reference.digest_of 20
                 (list_byte_of_string Examples.address))
    /\ isSegwit r = None.
Proof.
  pose proof (expand_addr_last_success
                (Examples.request Examples.addr_descriptor None None)
                Examples.addr_descriptor Examples.addr_descriptor
                Examples.address) as H.
  assert (Hp : prelude (Examples.request Examples.addr_descriptor None None)
               = Ok (Examples.addr_descriptor, Examples.addr_descriptor))
    by (vm_compute; reflexivity).
  assert (Hre : reAddrAnchored Examples.addr_descriptor
                = Some (Some Examples.address))
    by (vm_compute; reflexivity).
  assert (HA : Examples.address <> EmptyString) by discriminate.
  destruct (H Hp Hre HA) as [_ Hdecoded]. clear H.
  destruct (address_toOutputScript Examples.address networks_bitcoin)
    as [output|e] eqn:Eo.
  2: { exfalso. vm_compute in Eo. discriminate Eo. }
  destruct (Hdecoded output Eo) as (_ & Hsuccess & _).
  destruct (expand (Examples.request Examples.addr_descriptor None None))
    as [r|e] eqn:E.
  2: { exfalso. vm_compute in E. discriminate E. }
  destruct (Hsuccess r eq_refl) as (_ & _ & Hseg).
  destruct (payment r) as [pay|] eqn:Epay.
  2: { exfalso. vm_compute in E. injection E as <-. discriminate Epay. }
  exists r, pay. split; [reflexivity|]. split; [exact Epay|].
  split; [|exact Hseg].
  vm_compute in E. injection E as <-. vm_compute in Epay.
  injection Epay as <-. vm_compute. reflexivity.
Defined.

(** A script over the p2wsh cap makes [expand] fail; the timelocked key
    compiles within the limits. *)
Lemma expand_script_limits_witness :
  fails (expand (Examples.request Examples.oversized_descriptor None None))
  /\ exists r script,
       expand (Examples.request Examples.vault_descriptor None None) = Ok r
       /\ witnessScript r = Some script
       /\ within_limits 3600 script.
Proof.
  split.
  - pose (key := list_byte_of_string Examples.oversized_key).
    refine (proj1 (expand_script_limits
              (Examples.request Examples.oversized_descriptor None None)
              Examples.oversized_descriptor Examples.oversized_descriptor
              ("pk(" ++ Examples.oversized_key ++ ")") "pk(@0)"
              [("@0", KeyInfo.make Examples.oversized_key (Some key)
                        None None None None)]
              (Reference.push key ++ [xac])%list Wsh 3600%nat
              _ _ _ _ _ _ _ _) _);
      try (vm_compute; reflexivity).
    + right. left. split; reflexivity.
    + discriminate.
    + left. apply Nat.ltb_lt. vm_compute. reflexivity.
  - pose (key := list_byte_of_string Examples.pubkey_hex).
    pose (script := (Reference.push key ++ [xad; x02; x90; x00; xb2])%list).
    destruct (expand (Examples.request Examples.vault_descriptor None None))
      as [r|e] eqn:E.
    2: { exfalso. known E. }
    exists r, script. split; [reflexivity|].
    refine ((fun H : compiled_script Wsh r = Some script
                     /\ within_limits 3600 script => H)
              (proj1 (proj2 (expand_script_limits
                 (Examples.request Examples.vault_descriptor None None)
                 Examples.vault_descriptor Examples.vault_descriptor
                 Examples.vault_miniscript "and_v(v:pk(@0),older(144))"
                 [("@0", KeyInfo.make Examples.pubkey_hex (Some key)
                           None None None None)]
                 script Wsh 3600%nat _ _ _ _ _ _ _ _)) r E));
      try (vm_compute; reflexivity).
    + right. left. split; reflexivity.
    + discriminate.
Defined.

(** C6 as stated fails on a checksummed ranged descriptor: expanding it at
    index 7 succeeds with a scriptPubKey, while the descriptor obtained by
    replacing every [*] with [7] keeps the checksum of the ranged text and
    is rejected. *)
Lemma textual_substitution_keeps_stale_checksum :
  (exists r out,
     expand (Examples.request Examples.ranged_checksummed (Some (Int 7)) None)
     = Ok r
     /\ isRanged r = true
     /\ scriptPubKey_of r = Some out)
  /\ substitute 7 Examples.ranged_checksummed
     = Examples.ranged_at_7 ++ "#wvk84d79"
  /\ expand (Examples.request
               (substitute 7 Examples.ranged_checksummed) None None)
     = Throw (InvalidChecksum (Examples.ranged_at_7 ++ "#wvk84d79")).
Proof.
  split; [|split; vm_compute; reflexivity].
  destruct (expand (Examples.request Examples.ranged_checksummed
                      (Some (Int 7)) None)) as [r|e] eqn:E.
  2: { exfalso. known E. }
  destruct (scriptPubKey_of r) as [out|] eqn:Ek.
  2: { exfalso. known E. vm_compute in Ek. discriminate Ek. }
  exists r, out. split; [reflexivity|]. split; [|exact Ek].
  known E. reflexivity.
Defined.

(** Index 7 on the checksummed ranged descriptor against the substituted
    body. *)
Lemma expand_index_is_substitution_witness :
  exists r1 r2,
    expand (Examples.request Examples.ranged_checksummed (Some (Int 7)) None)
    = Ok r1
    /\ expand (Examples.request Examples.ranged_at_7 None None) = Ok r2
    /\ scriptPubKey_of r2 = scriptPubKey_of r1
    /\ payment r1 <> None.
Proof.
  destruct (expand (Examples.request Examples.ranged_checksummed
                      (Some (Int 7)) None)) as [r1|e] eqn:E.
  2: { exfalso. known E. }
  pose proof (expand_index_is_substitution
                (Examples.request Examples.ranged_checksummed
                   (Some (Int 7)) None) 7 r1 eq_refl
                ltac:(vm_compute; discriminate) E) as H.
  cbv zeta in H.
  destruct (H ltac:(vm_compute; reflexivity))
    as (r2 & Hr2 & _ & _ & Hspk & Hpay).
  exists r1, r2. split; [reflexivity|]. split; [|split; assumption].
  rewrite <- Hr2. f_equal; vm_compute; reflexivity.
Defined.

(** The timelocked output: the satisfier reports sequence 144 and no
    locktime. *)
Lemma output_time_constraints_witness :
  exists o,
    new_Output (Examples.options (JsString Examples.vault_descriptor)) = Ok o
    /\ getSequence o = Ok (Some 144)
    /\ getLockTime o = Ok None.
Proof.
  destruct (new_Output (Examples.options (JsString Examples.vault_descriptor)))
    as [o|e] eqn:E.
  2: { exfalso. known E. }
  exists o. split; [reflexivity|].
  pose proof (output_time_constraints _ _ E) as (_ & _ & Hms & _).
  destruct (Output.miniscript o) as [ms|] eqn:Em.
  2: { exfalso. known E. discriminate Em. }
  destruct Hms as (em & map & Hem & Hmap & Hseq & Hlock).
  rewrite Hseq, Hlock. clear Hseq Hlock.
  known E. vm_compute in Hem, Hmap.
  injection Hem as <-. injection Hmap as <-.
  split; vm_compute; reflexivity.
Defined.

(** Finalizing the timelocked output in a PSBT that matches it. *)
Lemma finalize_asserts_input_witness :
  exists o spk psbt',
    new_Output (Examples.options (JsString Examples.vault_descriptor)) = Ok o
    /\ getScriptPubKey o = Ok spk
    /\ finalizePsbtInput o 0
         (Examples.psbt_spending spk (getWitnessScript o) 144 0) None
       = Ok psbt'
    /\ assertPsbtInput o
         (Examples.psbt_spending spk (getWitnessScript o) 144 0) 0 = Ok tt.
Proof.
  destruct (new_Output (Examples.options (JsString Examples.vault_descriptor)))
    as [o|e] eqn:E.
  2: { exfalso. known E. }
  destruct (getScriptPubKey o) as [spk|e] eqn:Ek.
  2: { exfalso. known E. vm_compute in Ek. discriminate Ek. }
  destruct (finalizePsbtInput o 0
              (Examples.psbt_spending spk (getWitnessScript o) 144 0) None)
    as [psbt'|e] eqn:Ef.
  2: { exfalso. known E. known Ek. vm_compute in Ef. discriminate Ef. }
  exists o, spk, psbt'.
  split; [reflexivity|]. split; [exact Ek|]. split; [exact Ef|].
  exact (proj1 (proj2 (finalize_asserts_input _ _ _ _ _ Ef))).
Defined.

(** An input without the witnessScript this output has cannot be
    finalized. *)
Lemma finalize_script_presence_witness :
  exists o spk,
    new_Output (Examples.options (JsString Examples.vault_descriptor)) = Ok o
    /\ getScriptPubKey o = Ok spk
    /\ fails (finalizePsbtInput o 0
                (Examples.psbt_spending spk None 144 0) None).
Proof.
  destruct (new_Output (Examples.options (JsString Examples.vault_descriptor)))
    as [o|e] eqn:E.
  2: { exfalso. known E. }
  destruct (getScriptPubKey o) as [spk|e] eqn:Ek.
  2: { exfalso. known E. vm_compute in Ek. discriminate Ek. }
  exists o, spk. split; [reflexivity|]. split; [exact Ek|].
  pose proof (finalize_script_presence o 0
                (Examples.psbt_spending spk None 144 0) None _ eq_refl)
    as (_ & _ & Hfail & _).
  apply Hfail. left. known E. vm_compute. discriminate.
Defined.

(** [undefined], a number and a Buffer are all rejected for their type. *)
Lemma new_Output_rejects_non_string_witness :
  new_Output (Examples.options JsUndefined) = Throw InvalidDescriptorType
  /\ new_Output (Examples.options (JsNumber (Int 5)))
     = Throw InvalidDescriptorType
  /\ new_Output (OutputParams.make (JsBuffer [x02; xc6]) (Some (Int (-1)))
                   (Some true) None None None None)
     = Throw InvalidDescriptorType.
Proof.
  split; [|split]; apply new_Output_rejects_non_string; discriminate.
Defined.

(** ** Further properties on concrete descriptors *)

(** A checksummed descriptor expands the same whether or not the checksum
    is required. *)
Lemma expand_checksum_not_required_witness :
  exists r,
    expand (Examples.request Examples.pkh_checksummed None (Some true)) = Ok r
    /\ expand (Examples.request Examples.pkh_checksummed None None) = Ok r
    /\ expand (Examples.request Examples.pkh_checksummed None (Some false))
       = Ok r.
Proof.
  destruct (expand (Examples.request Examples.pkh_checksummed None
                      (Some true))) as [r|e] eqn:E.
  2: { exfalso. known E. }
  exists r. split; [reflexivity|]. split.
  - exact (expand_checksum_not_required _ r None E eq_refl).
  - exact (expand_checksum_not_required _ r (Some false) E eq_refl).
Defined.

(** The key of the scenarios under [pkh], with and without its checksum. *)
Lemma expand_checksum_round_trip_witness :
  value_of (expand (Examples.request Examples.pkh_checksummed None (Some true)))
  = value_of (expand (Examples.request Examples.pkh_body None (Some false)))
  /\ value_of (expand (Examples.request Examples.pkh_body None (Some false)))
     <> None.
Proof.
  split.
  - apply (expand_checksum_round_trip
             (Examples.request EmptyString None (Some true))
             Examples.pkh_body "#8fhd9pwu");
      [discriminate|vm_compute; reflexivity..].
  - vm_compute. discriminate.
Defined.

(** Index 7 on the checksummed ranged descriptor: ranged, with nothing left
    to substitute. *)
Lemma expand_isRanged_witness :
  exists r,
    expand (Examples.request Examples.ranged_checksummed (Some (Int 7)) None)
    = Ok r
    /\ isRanged r = true
    /\ has_wildcard (canonicalExpression r) = false.
Proof.
  destruct (expand (Examples.request Examples.ranged_checksummed
                      (Some (Int 7)) None)) as [r|e] eqn:E.
  2: { exfalso. known E. }
  exists r. split; [reflexivity|].
  destruct (expand_isRanged _ _ E) as (_ & _ & Hidx).
  apply Hidx. discriminate.
Defined.

(** The key of the scenarios under [pkh]. *)
Lemma expand_key_shell_witness :
  exists r pKE,
    expand (Examples.request Examples.pkh_body None None) = Ok r
    /\ canonicalExpression r = "pkh(" ++ Examples.pubkey_hex ++ ")"
    /\ expansionMap r = Some [("@0", pKE)]
    /\ expandedExpression r = Some "pkh(@0)"
    /\ isSegwit r = Some false.
Proof.
  destruct (expand (Examples.request Examples.pkh_body None None))
    as [r|e] eqn:E.
  2: { exfalso. known E. }
  assert (Hs : shell_of (canonicalExpression r) = Some Pkh).
  { known E. vm_compute. reflexivity. }
  destruct (expand_key_shell _ r Pkh "pkh(" ")" "pkh(@0)" false E Hs eq_refl)
    as (key & pKE & Hre & _ & Hc & _ & Hmap & Hee & Hseg & _).
  exists r, pKE. split; [reflexivity|].
  split; [|split; [exact Hmap|split; [exact Hee|exact Hseg]]].
  rewrite Hc. f_equal. f_equal.
  known E. vm_compute in Hre. injection Hre as <-. reflexivity.
Defined.

(** The timelocked key under [wsh]. *)
Lemma expand_miniscript_shell_witness :
  exists r map,
    expand (Examples.request Examples.vault_descriptor None None) = Ok r
    /\ miniscript r = Some Examples.vault_miniscript
    /\ expandedMiniscript r = Some "and_v(v:pk(@0),older(144))"
    /\ expansionMap r = Some map
    /\ expandedExpression r = Some "wsh(and_v(v:pk(@0),older(144)))"
    /\ isSegwit r = Some true.
Proof.
  destruct (expand (Examples.request Examples.vault_descriptor None None))
    as [r|e] eqn:E.
  2: { exfalso. known E. }
  assert (Hs : shell_of (canonicalExpression r) = Some Wsh).
  { known E. vm_compute. reflexivity. }
  destruct (expand_miniscript_shell _ r Wsh "wsh(" ")" E Hs eq_refl)
    as (ms & em & map & Hin & _ & Hexp & Hms & Hem & Hmap & Hee & Hseg).
  assert (Hms' : ms = Examples.vault_miniscript).
  { known E. vm_compute in Hin. injection Hin as <-. reflexivity. }
  subst ms.
  assert (Hem' : em = "and_v(v:pk(@0),older(144))").
  { vm_compute in Hexp. injection Hexp as <- _. reflexivity. }
  subst em.
  exists r, map. split; [reflexivity|].
  split; [exact Hms|]. split; [exact Hem|]. split; [exact Hmap|].
  split; [exact Hee|exact Hseg].
Defined.

(** Nested segwit: segwit, with a redeemScript and no witnessScript. *)
Lemma expand_shell_fields_witness :
  exists r pay,
    expand (Examples.request Examples.nested_descriptor None None) = Ok r
    /\ isSegwit r = Some true
    /\ payment r = Some pay
    /\ redeemScript r = redeem_output pay
    /\ matches (redeemScript r) = true
    /\ matches (witnessScript r) = false.
Proof.
  destruct (expand (Examples.request Examples.nested_descriptor None None))
    as [r|e] eqn:E.
  2: { exfalso. known E. }
  assert (Hs : shell_of (canonicalExpression r) = Some ShWpkh).
  { known E. vm_compute. reflexivity. }
  assert (Hw : has_wildcard (canonicalExpression r) = false).
  { known E. vm_compute. reflexivity. }
  destruct (expand_shell_fields _ r ShWpkh E Hs) as [Hseg Hfields].
  destruct (Hfields Hw) as (Hrs & Hws & Hpay).
  destruct (Hpay (or_introl eq_refl)) as (pay & Hp & Hr).
  exists r, pay. split; [reflexivity|].
  split; [exact Hseg|]. split; [exact Hp|]. split; [exact Hr|].
  split; [exact Hrs|exact Hws].
Defined.

(** The timelocked key directly under [sh]: accepted with the flag,
    rejected without. *)
Lemma expand_allowMiniscriptInP2SH_witness :
  exists r,
    expand (ExpandParams.make (Some Examples.sh_vault_descriptor) None None
              None None (Some true)) = Ok r
    /\ expand (ExpandParams.make (Some Examples.sh_vault_descriptor) None None
                 None None (Some false)) = Throw MiniscriptOnlyInWsh.
Proof.
  pose (params := ExpandParams.make (Some Examples.sh_vault_descriptor) None
                    None None None None).
  destruct (expand (set_allowMiniscriptInP2SH (Some true) params))
    as [r|e] eqn:E.
  2: { exfalso. known E. }
  exists r. split; [exact E|].
  pose proof (proj2 (expand_allowMiniscriptInP2SH params r) E) as H.
  assert (Hs : shell_of (canonicalExpression r) = Some Sh).
  { known E. vm_compute. reflexivity. }
  assert (Hm : miniscript r = Some Examples.vault_miniscript).
  { known E. vm_compute. reflexivity. }
  rewrite Hs, Hm in H. exact H.
Defined.

(** The address of the scenarios. *)
Lemma expand_addr_not_ranged_witness :
  exists r,
    expand (Examples.request Examples.addr_descriptor None None) = Ok r
    /\ isRanged r = false
    /\ has_wildcard (canonicalExpression r) = false.
Proof.
  destruct (expand (Examples.request Examples.addr_descriptor None None))
    as [r|e] eqn:E.
  2: { exfalso. known E. }
  assert (Ha : matches (reAddrAnchored (canonicalExpression r)) = true).
  { known E. vm_compute. reflexivity. }
  destruct (expand_addr_not_ranged _ r E Ha) as (Hir & _ & Hc & _).
  exists r. split; [reflexivity|]. split; [exact Hir|exact Hc].
Defined.

(** Index 7 on the checksummed ranged descriptor, then its canonical
    expression on its own. *)
Lemma expand_canonical_again_witness :
  exists r,
    expand (Examples.request Examples.ranged_checksummed (Some (Int 7)) None)
    = Ok r
    /\ canonicalExpression r = Examples.ranged_at_7
    /\ expand (Examples.request Examples.ranged_at_7 None None)
       = Ok (set_isRanged false r).
Proof.
  destruct (expand (Examples.request Examples.ranged_checksummed
                      (Some (Int 7)) None)) as [r|e] eqn:E.
  2: { exfalso. known E. }
  assert (Hc : canonicalExpression r = Examples.ranged_at_7).
  { known E. vm_compute. reflexivity. }
  exists r. split; [reflexivity|]. split; [exact Hc|].
  pose proof (expand_canonical_again _ r E) as H.
  rewrite Hc in H.
  exact (H ltac:(discriminate) ltac:(vm_compute; reflexivity)).
Defined.

(** The script of the timelocked key: two pushes and two opcodes above
    [OP_16]. *)
Lemma countNonPushOnlyOPs_bounds_witness :
  exists n,
    countNonPushOnlyOPs
      (Reference.push (list_byte_of_string Examples.pubkey_hex)
       ++ [xad; x02; x90; x00; xb2])%list = Ok n
    /\ (n <= 4)%nat /\ n <> 0%nat.
Proof.
  assert (Hd : bscript_decompile
                 (Reference.push (list_byte_of_string Examples.pubkey_hex)
                  ++ [xad; x02; x90; x00; xb2])%list
               = Some [Data (list_byte_of_string Examples.pubkey_hex);
                       OpCode 0xad; Data [x90; x00]; OpCode 0xb2])
    by (vm_compute; reflexivity).
  destruct (countNonPushOnlyOPs_bounds _ _ Hd) as (n & Hn & _ & Hle & Hzero).
  exists n. split; [exact Hn|]. split; [exact Hle|].
  intros Hz. apply Hzero in Hz. vm_compute in Hz. discriminate Hz.
Defined.

(** A ranged descriptor without an index builds no [Output]. *)
Lemma new_Output_ranged_without_index_witness :
  new_Output (Examples.options (JsString Examples.ranged_body))
  = Throw IndexNotProvidedForRanged.
Proof.
  rewrite (new_Output_ranged_without_index
             (Examples.options (JsString Examples.ranged_body))
             Examples.ranged_body eq_refl eq_refl
             ltac:(vm_compute; reflexivity)).
  destruct (expand (expansion_request Examples.ranged_body
                      (Examples.options (JsString Examples.ranged_body))))
    as [r|e] eqn:E; [reflexivity|].
  exfalso. vm_compute in E. discriminate E.
Defined.

(** The checksummed ranged descriptor at index 7. *)
Lemma output_reflects_expansion_witness :
  exists o r,
    new_Output (Examples.options_at Examples.ranged_checksummed 7) = Ok o
    /\ expand (Examples.request Examples.ranged_checksummed (Some (Int 7))
                 (Some false)) = Ok r
    /\ payment r = Some (getPayment o)
    /\ own_expandedExpression (Output_expand o) = Some "wpkh(@0)"
    /\ Output_isSegwit o = Some true
    /\ getNetwork o = networks_bitcoin.
Proof.
  destruct (new_Output (Examples.options_at Examples.ranged_checksummed 7))
    as [o|e] eqn:E.
  2: { exfalso. known E. }
  destruct (output_reflects_expansion _ o E)
    as (d & r & Hd & Hr & _ & _ & Hpay & Hexp & Hseg & _ & _ & Hnet).
  injection Hd as <-.
  assert (Hr' : expand (Examples.request Examples.ranged_checksummed
                          (Some (Int 7)) (Some false)) = Ok r).
  { rewrite <- Hr. vm_compute. reflexivity. }
  exists o, r. split; [reflexivity|]. split; [exact Hr'|].
  split; [exact Hpay|]. rewrite Hexp, Hseg, Hnet. cbn [own_expandedExpression].
  clear E Hpay Hexp Hseg Hnet Hr. known Hr'. repeat split.
Defined.

(** An [Output] of the address of the scenarios cannot become a PSBT
    input. *)
Lemma output_segwit_unknown_witness :
  exists o scriptPubKey,
    new_Output (Examples.options (JsString Examples.addr_descriptor)) = Ok o
    /\ Output_isSegwit o = None
    /\ getScriptPubKey o = Ok scriptPubKey
    /\ Output.signersPubKeys o = [scriptPubKey]
    /\ updatePsbtAsInput (fun args => Ok (UpdatePsbtArgs.psbt args, 0)) o
         (UpdateParams.make (Examples.psbt_spending scriptPubKey None 0 0)
            None None None 0)
       = Throw UnknownSegwit.
Proof.
  destruct (new_Output (Examples.options (JsString Examples.addr_descriptor)))
    as [o|e] eqn:E.
  2: { exfalso. known E. }
  assert (Hs : Output_isSegwit o = None).
  { known E. reflexivity. }
  destruct (output_segwit_unknown
              (fun args => Ok (UpdatePsbtArgs.psbt args, 0))
              (fun psbt _ _ => Ok psbt) _ o E) as [_ H].
  destruct (H Hs) as (_ & _ & _ & Hkeys & Hupdate).
  destruct (Hkeys eq_refl) as (spk & Hspk & Hsigners & _).
  exists o, spk. split; [reflexivity|]. split; [exact Hs|].
  split; [exact Hspk|]. split; [exact Hsigners|].
  exact (proj1 (Hupdate _)).
Defined.

(** The timelocked output satisfied by one signature. *)
Lemma output_satisfaction_witness :
  exists o,
    new_Output (Examples.options (JsString Examples.vault_descriptor)) = Ok o
    /\ getScriptSatisfaction o
         [{| sig_pubkey := list_byte_of_string Examples.pubkey_hex;
             signature := repeat x30 71 |}]
       = Ok (Reference.push (repeat x30 71)).
Proof.
  destruct (new_Output (Examples.options (JsString Examples.vault_descriptor)))
    as [o|e] eqn:E.
  2: { exfalso. known E. }
  exists o. split; [reflexivity|].
  pose proof (output_satisfaction _ o
                [{| sig_pubkey := list_byte_of_string Examples.pubkey_hex;
                    signature := repeat x30 71 |}] E) as H.
  destruct (Output.miniscript o) as [ms|] eqn:Em.
  2: { exfalso. known E. discriminate Em. }
  destruct H as (em & map & Hem & Hmap & ->).
  known E. vm_compute in Hem, Hmap.
  injection Hem as <-. injection Hmap as <-.
  vm_compute. reflexivity.
Defined.

(** A PSBT input that matches the timelocked output passes the assertion;
    one with another sequence does not. *)
Lemma assertPsbtInput_accepts_witness :
  exists o spk,
    new_Output (Examples.options (JsString Examples.vault_descriptor)) = Ok o
    /\ getScriptPubKey o = Ok spk
    /\ assertPsbtInput o
         (Examples.psbt_spending spk (getWitnessScript o) 144 0) 0 = Ok tt
    /\ assertPsbtInput o
         (Examples.psbt_spending spk (getWitnessScript o) 145 0) 0 <> Ok tt.
Proof.
  destruct (new_Output (Examples.options (JsString Examples.vault_descriptor)))
    as [o|e] eqn:E.
  2: { exfalso. known E. }
  destruct (getScriptPubKey o) as [spk|e] eqn:Ek.
  2: { exfalso. known E. vm_compute in Ek. discriminate Ek. }
  exists o, spk. split; [reflexivity|]. split; [exact Ek|]. split.
  - apply (proj2 (assertPsbtInput_accepts o _ 0)).
    eexists _, _, spk, (Some 144), None.
    split; [reflexivity|]. split; [reflexivity|]. split; [reflexivity|].
    split; [known E; vm_compute; reflexivity|].
    split; [known E; vm_compute; reflexivity|].
    split; [exact Ek|]. repeat split. known E. reflexivity.
  - intros H. apply (proj1 (assertPsbtInput_accepts o _ 0)) in H.
    destruct H as (input & txInput & observed & sequence & lockTime & _ & Ht
                   & _ & Hs & Hl & _ & Hsq & _).
    injection Ht as <-. known E. vm_compute in Hs, Hl.
    injection Hs as <-. injection Hl as <-. discriminate Hsq.
Defined.

(** Finalizing the timelocked output: validated, signed, and finalized with
    the script satisfaction. *)
Lemma finalize_outcome_witness :
  exists o spk psbt' scriptSatisfaction,
    new_Output (Examples.options (JsString Examples.vault_descriptor)) = Ok o
    /\ getScriptPubKey o = Ok spk
    /\ finalizePsbtInput o 0
         (Examples.psbt_spending spk (getWitnessScript o) 144 0) None
       = Ok psbt'
    /\ validateSignaturesOfInput
         (Examples.psbt_spending spk (getWitnessScript o) 144 0) 0 = Ok true
    /\ finalizeInput (Examples.psbt_spending spk (getWitnessScript o) 144 0) 0
         (Some (scriptSatisfaction, getNetwork o)) = Ok psbt'.
Proof.
  destruct (new_Output (Examples.options (JsString Examples.vault_descriptor)))
    as [o|e] eqn:E.
  2: { exfalso. known E. }
  destruct (getScriptPubKey o) as [spk|e] eqn:Ek.
  2: { exfalso. known E. vm_compute in Ek. discriminate Ek. }
  destruct (finalizePsbtInput o 0
              (Examples.psbt_spending spk (getWitnessScript o) 144 0) None)
    as [psbt'|e] eqn:Ef.
  2: { exfalso. known E. known Ek. vm_compute in Ef. discriminate Ef. }
  destruct (finalize_outcome _ _ _ _ _ Ef)
    as (Hvalid & input & signatures & _ & _ & Hfinal).
  assert (Hm : truthy (Output.miniscript o) = true).
  { known E. reflexivity. }
  rewrite Hm in Hfinal. destruct Hfinal as (s & _ & Hfinal).
  exists o, spk, psbt', s. split; [reflexivity|]. split; [exact Ek|].
  split; [exact Ef|]. split; [|exact Hfinal].
  apply Hvalid. discriminate.
Defined.

(** Index 5 in a PSBT with one input. *)
Lemma finalize_outside_inputs_witness :
  exists o,
    new_Output (Examples.options (JsString Examples.pkh_body)) = Ok o
    /\ assertPsbtInput o (Examples.psbt_spending [] None 0 0) 5
       = Throw InvalidInputOrTxInput
    /\ finalizePsbtInput o 5 (Examples.psbt_spending [] None 0 0) (Some false)
       = Throw CannotFinalizeWithoutSignatures
    /\ assertPsbtInput o (Examples.psbt_spending [] None 0 0) (-1)
       = Throw InvalidInputOrTxInput.
Proof.
  destruct (new_Output (Examples.options (JsString Examples.pkh_body)))
    as [o|e] eqn:E.
  2: { exfalso. known E. }
  exists o. split; [reflexivity|].
  destruct (finalize_outside_inputs o 5 (Examples.psbt_spending [] None 0 0)
              ltac:(right; vm_compute; discriminate)) as (Ha & Hf & _).
  split; [exact Ha|]. split; [exact Hf|].
  exact (proj1 (finalize_outside_inputs o (-1)
                  (Examples.psbt_spending [] None 0 0)
                  ltac:(left; reflexivity))).
Defined.
